(** * A rule-driven directed graph: handshake evaluation, node lifecycle
      and breadth-first traversal

    Shallow embedding of [src/core/types.ts], [src/core/manager.ts] and
    [src/algorithms/bfs.ts].

    JavaScript objects are compared by reference and mutated in place, so a
    [Node] object is a reference into a heap of node records; the graph
    store, the adjacency sets and the traversal all hold references.  A
    [Set] is a duplicate-free list in insertion order (the order in which a
    JavaScript [Set] is iterated), a [Map] keyed by node objects is a
    [gmap] keyed by references. *)

From stdpp Require Import gmap strings list fin_maps sorting.
From Stdlib Require Import ZArith.

(** ** Data model ([src/core/types.ts]) *)

Inductive RuleDirection := Outgoing | Incoming | Both.

Definition RuleDirection_eqb (a b : RuleDirection) : bool :=
  match a, b with
  | Outgoing, Outgoing | Incoming, Incoming | Both, Both => true
  | _, _ => false
  end.

(** [direction] and [targetFilter] are optional fields; [rmatch] is the
    field [match], a keyword here. *)
Record Rule (T : Type) := mkRule {
  direction : option RuleDirection;
  rmatch : T -> T -> bool;
  targetFilter : option (T -> bool)
}.
Arguments mkRule {T}.
Arguments direction {T}.
Arguments rmatch {T}.
Arguments targetFilter {T}.

Record Node (T : Type) := mkNode {
  id : string;
  data : T;
  rules : list (Rule T)
}.
Arguments mkNode {T}.
Arguments id {T}.
Arguments data {T}.
Arguments rules {T}.

(** A node object: an index into the heap of allocated node records. *)
Abbreviation ref := nat (only parsing).

(** ** The graph store *)

(** A JavaScript [Set] of node objects. *)
Module NodeSet.

Definition has (x : ref) (s : list ref) : bool := bool_decide (x ∈ s).

Definition add (x : ref) (s : list ref) : list ref :=
  if has x s then s else s ++ [x].

Definition delete (x : ref) (s : list ref) : list ref :=
  filter (λ y, y ≠ x) s.

End NodeSet.

(** Modelled from the spec: the graph storage primitive ([Graph] of the
    package graph-data-structure, which [Network] extends without adding
    anything) is an external collaborator and not part of the sources.  It
    holds the node set and, per node, the set of its successors, and offers
    node insertion and removal, directed edge insertion and removal and
    adjacency lookup by node, with set semantics: inserting a present edge
    changes nothing, no reverse edge is implied, and removing a node removes
    every edge incident to it.  The class is called [Network] in the
    sources. *)
Record Network := mkNetwork {
  nodes : list ref;
  edges : gmap nat (list ref)
}.

(** [new Network()]. *)
Definition emptyNetwork : Network := mkNetwork [] ∅.

Module Store.

(** Modelled from the spec: node insertion of the store, which is not part
    of the sources.  A present node is not added again; a new node gets an
    empty successor set (the manager's tests read [adjacent(a)!.size] as 0
    for a node without edges). *)
Definition addNode (n : ref) (g : Network) : Network :=
  mkNetwork (NodeSet.add n (nodes g))
          (match edges g !! n with
           | Some _ => edges g
           | None => <[n := []]> (edges g)
           end).

(** Modelled from the spec: node removal of the store, which is not part
    of the sources.  It deletes the node with its successor set, and the
    node from every other successor set: "removes every edge incident to
    it (both directions, against every other node)". *)
Definition removeNode (n : ref) (g : Network) : Network :=
  mkNetwork (NodeSet.delete n (nodes g))
          (NodeSet.delete n <$> delete n (edges g)).

(** Modelled from the spec: adjacency-set lookup by node of the store,
    which is not part of the sources; [None] is [undefined], the answer for
    a node the store has no entry for. *)
Definition adjacent (n : ref) (g : Network) : option (list ref) := edges g !! n.

(** Modelled from the spec: directed edge insertion of the store, which is
    not part of the sources.  Both ends become nodes if they are not; a
    present edge is not added again; no reverse edge is added. *)
Definition addEdge (u v : ref) (g : Network) : Network :=
  let g' := addNode v (addNode u g) in
  mkNetwork (nodes g') (alter (NodeSet.add v) u (edges g')).

(** Modelled from the spec: directed edge removal of the store, which is
    not part of the sources.  Removing an edge that is not there changes
    nothing. *)
Definition removeEdge (u v : ref) (g : Network) : Network :=
  mkNetwork (nodes g) (alter (NodeSet.delete v) u (edges g)).

(** The directed edge [u -> v] is in the store. *)
Definition hasEdge (g : Network) (u v : ref) : bool :=
  match adjacent u g with
  | Some s => NodeSet.has v s
  | None => false
  end.

End Store.

(** The state a manager works on: the node objects allocated so far and the
    store.  Objects are never reused: a removed node leaves the store, not
    the heap, since callers may still hold it. *)
Record World (T : Type) := mkWorld {
  heap : list (Node T);
  network : Network
}.
Arguments mkWorld {T}.
Arguments heap {T}.
Arguments network {T}.

(** ** The manager ([src/core/manager.ts]) *)

Module NetworkManager.
Section WithData.
Context {T : Type}.

(** The inner loop over [target.rules]: [true] is the [return true] of the
    source, [false] is falling out of the loop. *)
Fixpoint acceptLoop (source target : Node T) (tRules : list (Rule T)) : bool :=
  match tRules with
  | [] => false
  | tRule :: rest =>
      let tDir := default Both (direction tRule) in
      if RuleDirection_eqb tDir Outgoing then acceptLoop source target rest
      else if negb (rmatch tRule (data target) (data source))
      then acceptLoop source target rest
      else true
  end.

(** The outer loop over [source.rules]. *)
Fixpoint initiateLoop (source target : Node T) (sRules : list (Rule T)) : bool :=
  match sRules with
  | [] => false
  | sRule :: rest =>
      let sDir := default Both (direction sRule) in
      if RuleDirection_eqb sDir Incoming then initiateLoop source target rest
      else if match targetFilter sRule with
              | Some f => negb (f (data target))
              | None => false
              end
      then initiateLoop source target rest
      else if negb (rmatch sRule (data source) (data target))
      then initiateLoop source target rest
      else if acceptLoop source target (rules target) then true
      else initiateLoop source target rest
  end.

Definition tryHandshake (source target : Node T) : bool :=
  initiateLoop source target (rules source).

(** What the handshake is meant to decide, rule by rule. *)
Definition canInitiate (r : Rule T) (source target : Node T) : Prop :=
  default Both (direction r) ∈ [Outgoing; Both] ∧
  (∀ f, targetFilter r = Some f → f (data target) = true) ∧
  rmatch r (data source) (data target) = true.

Definition canAccept (r : Rule T) (target source : Node T) : Prop :=
  default Both (direction r) ∈ [Incoming; Both] ∧
  rmatch r (data target) (data source) = true.

(** The same rule with another (or no) target filter. *)
Definition withFilter (f : option (T -> bool)) (r : Rule T) : Rule T :=
  mkRule (direction r) (rmatch r) f.

(** [for (const n of this.network.nodes) if (n.id === id) return n]. *)
Fixpoint findNodeIn (h : list (Node T)) (i : string) (ns : list ref) : option ref :=
  match ns with
  | [] => None
  | n :: rest =>
      match h !! n with
      | Some o => if decide (id o = i) then Some n else findNodeIn h i rest
      | None => findNodeIn h i rest
      end
  end.

Definition findNode (i : string) (w : World T) : option ref :=
  findNodeIn (heap w) i (nodes (network w)).

Definition getNode (i : string) (w : World T) : option ref := findNode i w.

(** The body of the loop over [this.network.nodes] that [createNode] and
    [updateNodeData] both end with.  The two handshakes read the records the
    references point to at that moment. *)
Definition handshakeStep (node : ref) (w : World T) (other : ref) : World T :=
  if decide (other = node) then w
  else match heap w !! node, heap w !! other with
       | Some n, Some o =>
           let g1 := if tryHandshake n o
                     then Store.addEdge node other (network w) else network w in
           let g2 := if tryHandshake o n
                     then Store.addEdge other node g1 else g1 in
           mkWorld (heap w) g2
       | _, _ => w
       end.

(** The loop itself.  The node set is not changed while it is iterated:
    [Store.addEdge] only re-adds the two nodes, which are present. *)
Definition handshakeSweep (node : ref) (w : World T) : World T :=
  foldl (handshakeStep node) w (nodes (network w)).

(** An operation returns the world it leaves behind together with either
    the message of the [Error] it threw or its result. *)
Definition createNode (i : string) (d : T) (rs : list (Rule T)) (w : World T)
  : World T * (string + ref) :=
  if decide (i = "") then (w, inl "Id is required")
  else match findNode i w with
       | Some _ => (w, inl ("Duplicate node id: " +:+ i))
       | None =>
           let node := length (heap w) in
           let w1 := mkWorld (heap w ++ [mkNode i d rs])
                             (Store.addNode node (network w)) in
           (handshakeSweep node w1, inr node)
       end.

Definition removeNode (i : string) (w : World T) : World T :=
  match findNode i w with
  | None => w
  | Some node => mkWorld (heap w) (Store.removeNode node (network w))
  end.

(** [node.data = newData]. *)
Definition setData (node : ref) (d : T) (h : list (Node T)) : list (Node T) :=
  alter (λ o, mkNode (id o) d (rules o)) node h.

(** The body of the loop over the copied adjacency set. *)
Definition dropPair (node : ref) (g : Network) (adj : ref) : Network :=
  Store.removeEdge adj node (Store.removeEdge node adj g).

Definition updateNodeData (i : string) (d : T) (w : World T)
  : World T * (string + unit) :=
  match findNode i w with
  | None => (w, inl ("No such node: " +:+ i))
  | Some node =>
      let adjacentNodes := default [] (Store.adjacent node (network w)) in
      let g1 := foldl (dropPair node) (network w) adjacentNodes in
      let w1 := mkWorld (setData node d (heap w)) g1 in
      (handshakeSweep node w1, inr tt)
  end.

End WithData.
End NetworkManager.

(** ** Breadth-first traversal ([src/algorithms/bfs.ts]) *)

(** The callbacks are caller code that may keep state of its own (the
    closure of the test suite's visitor records what it saw), so they are
    state transformers over a caller state [S], threaded through the
    traversal in call order.  [visit] returns [void | boolean]: [None] is
    [undefined].  [maxDepth] is a whole number, of either sign. *)
Record BFSOptions (S : Type) := mkOptions {
  visit : option (S -> ref -> nat -> S * option bool);
  expand : option (S -> ref -> nat -> S * bool);
  maxDepth : option Z
}.
Arguments mkOptions {S}.
Arguments visit {S}.
Arguments expand {S}.
Arguments maxDepth {S}.

(** [options || {}]. *)
Definition noOptions {S : Type} : BFSOptions S := mkOptions None None None.

(** [start: Node<T> | string]. *)
Inductive Start := ById (i : string) | ByNode (n : ref).

(** The local variables of [bfs] and the caller state. *)
Record LoopState (S : Type) := mkLoop {
  visited : list ref;
  order : list ref;
  queue : list (ref * nat);
  callbacks : S
}.
Arguments mkLoop {S}.
Arguments visited {S}.
Arguments order {S}.
Arguments queue {S}.
Arguments callbacks {S}.

(** What one evaluation of the [while] loop does: go on with the next
    iteration ([continue], or the end of the body), or leave [bfs] with the
    order (the loop condition fails, or [return order]). *)
Inductive Iter (S : Type) :=
| Continue (st : LoopState S)
| Return (out : list ref) (s : S).
Arguments Continue {S}.
Arguments Return {S}.

Section Traversal.
Context {S : Type}.

(** [if (visit) { const res = visit(node, depth); ... }]. *)
Definition callVisit (opts : BFSOptions S) (s : S) (node : ref) (depth : nat)
  : S * option bool :=
  match visit opts with
  | Some v => v s node depth
  | None => (s, None)
  end.

(** [expand && !expand(node, depth)], as the answer of [expand]. *)
Definition callExpand (opts : BFSOptions S) (s : S) (node : ref) (depth : nat)
  : S * bool :=
  match expand opts with
  | Some e => e s node depth
  | None => (s, true)
  end.

(** [maxDepth !== undefined && depth >= maxDepth]. *)
Definition depthReached (opts : BFSOptions S) (depth : nat) : bool :=
  match maxDepth opts with
  | Some m => (m <=? Z.of_nat depth)%Z
  | None => false
  end.

(** The body of [for (const next of adj)], on [visited] and [queue]. *)
Definition enqueue (depth : nat) (vq : list ref * list (ref * nat)) (next : ref)
  : list ref * list (ref * nat) :=
  if NodeSet.has next vq.1 then vq
  else (NodeSet.add next vq.1, vq.2 ++ [(next, Datatypes.S depth)]).

Definition bfsIter (g : Network) (opts : BFSOptions S) (st : LoopState S)
  : Iter S :=
  match queue st with
  | [] => Return (order st) (callbacks st)
  | (node, depth) :: rest =>
      let order' := order st ++ [node] in
      let (s1, res) := callVisit opts (callbacks st) node depth in
      match res with
      | Some false => Return order' s1
      | _ =>
          if depthReached opts depth
          then Continue (mkLoop (visited st) order' rest s1)
          else
            let (s2, ex) := callExpand opts s1 node depth in
            if negb ex then Continue (mkLoop (visited st) order' rest s2)
            else match Store.adjacent node g with
                 | None => Continue (mkLoop (visited st) order' rest s2)
                 | Some adj =>
                     let vq := foldl (enqueue depth) (visited st, rest) adj in
                     Continue (mkLoop vq.1 order' vq.2 s2)
                 end
      end
  end.

(** The [while] loop, for at most [fuel] evaluations of its condition;
    [None] when that is not enough. *)
Fixpoint bfsLoop (fuel : nat) (g : Network) (opts : BFSOptions S)
    (st : LoopState S) : option (list ref * S) :=
  match fuel with
  | O => None
  | Datatypes.S fuel' =>
      match bfsIter g opts st with
      | Return out s => Some (out, s)
      | Continue st' => bfsLoop fuel' g opts st'
      end
  end.

(** Every node object in some adjacency set of the store, with repetition. *)
Definition successors (g : Network) : list ref :=
  concat (map snd (map_to_list (edges g))).

(** A bound on the evaluations of the loop condition: the start node, each
    node enqueued later (it comes from an adjacency set), and the last,
    failing one. *)
Definition bfsFuel (g : Network) : nat := 2 + length (successors g).

End Traversal.

Section Bfs.
Context {T S : Type}.

(** The same scan of the node set as the manager's [findNode]. *)
Definition findNodeById (w : World T) (i : string) : option ref :=
  NetworkManager.findNodeIn (heap w) i (nodes (network w)).

(** [typeof start === 'string' ? findNodeById(network, start) : start]. *)
Definition startNode (w : World T) (start : Start) : option ref :=
  match start with
  | ById i => findNodeById w i
  | ByNode n => Some n
  end.

(** The result is the thrown message or the returned order, next to the
    caller state the callbacks leave; [None] only if the loop were to need
    more than [bfsFuel] evaluations, which it never does
    ([bfs_terminates]). *)
Definition bfs (w : World T) (start : Start) (opts : BFSOptions S) (s : S)
  : option ((string + list ref) * S) :=
  match startNode w start with
  | None =>
      Some (inl ("Start node not found: " +:+
                 match start with
                 | ById i => i
                 | ByNode n => default "" (id <$> heap w !! n)
                 end), s)
  | Some n =>
      match bfsLoop (bfsFuel (network w)) (network w) opts
                    (mkLoop [n] [] [(n, 0)] s) with
      | Some (out, s') => Some (inr out, s')
      | None => None
      end
  end.

End Bfs.

(** ** Observing a traversal *)

(** A caller sees a traversal through its callbacks.  [observed] is the
    options object that answers as [opts] does (an absent callback answers
    as the traversal treats its absence) and in addition writes down each
    call with its answer. *)
Inductive Call :=
| CallVisit (n : ref) (d : nat) (res : option bool)
| CallExpand (n : ref) (d : nat) (ex : bool).

Definition observed {S : Type} (opts : BFSOptions S) : BFSOptions (S * list Call) :=
  mkOptions
    (Some (λ sl n d, let (s', r) := callVisit opts sl.1 n d in
                     ((s', sl.2 ++ [CallVisit n d r]), r)))
    (Some (λ sl n d, let (s', b) := callExpand opts sl.1 n d in
                     ((s', sl.2 ++ [CallExpand n d b]), b)))
    (maxDepth opts).

(** The log an observed traversal has written so far. *)
Definition logOf {S : Type} (st : LoopState (S * list Call)) : list Call :=
  (callbacks st).2.

(** The nodes [visit] was called on, in call order. *)
Fixpoint visitedNodes (log : list Call) : list ref :=
  match log with
  | [] => []
  | CallVisit n _ _ :: rest => n :: visitedNodes rest
  | CallExpand _ _ _ :: rest => visitedNodes rest
  end.

(** The shape of the log of a traversal from [start], finished or under
    way.  Positions in the log are call times. *)
Record LogShape {S : Type} (g : Network) (opts : BFSOptions S)
    (start : ref) (log : list Call) : Prop := {
  (* the first call is the visit of the start node at depth 0 *)
  ls_first : log = [] ∨ ∃ r, log !! 0 = Some (CallVisit start 0 r);
  (* no node is visited twice *)
  ls_visit_once : ∀ k k' m d d' r r',
    log !! k = Some (CallVisit m d r) → log !! k' = Some (CallVisit m d' r') →
    k = k';
  (* any other visited node is a successor of a node expanded before, one
     level deeper *)
  ls_origin : ∀ k m d r, log !! k = Some (CallVisit m d r) →
    (k = 0 ∧ m = start ∧ d = 0) ∨
    (∃ j p dp adj, j < k ∧ log !! j = Some (CallExpand p dp true) ∧
       d = Datatypes.S dp ∧ Store.adjacent p g = Some adj ∧ m ∈ adj);
  (* [expand] is asked right after the visit of the same node, if that did
     not stop the traversal and the depth is below [maxDepth] *)
  ls_expand : ∀ k p d b, log !! k = Some (CallExpand p d b) →
    depthReached opts d = false ∧
    ∃ j r, k = Datatypes.S j ∧ log !! j = Some (CallVisit p d r) ∧
           r ≠ Some false
}.

(** What the calls of a finished traversal look like, next to the order
    [out] it returned. *)
Record Observation {S : Type} (g : Network) (opts : BFSOptions S)
    (start : ref) (out : list ref) (log : list Call) : Prop := {
  (* [visit] is called on the nodes of the order, in that order *)
  obs_visits : visitedNodes log = out;
  obs_NoDup : NoDup out;
  obs_nonempty : log ≠ [];
  obs_shape : LogShape g opts start log;
  (* a visit that answers [false] is the last call, and its node the last
     of the order *)
  obs_stop : ∀ k m d, log !! k = Some (CallVisit m d (Some false)) →
    Datatypes.S k = length log ∧ last out = Some m;
  (* unless a visit stopped the traversal, every successor of an expanded
     node is in the order *)
  obs_complete :
    (∀ k m d, log !! k ≠ Some (CallVisit m d (Some false))) →
    ∀ k p dp adj m, log !! k = Some (CallExpand p dp true) →
      Store.adjacent p g = Some adj → m ∈ adj → m ∈ out
}.

(** Where a queued node comes from. *)
Definition queuedFrom (g : Network) (start : ref) (log : list Call)
    (m d : nat) : Prop :=
  (log = [] ∧ m = start ∧ d = 0) ∨
  (∃ j p dp adj, log !! j = Some (CallExpand p dp true) ∧
     d = Datatypes.S dp ∧ Store.adjacent p g = Some adj ∧ m ∈ adj).

(** The same of a traversal under way, with what is known of its queue. *)
Record Traced {S : Type} (g : Network) (opts : BFSOptions S) (start : ref)
    (st : LoopState (S * list Call)) : Prop := {
  tr_visits : visitedNodes (logOf st) = order st;
  tr_NoDup : NoDup (order st ++ (queue st).*1);
  tr_visited : ∀ m, m ∈ visited st ↔ m ∈ order st ++ (queue st).*1;
  tr_begin : logOf st = [] → queue st = [(start, 0)];
  tr_queue : ∀ m d, (m, d) ∈ queue st → queuedFrom g start (logOf st) m d;
  tr_shape : LogShape g opts start (logOf st);
  tr_nostop : ∀ k m d, logOf st !! k ≠ Some (CallVisit m d (Some false));
  tr_complete : ∀ k p dp adj m, logOf st !! k = Some (CallExpand p dp true) →
    Store.adjacent p g = Some adj → m ∈ adj → m ∈ visited st
}.

(** ** Concrete networks *)

(** Payloads are numbers, as the [value] of the test suite's items. *)
Module Scenario.

Definition createNode' (i : string) (d : nat) (rs : list (Rule nat))
    (w : World nat) : World nat :=
  (NetworkManager.createNode i d rs w).1.

Definition updateNodeData' (i : string) (d : nat) (w : World nat) : World nat :=
  (NetworkManager.updateNodeData i d w).1.

Definition newManager : World nat := mkWorld [] emptyNetwork.

(** Initiates towards payload [0] only. *)
Definition toZero : Rule nat :=
  mkRule (Some Outgoing) (λ _ t, Nat.eqb t 0) None.

Definition acceptAll : Rule nat :=
  mkRule (Some Incoming) (λ _ _, true) None.

(** Node [a] (object 0) initiates towards zero payloads, node [b]
    (object 1, payload 0) accepts anything: the only edge is [a -> b]. *)
Definition oneWay : World nat :=
  createNode' "b" 0 [acceptAll] (createNode' "a" 5 [toZero] newManager).

Definition universal : Rule nat := mkRule None (λ _ _, true) None.

(** Accepts while its own payload is [0]; initiates while it is [1]. *)
Definition acceptWhenZero : Rule nat :=
  mkRule (Some Incoming) (λ s _, Nat.eqb s 0) None.
Definition initiateWhenOne : Rule nat :=
  mkRule (Some Outgoing) (λ s _, Nat.eqb s 1) None.

(** Node [x] (object 0) takes part in everything, node [n] (object 1,
    payload 0) accepts: the only edge is [x -> n]. *)
Definition turning : World nat :=
  createNode' "n" 0 [acceptWhenZero; initiateWhenOne]
    (createNode' "x" 7 [universal] newManager).

(** The chain [a -> b -> c -> d] of the traversal tests: four nodes without
    rules, wired by hand through the store. *)
Definition chainNodes : World nat :=
  createNode' "d" 4 []
    (createNode' "c" 3 []
       (createNode' "b" 2 [] (createNode' "a" 1 [] newManager))).

Definition chain : World nat :=
  mkWorld (heap chainNodes)
    (Store.addEdge 2 3 (Store.addEdge 1 2 (Store.addEdge 0 1 (network chainNodes)))).

(** The chain with the edge [d -> c] added: [c] and [d] lie on a cycle
    that can only be entered through [b]. *)
Definition chainBack : World nat :=
  mkWorld (heap chain) (Store.addEdge 3 2 (network chain)).

Definition withMaxDepth (m : Z) : BFSOptions unit := mkOptions None None (Some m).

(** [.map(n => n.id)] on a returned order. *)
Definition ids (w : World nat) (out : list ref) : list string :=
  omap (λ x, id <$> heap w !! x) out.

(** The visitor of the traversal tests: it stops at the node [b]. *)
Definition stopAt (w : World nat) (i : string) : BFSOptions unit :=
  mkOptions
    (Some (λ s n _, (s, if decide (id <$> heap w !! n = Some i)
                        then Some false else None)))
    None None.

(** The barrier of the traversal tests: every node but [b] is expanded. *)
Definition barrierAt (w : World nat) (i : string) : BFSOptions unit :=
  mkOptions None
    (Some (λ s n _, (s, negb (bool_decide (id <$> heap w !! n = Some i)))))
    None.

End Scenario.

(** ** Notions the statements use *)

Section Notions.
Context {T : Type}.

(** The handshake between the records two node objects point to now. *)
Definition justified (w : World T) (x y : ref) : bool :=
  match heap w !! x, heap w !! y with
  | Some a, Some b => NetworkManager.tryHandshake a b
  | _, _ => false
  end.

(** Every node object in the node set or at an end of an edge has been
    allocated. *)
Definition allocated (w : World T) : Prop :=
  (∀ x, x ∈ nodes (network w) → x < length (heap w)) ∧
  (∀ x y, Store.hasEdge (network w) x y = true →
     x < length (heap w) ∧ y < length (heap w)).

(** The record of the node with a given id. *)
Definition lookupNode (i : string) (w : World T) : option (Node T) :=
  match NetworkManager.findNode i w with
  | Some x => heap w !! x
  | None => None
  end.

(** The edge between the nodes with two given ids. *)
Definition edgeById (w : World T) (i j : string) : bool :=
  match NetworkManager.findNode i w, NetworkManager.findNode j w with
  | Some x, Some y => Store.hasEdge (network w) x y
  | _, _ => false
  end.

(** [w] is [w0] after more insertions: the objects, nodes and edges of [w0]
    are as they were, and an edge with a later object at one end is there
    exactly when both ends are nodes and its handshake succeeds. *)
Definition grownFrom (w0 w : World T) : Prop :=
  allocated w ∧
  length (heap w0) ≤ length (heap w) ∧
  (∀ x, x < length (heap w0) → heap w !! x = heap w0 !! x) ∧
  (∀ x, x < length (heap w0) →
     x ∈ nodes (network w) ↔ x ∈ nodes (network w0)) ∧
  (∀ x y, Store.hasEdge (network w) x y = true ↔
     if bool_decide (x < length (heap w0) ∧ y < length (heap w0))
     then Store.hasEdge (network w0) x y = true
     else x ≠ y ∧ x ∈ nodes (network w) ∧ y ∈ nodes (network w) ∧
          justified w x y = true).

(** The record an id stands for once the nodes of [l] are added to [w0]. *)
Definition resolves (w0 : World T) (l : list (Node T)) (i : string)
    (A : Node T) : Prop :=
  lookupNode i w0 = Some A ∨ (A ∈ l ∧ id A = i).

(** Creating the nodes of a list, first to last. *)
Definition createAll (l : list (Node T)) (w : World T) : World T :=
  foldl (λ w n, (NetworkManager.createNode (id n) (data n) (rules n) w).1) w l.

(** An id of [w0], an id of [l], or an id of neither. *)
Inductive Resolved (w0 w : World T) (l : list (Node T)) (i : string) : Prop :=
| ResolvedOld x X :
    NetworkManager.findNode i w0 = Some x → NetworkManager.findNode i w = Some x →
    x < length (heap w0) → heap w0 !! x = Some X → heap w !! x = Some X →
    x ∈ nodes (network w) → (∀ A, resolves w0 l i A → A = X ∧ A ∉ l) →
    Resolved w0 w l i
| ResolvedNew A x :
    NetworkManager.findNode i w0 = None → A ∈ l → id A = i → NetworkManager.findNode i w = Some x →
    length (heap w0) ≤ x → heap w !! x = Some A → x ∈ nodes (network w) →
    (∀ A', resolves w0 l i A' → A' = A) →
    Resolved w0 w l i
| ResolvedNone :
    NetworkManager.findNode i w0 = None → NetworkManager.findNode i w = None →
    (∀ A, ¬ resolves w0 l i A) →
    Resolved w0 w l i.

End Notions.

(** ** Notions of the further properties *)

Section FurtherNotions.
Context {T : Type}.

(** No two nodes of the node set carry the same id. *)
Definition uniqueIds (w : World T) : Prop :=
  ∀ x y a b, x ∈ nodes (network w) → y ∈ nodes (network w) →
    heap w !! x = Some a → heap w !! y = Some b → id a = id b → x = y.

(** What a manager keeps of its world: the store mentions allocated
    objects only, ids are unique, and every edge joins two different nodes
    of the node set. *)
Definition wellFormed (w : World T) : Prop :=
  allocated w ∧ uniqueIds w ∧ NoDup (nodes (network w)) ∧
  ∀ x y, Store.hasEdge (network w) x y = true →
    x ∈ nodes (network w) ∧ y ∈ nodes (network w) ∧ x ≠ y.

(** Between any two different nodes the edge is there exactly when the
    handshake of their present records succeeds. *)
Definition consistent (w : World T) : Prop :=
  ∀ x y, x ∈ nodes (network w) → y ∈ nodes (network w) → x ≠ y →
    Store.hasEdge (network w) x y = justified w x y.

(** A call of one of the three mutating methods of the manager. *)
Inductive Op :=
| OpCreate (i : string) (d : T) (rs : list (Rule T))
| OpRemove (i : string)
| OpUpdate (i : string) (d : T).

(** The world a call leaves behind, whether it returns or throws. *)
Definition runOp (w : World T) (o : Op) : World T :=
  match o with
  | OpCreate i d rs => (NetworkManager.createNode i d rs w).1
  | OpRemove i => NetworkManager.removeNode i w
  | OpUpdate i d => (NetworkManager.updateNodeData i d w).1
  end.

Definition runOps (ops : list Op) (w : World T) : World T := foldl runOp w ops.

Definition isUpdate (o : Op) : bool :=
  match o with OpUpdate _ _ => true | _ => false end.

(** [new NetworkManager()]. *)
Definition newWorld : World T := mkWorld [] emptyNetwork.

End FurtherNotions.
Arguments Op : clear implicits.

(** A walk of [k] edges of the store from [x] to [y]. *)
Inductive walk (g : Network) : nat → nat → nat → Prop :=
| walk_here x : walk g 0 x x
| walk_step k x y z :
    walk g k x y → Store.hasEdge g y z = true → walk g (Datatypes.S k) x z.

(** [y] can be reached from [x] along edges of the store. *)
Definition reachable (g : Network) (x y : nat) : Prop :=
  rtc (λ a b, Store.hasEdge g a b = true) x y.

(** The depths [visit] was called with, in call order. *)
Fixpoint visitDepths (log : list Call) : list nat :=
  match log with
  | [] => []
  | CallVisit _ d _ :: rest => d :: visitDepths rest
  | CallExpand _ _ _ :: rest => visitDepths rest
  end.

(** The answers in the log are those of the callbacks: a visit is logged
    with the answer of [visit], and unless it answered [false] or the depth
    has reached [maxDepth], the next call is the question to [expand] for
    the same node, logged with its answer. *)
Definition Answered {S : Type} (opts : BFSOptions S) (log : list Call) : Prop :=
  ∀ k m d r, log !! k = Some (CallVisit m d r) →
    (∃ s, r = (callVisit opts s m d).2) ∧
    (r ≠ Some false → depthReached opts d = false →
     ∃ s, log !! Datatypes.S k
          = Some (CallExpand m d (callExpand opts s m d).2)).

(** How the depths of an observed traversal under way are ordered: the
    depths visited and those waiting in the queue never decrease, the
    queue holds at most two levels, and a successor of an expanded node
    has been given a depth at most one more than that of the node. *)
Record Leveled {S : Type} (g : Network)
    (st : LoopState (S * list Call)) : Prop := {
  lv_sorted : StronglySorted le (visitDepths (logOf st) ++ (queue st).*2);
  lv_bound : ∀ d0 d', head (queue st).*2 = Some d0 → d' ∈ (queue st).*2 →
    d' ≤ Datatypes.S d0;
  lv_near : ∀ k p dp adj m,
    logOf st !! k = Some (CallExpand p dp true) →
    Store.adjacent p g = Some adj → m ∈ adj →
    (∃ k' d r, logOf st !! k' = Some (CallVisit m d r) ∧ d ≤ Datatypes.S dp) ∨
    (∃ d, (m, d) ∈ queue st ∧ d ≤ Datatypes.S dp)
}.

(** The same of a finished traversal. *)
Record Levels (g : Network) (log : list Call) : Prop := {
  lvl_sorted : StronglySorted le (visitDepths log);
  lvl_near :
    (∀ k m d, log !! k ≠ Some (CallVisit m d (Some false))) →
    ∀ k p dp adj m, log !! k = Some (CallExpand p dp true) →
      Store.adjacent p g = Some adj → m ∈ adj →
      ∃ k' d r, log !! k' = Some (CallVisit m d r) ∧ d ≤ Datatypes.S dp
}.

(** ** Notions of stops and barriers *)

(** [expand] granted the expansion of [p] at some call of the log. *)
Definition granted (log : list Call) (p : ref) : Prop :=
  ∃ j d, log !! j = Some (CallExpand p d true).

(** [y] is reached from [x] along edges of the store each of which leaves
    a node that satisfies [P]; the node [y] itself need not satisfy [P]. *)
Definition reachedThrough (g : Network) (P : ref → Prop) (x y : ref) : Prop :=
  rtc (λ a b, P a ∧ Store.hasEdge g a b = true) x y.

(** The options whose [visit] does to the caller state what that of [opts]
    does, but never gives the stop signal. *)
Definition withoutStop {S : Type} (opts : BFSOptions S) : BFSOptions S :=
  mkOptions
    (Some (λ s n d, let (s', r) := callVisit opts s n d in
                    (s', match r with
                         | Some false => None
                         | _ => r
                         end)))
    (expand opts) (maxDepth opts).

(** ** The manager before handshakes ([src/core/manager.ts], first version)

    The sources keep the manager as it was before rules had a direction: a
    rule may be [bidirectional], edges are added rule by rule, removal
    unlinks the node from every other node before it leaves the store, and
    [updateNodeData] leaves the edges alone. *)

Module Legacy.

Record Rule (T : Type) := mkRule {
  rmatch : T -> T -> bool;
  bidirectional : option bool;
  targetFilter : option (T -> bool)
}.
Arguments mkRule {T}.
Arguments rmatch {T}.
Arguments bidirectional {T}.
Arguments targetFilter {T}.

Record Node (T : Type) := mkNode {
  id : string;
  data : T;
  rules : list (Rule T)
}.
Arguments mkNode {T}.
Arguments id {T}.
Arguments data {T}.
Arguments rules {T}.

Record World (T : Type) := mkWorld {
  heap : list (Node T);
  network : Network
}.
Arguments mkWorld {T}.
Arguments heap {T}.
Arguments network {T}.

Section WithData.
Context {T : Type}.

(** [for (const n of this.network.nodes) if (n.id === id) return n]. *)
Fixpoint findNodeIn (h : list (Node T)) (i : string) (ns : list ref) : option ref :=
  match ns with
  | [] => None
  | n :: rest =>
      match h !! n with
      | Some o => if decide (id o = i) then Some n else findNodeIn h i rest
      | None => findNodeIn h i rest
      end
  end.

Definition findNode (i : string) (w : World T) : option ref :=
  findNodeIn (heap w) i (nodes (network w)).

Definition getNode (i : string) (w : World T) : option ref := findNode i w.

(** One rule of [source] tried on [target]: two early returns, then the
    edge, and the reverse edge for a rule that is [bidirectional]. *)
Definition tryApplyRuleEdge (source target : ref) (w : World T) (rule : Rule T)
  : World T :=
  match heap w !! source, heap w !! target with
  | Some s, Some t =>
      if match targetFilter rule with
         | Some f => negb (f (data t))
         | None => false
         end
      then w
      else if negb (rmatch rule (data s) (data t)) then w
      else
        let g1 := Store.addEdge source target (network w) in
        mkWorld (heap w)
                (if default false (bidirectional rule)
                 then Store.addEdge target source g1 else g1)
  | _, _ => w
  end.

(** The body of the loop of [createNode] over [this.network.nodes]: the
    rules of the new node on the other, then the rules of the other on the
    new node. *)
Definition ruleStep (node : ref) (w : World T) (other : ref) : World T :=
  if decide (other = node) then w
  else match heap w !! node, heap w !! other with
       | Some n, Some o =>
           let w1 := foldl (tryApplyRuleEdge node other) w (rules n) in
           foldl (tryApplyRuleEdge other node) w1 (rules o)
       | _, _ => w
       end.

Definition ruleSweep (node : ref) (w : World T) : World T :=
  foldl (ruleStep node) w (nodes (network w)).

Definition createNode (i : string) (d : T) (rs : list (Rule T)) (w : World T)
  : World T * (string + ref) :=
  if decide (i = "") then (w, inl "Id is required")
  else match findNode i w with
       | Some _ => (w, inl ("Duplicate node id: " +:+ i))
       | None =>
           let node := length (heap w) in
           let w1 := mkWorld (heap w ++ [mkNode i d rs])
                             (Store.addNode node (network w)) in
           (ruleSweep node w1, inr node)
       end.

(** The body of the loop of [removeNode] over [this.network.nodes]. *)
Definition unlinkStep (node : ref) (g : Network) (other : ref) : Network :=
  if decide (other = node) then g
  else Store.removeEdge other node (Store.removeEdge node other g).

Definition removeNode (i : string) (w : World T) : World T :=
  match findNode i w with
  | None => w
  | Some node =>
      let g1 := foldl (unlinkStep node) (network w) (nodes (network w)) in
      mkWorld (heap w) (Store.removeNode node g1)
  end.

(** [node.data = newData], and nothing else. *)
Definition updateNodeData (i : string) (d : T) (w : World T)
  : World T * (string + unit) :=
  match findNode i w with
  | None => (w, inl ("No such node: " +:+ i))
  | Some node =>
      (mkWorld (alter (λ o, mkNode (id o) d (rules o)) node (heap w)) (network w),
       inr tt)
  end.

(** A rule of the record [s] lets the edge to the record [t] through: its
    filter, if it has one, and its [match] both accept. *)
Definition applies (r : Rule T) (s t : Node T) : bool :=
  match targetFilter r with
  | Some f => f (data t)
  | None => true
  end && rmatch r (data s) (data t).

(** What puts the edge [x -> y] in the store: a rule of [x] that applies to
    [y], or a bidirectional rule of [y] that applies to [x]. *)
Definition links (w : World T) (x y : ref) : bool :=
  match heap w !! x, heap w !! y with
  | Some a, Some b =>
      existsb (λ r, applies r a b) (rules a)
      || existsb (λ r, applies r b a && default false (bidirectional r)) (rules b)
  | _, _ => false
  end.

(** Every node object in the node set or at an end of an edge has been
    allocated. *)
Definition allocated (w : World T) : Prop :=
  (∀ x, x ∈ nodes (network w) → x < length (heap w)) ∧
  (∀ x y, Store.hasEdge (network w) x y = true →
     x < length (heap w) ∧ y < length (heap w)).

(** The edges are those the rules of the present records ask for. *)
Definition linked (w : World T) : Prop :=
  ∀ x y, Store.hasEdge (network w) x y = true ↔
    x ∈ nodes (network w) ∧ y ∈ nodes (network w) ∧ x ≠ y ∧ links w x y = true.

Definition allBidirectional (rs : list (Rule T)) : bool :=
  forallb (λ r, default false (bidirectional r)) rs.

(** A call of one of the three mutating methods. *)
Inductive Op :=
| OpCreate (i : string) (d : T) (rs : list (Rule T))
| OpRemove (i : string)
| OpUpdate (i : string) (d : T).

(** The world a call leaves behind, whether it returns or throws. *)
Definition runOp (w : World T) (o : Op) : World T :=
  match o with
  | OpCreate i d rs => (createNode i d rs w).1
  | OpRemove i => removeNode i w
  | OpUpdate i d => (updateNodeData i d w).1
  end.

Definition runOps (ops : list Op) (w : World T) : World T := foldl runOp w ops.

Definition isUpdate (o : Op) : bool :=
  match o with OpUpdate _ _ => true | _ => false end.

(** A call that brings no rule that is not bidirectional. *)
Definition mutualOp (o : Op) : bool :=
  match o with OpCreate _ _ rs => allBidirectional rs | _ => true end.

(** [new NetworkManager()]. *)
Definition newWorld : World T := mkWorld [] emptyNetwork.

End WithData.
Arguments Op : clear implicits.

(** Payloads are numbers.  [toZero] points at payload [0]; [mutual] is
    bidirectional and applies to everything. *)
Definition toZero : Rule nat := mkRule (λ _ t, Nat.eqb t 0) None None.
Definition mutual : Rule nat := mkRule (λ _ _, true) (Some true) None.

(** Node [a] (object 0) points at zero payloads, node [b] (object 1,
    payload 0) has no rules: the only edge is [a -> b]. *)
Definition pair : World nat :=
  (createNode "b" 0 [] (createNode "a" 5 [toZero] newWorld).1).1.

End Legacy.

(** * Properties *)

(** ** The handshake *)

Section HandshakeFacts.
Context {T : Type}.
Implicit Types (source target : Node T) (r : Rule T).

Import NetworkManager.

Lemma initiating_direction r :
  RuleDirection_eqb (default Both (direction r)) Incoming = false ↔
  default Both (direction r) ∈ [Outgoing; Both].
Proof.
  destruct (default Both (direction r)); simpl; split; intros H;
    try done; try (repeat constructor).
  repeat (apply elem_of_cons in H as [H | H]; [done |]).
  by apply elem_of_nil in H.
Qed.

Lemma accepting_direction r :
  RuleDirection_eqb (default Both (direction r)) Outgoing = false ↔
  default Both (direction r) ∈ [Incoming; Both].
Proof.
  destruct (default Both (direction r)); simpl; split; intros H;
    try done; try (repeat constructor).
  repeat (apply elem_of_cons in H as [H | H]; [done |]).
  by apply elem_of_nil in H.
Qed.

Lemma filter_passes r target :
  match targetFilter r with
  | Some f => negb (f (data target))
  | None => false
  end = false ↔
  ∀ f, targetFilter r = Some f → f (data target) = true.
Proof.
  destruct (targetFilter r) as [f |]; split; intros H.
  - intros f' [= <-]. by apply negb_false_iff.
  - apply negb_false_iff. by apply H.
  - intros f' [=].
  - done.
Qed.

Lemma acceptLoop_true source target tRules :
  acceptLoop source target tRules = true ↔
  ∃ r, r ∈ tRules ∧ canAccept r target source.
Proof.
  induction tRules as [| tRule rest IH]; simpl.
  - split; [done | intros (r & Hr & _); by apply elem_of_nil in Hr].
  - destruct (RuleDirection_eqb (default Both (direction tRule)) Outgoing) eqn:Hdir.
    + rewrite IH. split.
      * intros (r & Hr & Hacc). exists r. split; [by right | done].
      * intros (r & Hr & Hacc). apply elem_of_cons in Hr as [-> | Hr]; [| eauto].
        destruct Hacc as [Hd _]. apply accepting_direction in Hd. congruence.
    + destruct (rmatch tRule (data target) (data source)) eqn:Hm; simpl.
      * split; [| done]. intros _. exists tRule. split; [by left |].
        split; [by apply accepting_direction | done].
      * rewrite IH. split.
        -- intros (r & Hr & Hacc). exists r. split; [by right | done].
        -- intros (r & Hr & Hacc). apply elem_of_cons in Hr as [-> | Hr]; [| eauto].
           destruct Hacc as [_ Hm']. congruence.
Qed.

Lemma initiateLoop_true source target sRules :
  initiateLoop source target sRules = true ↔
  (∃ r, r ∈ sRules ∧ canInitiate r source target) ∧
  (∃ r, r ∈ rules target ∧ canAccept r target source).
Proof.
  induction sRules as [| sRule rest IH]; simpl.
  - split; [done | intros [(r & Hr & _) _]; by apply elem_of_nil in Hr].
  - assert (Hskip : ¬ canInitiate sRule source target →
      ((∃ r, r ∈ rest ∧ canInitiate r source target) ∧
       (∃ r, r ∈ rules target ∧ canAccept r target source)) ↔
      ((∃ r, r ∈ sRule :: rest ∧ canInitiate r source target) ∧
       (∃ r, r ∈ rules target ∧ canAccept r target source))).
    { intros Hno. split.
      - intros [(r & Hr & Hi) Ha]. split; [| done]. exists r. split; [by right | done].
      - intros [(r & Hr & Hi) Ha]. split; [| done].
        apply elem_of_cons in Hr as [-> | Hr]; [done | eauto]. }
    destruct (RuleDirection_eqb (default Both (direction sRule)) Incoming) eqn:Hdir.
    { rewrite IH. apply Hskip. intros [Hd _].
      apply initiating_direction in Hd. congruence. }
    destruct (match targetFilter sRule with
              | Some f => negb (f (data target))
              | None => false
              end) eqn:Hf.
    { rewrite IH. apply Hskip. intros (_ & Hflt & _).
      apply filter_passes in Hflt. congruence. }
    destruct (rmatch sRule (data source) (data target)) eqn:Hm; simpl.
    2: { rewrite IH. apply Hskip. intros (_ & _ & Hm'). congruence. }
    destruct (acceptLoop source target (rules target)) eqn:Hacc.
    + apply acceptLoop_true in Hacc. split; [| done]. intros _. split; [| done].
      exists sRule. split; [by left |].
      split; [by apply initiating_direction |].
      split; [by apply filter_passes | done].
    + rewrite IH. split.
      * intros [(r & Hr & Hi) Ha]. split; [| done]. exists r. split; [by right | done].
      * intros [_ Ha]. apply acceptLoop_true in Ha. congruence.
Qed.

Lemma acceptLoop_withFilter source target (g : Rule T → option (T → bool))
    (d : T) tRules :
  data target = d →
  ∀ i, acceptLoop source (mkNode i d (map (λ r, withFilter (g r) r) (rules target)))
         (map (λ r, withFilter (g r) r) tRules)
     = acceptLoop source target tRules.
Proof.
  intros <- i. induction tRules as [| tRule rest IH]; simpl; [done |].
  rewrite IH. done.
Qed.

(** C1: the handshake from [source] to [target] succeeds exactly when some
    rule of [source] may initiate (direction outgoing or both, both being
    the default; its target filter, if any, accepts the target's data; its
    match accepts source and target data) and some rule of [target] may
    accept (direction incoming or both; its match accepts target and
    source data).  Target filters play no part on the accepting side:
    replacing every target filter of the target's rules by anything, or by
    nothing, leaves the outcome as it is. *)
Theorem tryHandshake_iff source target :
  (tryHandshake source target = true ↔
   (∃ r, r ∈ rules source ∧ canInitiate r source target) ∧
   (∃ r, r ∈ rules target ∧ canAccept r target source)) ∧
  (∀ g : Rule T → option (T → bool),
     tryHandshake source
       (mkNode (id target) (data target)
               (map (λ r, withFilter (g r) r) (rules target)))
     = tryHandshake source target).
Proof.
  split; [apply initiateLoop_true |].
  intros g. unfold tryHandshake.
  induction (rules source) as [| sRule rest IH]; simpl; [done |].
  rewrite IH. rewrite (acceptLoop_withFilter source target g (data target) _ eq_refl).
  done.
Qed.

End HandshakeFacts.

(** ** The store *)

Section StoreFacts.
Implicit Types (g : Network) (s : list nat) (u v x y n : nat).

Lemma has_true x s : NodeSet.has x s = true ↔ x ∈ s.
Proof. unfold NodeSet.has. apply bool_decide_eq_true. Qed.

Lemma has_false x s : NodeSet.has x s = false ↔ x ∉ s.
Proof. unfold NodeSet.has. apply bool_decide_eq_false. Qed.

Lemma elem_of_add y x s : y ∈ NodeSet.add x s ↔ y = x ∨ y ∈ s.
Proof.
  unfold NodeSet.add. destruct (NodeSet.has x s) eqn:Hx.
  - apply has_true in Hx. split; [by right | intros [-> | H]; done].
  - rewrite elem_of_app, list_elem_of_singleton. tauto.
Qed.

Lemma elem_of_delete y x s : y ∈ NodeSet.delete x s ↔ y ≠ x ∧ y ∈ s.
Proof. unfold NodeSet.delete. by rewrite list_elem_of_filter. Qed.

Lemma has_add y x s :
  NodeSet.has y (NodeSet.add x s) = bool_decide (y = x) || NodeSet.has y s.
Proof.
  apply eq_true_iff_eq. rewrite orb_true_iff, !has_true, elem_of_add.
  case_bool_decide; intuition congruence.
Qed.

Lemma has_delete y x s :
  NodeSet.has y (NodeSet.delete x s) = negb (bool_decide (y = x)) && NodeSet.has y s.
Proof.
  apply eq_true_iff_eq.
  rewrite andb_true_iff, negb_true_iff, !has_true, elem_of_delete.
  case_bool_decide; intuition congruence.
Qed.

Lemma NoDup_add x s : NoDup s → NoDup (NodeSet.add x s).
Proof.
  intros Hs. unfold NodeSet.add. destruct (NodeSet.has x s) eqn:Hx; [done |].
  apply has_false in Hx. apply NoDup_app. split; [done |].
  split; [| apply NoDup_singleton].
  intros y Hy Hy'. apply list_elem_of_singleton in Hy'. by subst.
Qed.

Lemma hasEdge_true g u v :
  Store.hasEdge g u v = true ↔ ∃ s, edges g !! u = Some s ∧ v ∈ s.
Proof.
  unfold Store.hasEdge, Store.adjacent. destruct (edges g !! u) as [s |].
  - rewrite has_true. split; [eauto | by intros (? & [= <-] & ?)].
  - split; [done | by intros (? & [=] & _)].
Qed.

Lemma hasEdge_addNode n g u v :
  Store.hasEdge (Store.addNode n g) u v = Store.hasEdge g u v.
Proof.
  unfold Store.hasEdge, Store.adjacent, Store.addNode; simpl.
  destruct (edges g !! n) as [s |] eqn:Hn; [done |].
  destruct (decide (n = u)) as [-> | Hne].
  - rewrite lookup_insert_eq, Hn. done.
  - by rewrite lookup_insert_ne.
Qed.

Lemma addNode_has_entry n g : is_Some (edges (Store.addNode n g) !! n).
Proof.
  unfold Store.addNode; simpl. destruct (edges g !! n) eqn:Hn.
  - rewrite Hn. eauto.
  - rewrite lookup_insert_eq. eauto.
Qed.

Lemma addNode_keeps_entry n g x :
  is_Some (edges g !! x) → is_Some (edges (Store.addNode n g) !! x).
Proof.
  intros Hx. unfold Store.addNode; simpl. destruct (edges g !! n) eqn:Hn; [done |].
  destruct (decide (n = x)) as [-> | Hne].
  - rewrite lookup_insert_eq. eauto.
  - by rewrite lookup_insert_ne.
Qed.

Lemma hasEdge_addEdge a b g u v :
  Store.hasEdge (Store.addEdge a b g) u v
  = bool_decide (u = a ∧ v = b) || Store.hasEdge g u v.
Proof.
  pose proof (addNode_keeps_entry b (Store.addNode a g) a (addNode_has_entry a g))
    as [s Hs].
  pose proof (hasEdge_addNode b (Store.addNode a g)) as H1.
  pose proof (hasEdge_addNode a g) as H2.
  rewrite <- H2, <- H1.
  unfold Store.hasEdge, Store.adjacent in *.
  change (edges (Store.addEdge a b g))
    with (alter (NodeSet.add b) a (edges (Store.addNode b (Store.addNode a g)))).
  destruct (decide (u = a)) as [-> | Hne].
  - rewrite lookup_alter_eq, Hs. simpl. rewrite has_add.
    destruct (decide (v = b)) as [-> | Hvb].
    + rewrite !bool_decide_eq_true_2 by done. done.
    + rewrite !bool_decide_eq_false_2 by tauto. done.
  - rewrite lookup_alter_ne by done.
    rewrite bool_decide_eq_false_2 by tauto. done.
Qed.

Lemma hasEdge_removeEdge a b g u v :
  Store.hasEdge (Store.removeEdge a b g) u v
  = negb (bool_decide (u = a ∧ v = b)) && Store.hasEdge g u v.
Proof.
  unfold Store.hasEdge, Store.adjacent, Store.removeEdge; simpl.
  destruct (decide (u = a)) as [-> | Hne].
  - rewrite lookup_alter_eq. destruct (edges g !! a) as [s |]; simpl.
    + rewrite has_delete. destruct (decide (v = b)) as [-> | Hvb].
      * rewrite !bool_decide_eq_true_2 by done. done.
      * rewrite !bool_decide_eq_false_2 by tauto. done.
    + by rewrite andb_false_r.
  - rewrite lookup_alter_ne by done.
    rewrite bool_decide_eq_false_2 by tauto. done.
Qed.

Lemma hasEdge_removeNode n g u v :
  Store.hasEdge (Store.removeNode n g) u v
  = negb (bool_decide (u = n)) && negb (bool_decide (v = n)) && Store.hasEdge g u v.
Proof.
  unfold Store.hasEdge, Store.adjacent, Store.removeNode; simpl.
  rewrite lookup_fmap. destruct (decide (u = n)) as [-> | Hne].
  - rewrite lookup_delete_eq. rewrite bool_decide_eq_true_2 by done. done.
  - rewrite lookup_delete_ne by done. rewrite (bool_decide_eq_false_2 (u = n)) by done.
    destruct (edges g !! u) as [s |]; simpl; [| by rewrite andb_false_r].
    apply has_delete.
Qed.

Lemma nodes_addEdge a b g :
  nodes (Store.addEdge a b g) = NodeSet.add b (NodeSet.add a (nodes g)).
Proof. done. Qed.

Lemma add_present x s : x ∈ s → NodeSet.add x s = s.
Proof. intros Hx. unfold NodeSet.add. apply has_true in Hx. by rewrite Hx. Qed.

End StoreFacts.

(** ** Removal and errors *)

Section ManagerFacts.
Context {T : Type}.
Implicit Types (w : World T) (i : string).

Import NetworkManager.

(** C4: removing an id that is not present changes nothing.  Removing a
    present id takes its node out of the node set, leaves no edge from or
    to that node, and keeps every edge between two other nodes, and every
    absence of one, as it was; no node object is altered. *)
Theorem removeNode_edge_complete w i :
  (findNode i w = None → removeNode i w = w) ∧
  (∀ node, findNode i w = Some node →
     heap (removeNode i w) = heap w ∧
     (∀ x, x ∈ nodes (network (removeNode i w)) ↔
           x ∈ nodes (network w) ∧ x ≠ node) ∧
     Store.adjacent node (network (removeNode i w)) = None ∧
     (∀ x, Store.hasEdge (network (removeNode i w)) node x = false ∧
           Store.hasEdge (network (removeNode i w)) x node = false) ∧
     (∀ x y, x ≠ node → y ≠ node →
        Store.hasEdge (network (removeNode i w)) x y
        = Store.hasEdge (network w) x y)).
Proof.
  unfold removeNode. split.
  - intros ->. done.
  - intros node ->. simpl. split; [done |]. split.
    { intros x. rewrite elem_of_delete. tauto. }
    split.
    { unfold Store.adjacent, Store.removeNode; simpl.
      by rewrite lookup_fmap, lookup_delete_eq. }
    split.
    + intros x. rewrite !hasEdge_removeNode.
      rewrite (bool_decide_eq_true_2 (node = node)) by done. simpl.
      by rewrite andb_false_r.
    + intros x y Hx Hy. rewrite hasEdge_removeNode.
      by rewrite !bool_decide_eq_false_2 by done.
Qed.

(** C5: [createNode] throws for the empty id and for an id that is
    present, [updateNodeData] throws for an id that is not present, and
    [bfs] throws for a start id that is not present, with a message that
    ends in that id; each time the world is left exactly as it was found
    and no callback has run. *)
Theorem errors_precede_mutation w :
  (∀ d rs, createNode "" d rs w = (w, inl "Id is required")) ∧
  (∀ i d rs, i ≠ "" → is_Some (findNode i w) →
     createNode i d rs w = (w, inl ("Duplicate node id: " +:+ i))) ∧
  (∀ i d, findNode i w = None →
     updateNodeData i d w = (w, inl ("No such node: " +:+ i))) ∧
  (∀ i (S : Type) (opts : BFSOptions S) (s : S), findNode i w = None →
     bfs w (ById i) opts s = Some (inl ("Start node not found: " +:+ i), s)).
Proof.
  split; [done |]. split; [| split].
  - intros i d rs Hi [node Hnode]. unfold createNode.
    destruct (decide (i = "")); [done |]. by rewrite Hnode.
  - intros i d Hnone. unfold updateNodeData. by rewrite Hnone.
  - intros i S opts s Hnone. unfold bfs, startNode, findNodeById.
    unfold findNode in Hnone. by rewrite Hnone.
Qed.

End ManagerFacts.

Lemma removeNode_edge_complete_witness :
  NetworkManager.removeNode "zz" Scenario.oneWay = Scenario.oneWay ∧
  Store.hasEdge (network (NetworkManager.removeNode "b" Scenario.oneWay)) 0 1 = false.
Proof.
  split.
  - apply (removeNode_edge_complete Scenario.oneWay "zz"). vm_compute. reflexivity.
  - destruct (removeNode_edge_complete Scenario.oneWay "b") as [_ H].
    destruct (H 1) as (_ & _ & _ & Hno & _); [vm_compute; reflexivity |].
    apply (Hno 0).
Defined.

Lemma errors_precede_mutation_witness :
  NetworkManager.createNode "a" 9 [] Scenario.oneWay
    = (Scenario.oneWay, inl "Duplicate node id: a") ∧
  NetworkManager.updateNodeData "zz" 9 Scenario.oneWay
    = (Scenario.oneWay, inl "No such node: zz") ∧
  bfs Scenario.oneWay (ById "zz") noOptions tt
    = Some (inl "Start node not found: zz", tt).
Proof.
  destruct (errors_precede_mutation Scenario.oneWay) as (_ & Hdup & Hupd & Hbfs).
  split; [| split].
  - apply (Hdup "a" 9 []); [done | vm_compute; eauto].
  - apply (Hupd "zz" 9). vm_compute. reflexivity.
  - apply (Hbfs "zz" unit noOptions tt). vm_compute. reflexivity.
Defined.

(** ** Recalculation *)

(** C2: in the network [oneWay] the only edge is [a -> b], and [b] has no
    successor.  After [updateNodeData("b", 1)] the handshake from [a] to
    [b] fails against the new data, yet the edge [a -> b] is still in the
    store: only the pairs with the successors of [b] were dropped. *)
Theorem updateNodeData_keeps_stale_incoming_edge :
  let w := Scenario.updateNodeData' "b" 1 Scenario.oneWay in
  NetworkManager.findNode "a" Scenario.oneWay = Some 0 ∧
  NetworkManager.findNode "b" Scenario.oneWay = Some 1 ∧
  Store.adjacent 1 (network Scenario.oneWay) = Some [] ∧
  Store.hasEdge (network Scenario.oneWay) 0 1 = true ∧
  (NetworkManager.updateNodeData "b" 1 Scenario.oneWay).2 = inr () ∧
  data <$> heap w !! 1 = Some 1 ∧
  justified w 0 1 = false ∧
  Store.hasEdge (network w) 0 1 = true.
Proof. vm_compute. repeat split. Qed.

(** C6: in the network [turning] the only edge is [x -> n].  One
    [updateNodeData("n", 1)] leaves the edges [x -> n] and [n -> x]; a
    second one with the same data leaves [n -> x] alone. *)
Theorem updateNodeData_twice_differs :
  let once := Scenario.updateNodeData' "n" 1 Scenario.turning in
  let twice := Scenario.updateNodeData' "n" 1 once in
  NetworkManager.findNode "x" Scenario.turning = Some 0 ∧
  NetworkManager.findNode "n" Scenario.turning = Some 1 ∧
  Store.hasEdge (network once) 0 1 = true ∧
  Store.hasEdge (network twice) 0 1 = false ∧
  Store.hasEdge (network once) 1 0 = true ∧
  Store.hasEdge (network twice) 1 0 = true ∧
  justified once 0 1 = false.
Proof. vm_compute. repeat split. Qed.

(** ** Insertion *)

Section CreateFacts.
Context {T : Type}.
Implicit Types (w : World T) (i j : string) (h : list (Node T)) (x y n : nat).

Import NetworkManager.

Lemma findNodeIn_Some h i ns x :
  findNodeIn h i ns = Some x → x ∈ ns ∧ ∃ o, h !! x = Some o ∧ id o = i.
Proof.
  induction ns as [| m rest IH]; simpl; [done |].
  destruct (h !! m) as [o |] eqn:Hm.
  - destruct (decide (id o = i)) as [Hi | Hi].
    + intros [= <-]. split; [by left | eauto].
    + intros H. destruct (IH H) as [Hin Ho]. split; [by right | done].
  - intros H. destruct (IH H) as [Hin Ho]. split; [by right | done].
Qed.

Lemma findNodeIn_app h i ns ms :
  findNodeIn h i (ns ++ ms)
  = match findNodeIn h i ns with
    | Some x => Some x
    | None => findNodeIn h i ms
    end.
Proof.
  induction ns as [| m rest IH]; simpl; [done |].
  destruct (h !! m) as [o |]; [destruct (decide (id o = i)) |]; done.
Qed.

Lemma findNodeIn_grow h h' i ns :
  (∀ x, x ∈ ns → x < length h) →
  findNodeIn (h ++ h') i ns = findNodeIn h i ns.
Proof.
  induction ns as [| m rest IH]; simpl; [done |]. intros Hlt.
  rewrite lookup_app_l by (apply Hlt; by left).
  rewrite IH by (intros x Hx; apply Hlt; by right). done.
Qed.

Lemma justified_heap w w' x y :
  heap w' = heap w → justified w' x y = justified w x y.
Proof. unfold justified. by intros ->. Qed.

Lemma handshakeStep_heap n w o : heap (handshakeStep n w o) = heap w.
Proof.
  unfold handshakeStep. destruct (decide (o = n)); [done |].
  destruct (heap w !! n), (heap w !! o); done.
Qed.

Lemma handshakeStep_nodes n w o :
  n ∈ nodes (network w) → o ∈ nodes (network w) →
  nodes (network (handshakeStep n w o)) = nodes (network w).
Proof.
  intros Hn Ho. unfold handshakeStep. destruct (decide (o = n)); [done |].
  destruct (heap w !! n) as [a |], (heap w !! o) as [b |]; try done.
  cbn [network].
  assert (Hadd : ∀ u v g, nodes g = nodes (network w) → u ∈ nodes g → v ∈ nodes g →
            nodes (Store.addEdge u v g) = nodes (network w)).
  { intros u v g Hg Hu Hv. rewrite nodes_addEdge.
    rewrite (add_present u) by done. rewrite (add_present v) by done. done. }
  destruct (tryHandshake a b), (tryHandshake b a); [| | | done].
  - assert (H1 := Hadd n o (network w) eq_refl Hn Ho).
    apply Hadd; [done | by rewrite H1 ..].
  - by apply Hadd.
  - by apply Hadd.
Qed.

Lemma handshakeStep_hasEdge n w o x y :
  Store.hasEdge (network (handshakeStep n w o)) x y = true ↔
  Store.hasEdge (network w) x y = true ∨
  (o ≠ n ∧ x = n ∧ y = o ∧ justified w n o = true) ∨
  (o ≠ n ∧ x = o ∧ y = n ∧ justified w o n = true).
Proof.
  unfold handshakeStep, justified. destruct (decide (o = n)) as [-> | Hne].
  { split; [by left | intros [H | [H | H]]; [done | |]; by destruct H]. }
  destruct (heap w !! n) as [a |], (heap w !! o) as [b |]; simpl;
    try (split; [by left | intros [H | [H | H]]; [done | |];
                            by destruct H as (_ & _ & _ & ?)]).
  destruct (tryHandshake a b), (tryHandshake b a);
    rewrite ?hasEdge_addEdge, ?orb_true_iff, ?bool_decide_eq_true;
    intuition congruence.
Qed.

Lemma sweep_fold n (l : list nat) : ∀ w,
  n ∈ nodes (network w) → (∀ o, o ∈ l → o ∈ nodes (network w)) →
  heap (foldl (handshakeStep n) w l) = heap w ∧
  nodes (network (foldl (handshakeStep n) w l)) = nodes (network w) ∧
  ∀ x y, Store.hasEdge (network (foldl (handshakeStep n) w l)) x y = true ↔
    Store.hasEdge (network w) x y = true ∨
    (x = n ∧ y ∈ l ∧ y ≠ n ∧ justified w n y = true) ∨
    (y = n ∧ x ∈ l ∧ x ≠ n ∧ justified w x n = true).
Proof.
  induction l as [| o rest IH]; intros w Hn Hl; simpl.
  - split; [done |]. split; [done |]. intros x y. split; [by left |].
    intros [H | [H | H]]; [done | |].
    + destruct H as (_ & H & _). by apply elem_of_nil in H.
    + destruct H as (_ & H & _). by apply elem_of_nil in H.
  - assert (Ho : o ∈ nodes (network w)) by (apply Hl; by left).
    pose proof (handshakeStep_heap n w o) as Hh.
    pose proof (handshakeStep_nodes n w o Hn Ho) as Hns.
    destruct (IH (handshakeStep n w o)) as (IHh & IHn & IHe).
    { by rewrite Hns. }
    { intros o' Ho'. rewrite Hns. apply Hl. by right. }
    split; [by rewrite IHh |]. split; [by rewrite IHn |].
    intros x y. rewrite IHe, handshakeStep_hasEdge.
    rewrite !(justified_heap w (handshakeStep n w o)) by done.
    rewrite !elem_of_cons. split.
    + intros [[H | [H | H]] | [H | H]]; [by left | right; left | right; right | |].
      * destruct H as (? & -> & -> & ?). tauto.
      * destruct H as (? & -> & -> & ?). tauto.
      * right; left. tauto.
      * right; right. tauto.
    + intros [H | [H | H]]; [by left; left | |].
      * destruct H as (-> & [-> | Hy] & Hne & Hj).
        -- left; right; left. done.
        -- right; left. done.
      * destruct H as (-> & [-> | Hx] & Hne & Hj).
        -- left; right; right. done.
        -- right; right. done.
Qed.

End CreateFacts.

Section CreateAllFacts.
Context {T : Type}.
Implicit Types (w : World T) (i j : string) (l : list (Node T)) (x y n : nat).

Import NetworkManager.

Lemma createNode_fresh w i (d : T) rs :
  allocated w → i ≠ "" → findNode i w = None →
  createNode i d rs w = ((createNode i d rs w).1, inr (length (heap w))) ∧
  heap (createNode i d rs w).1 = heap w ++ [mkNode i d rs] ∧
  nodes (network (createNode i d rs w).1)
    = nodes (network w) ++ [length (heap w)] ∧
  ∀ x y, Store.hasEdge (network (createNode i d rs w).1) x y = true ↔
    Store.hasEdge (network w) x y = true ∨
    (x = length (heap w) ∧ y ∈ nodes (network w) ∧
     justified (createNode i d rs w).1 (length (heap w)) y = true) ∨
    (y = length (heap w) ∧ x ∈ nodes (network w) ∧
     justified (createNode i d rs w).1 x (length (heap w)) = true).
Proof.
  intros [Hnodes Hedges] Hi Hnone. unfold createNode.
  destruct (decide (i = "")) as [| _]; [done |]. rewrite Hnone. cbn [fst].
  set (n := length (heap w)) in *.
  set (w1 := mkWorld (heap w ++ [mkNode i d rs]) (Store.addNode n (network w))).
  assert (Hfresh : n ∉ nodes (network w)).
  { intros Hn. apply Hnodes in Hn. subst n. lia. }
  assert (Hn1 : nodes (network w1) = nodes (network w) ++ [n]).
  { cbn. unfold NodeSet.add. apply has_false in Hfresh. by rewrite Hfresh. }
  destruct (sweep_fold n (nodes (network w1)) w1) as (Hh & Hns & He).
  { rewrite Hn1, elem_of_app, list_elem_of_singleton. by right. }
  { done. }
  unfold handshakeSweep. split; [done |]. split; [by rewrite Hh |].
  split; [by rewrite Hns |].
  intros x y. rewrite He. cbn [network w1]. rewrite hasEdge_addNode.
  rewrite !(justified_heap w1 (foldl (handshakeStep n) w1 (nodes (network w1)))) by done.
  change (nodes (Store.addNode n (network w))) with (nodes (network w1)).
  rewrite Hn1. rewrite !elem_of_app, !list_elem_of_singleton.
  split.
  - intros [H | [H | H]]; [by left | right; left | right; right]; tauto.
  - intros [H | [H | H]]; [by left | right; left | right; right].
    + destruct H as (-> & Hy & Hj). repeat split; [by left | | done].
      intros ->. done.
    + destruct H as (-> & Hx & Hj). repeat split; [by left | | done].
      intros ->. done.
Qed.

Lemma createNode_findNode w i (d : T) rs j :
  allocated w → i ≠ "" → findNode i w = None →
  findNode j (createNode i d rs w).1
  = match findNode j w with
    | Some x => Some x
    | None => if decide (i = j) then Some (length (heap w)) else None
    end.
Proof.
  intros Hall Hi Hnone.
  destruct (createNode_fresh w i d rs Hall Hi Hnone) as (_ & Hh & Hn & _).
  unfold findNode. rewrite Hh, Hn, findNodeIn_app.
  rewrite findNodeIn_grow by apply Hall.
  destruct (findNodeIn (heap w) j (nodes (network w))); [done |].
  simpl. rewrite lookup_app_r by done. rewrite Nat.sub_diag. simpl.
  destruct (decide (i = j)); done.
Qed.

Lemma createNode_allocated w i (d : T) rs :
  allocated w → i ≠ "" → findNode i w = None →
  allocated (createNode i d rs w).1.
Proof.
  intros Hall Hi Hnone.
  destruct (createNode_fresh w i d rs Hall Hi Hnone) as (_ & Hh & Hn & He).
  destruct Hall as [Hnodes Hedges]. split.
  - intros x. rewrite Hn, Hh, length_app, elem_of_app, list_elem_of_singleton.
    simpl. intros [Hx | ->]; [apply Hnodes in Hx |]; lia.
  - intros x y. rewrite He, Hh, length_app. simpl.
    intros [H | [(-> & Hy & _) | (-> & Hx & _)]].
    + apply Hedges in H. lia.
    + apply Hnodes in Hy. lia.
    + apply Hnodes in Hx. lia.
Qed.

End CreateAllFacts.

Section GrowthFacts.
Context {T : Type}.
Implicit Types (w : World T) (i j : string) (l : list (Node T)) (x y n : nat).

Import NetworkManager.

Lemma justified_grow w w' h' x y :
  heap w' = heap w ++ h' → x < length (heap w) → y < length (heap w) →
  justified w' x y = justified w x y.
Proof.
  intros Hh Hx Hy. unfold justified. by rewrite Hh, !lookup_app_l by done.
Qed.

Lemma grownFrom_refl w : allocated w → grownFrom w w.
Proof.
  intros Hall. split; [done |]. split; [done |]. split; [done |].
  split; [done |]. intros x y. case_bool_decide as Hlt; [done |].
  destruct Hall as [Hnodes Hedges]. split.
  - intros H. apply Hedges in H. lia.
  - intros (_ & Hx & Hy & _). apply Hnodes in Hx, Hy. lia.
Qed.

Lemma grownFrom_create w0 w i (d : T) rs :
  grownFrom w0 w → i ≠ "" → findNode i w = None →
  grownFrom w0 (createNode i d rs w).1.
Proof.
  intros (Hall & Hlen & Hheap & Hmem & Hedge) Hi Hnone.
  pose proof (createNode_allocated w i d rs Hall Hi Hnone) as Hall'.
  destruct (createNode_fresh w i d rs Hall Hi Hnone) as (_ & Hh & Hn & He).
  destruct Hall as [Hnodes Hedges].
  split; [done |]. split; [rewrite Hh, length_app; lia |].
  split; [intros x Hx; rewrite Hh, lookup_app_l by lia; by apply Hheap |].
  split.
  { intros x Hx. rewrite Hn, elem_of_app, list_elem_of_singleton, <- Hmem by done.
    split; [intros [? | ->]; [done | lia] | by left]. }
  intros x y. rewrite He. specialize (Hedge x y).
  case_bool_decide as Hlt.
  - rewrite <- Hedge. split; [| by left].
    intros [H | [(-> & _) | (-> & _)]]; [done | lia | lia].
  - rewrite Hn, !elem_of_app, !list_elem_of_singleton. split.
    + intros [H | [(-> & Hy & Hj) | (-> & Hx & Hj)]].
      * apply Hedge in H as (Hne & Hx & Hy & Hj).
        repeat split; [done | by left | by left |].
        rewrite (justified_grow w _ _ x y Hh); [done | by apply Hnodes ..].
      * pose proof (Hnodes y Hy).
        repeat split; [lia | by right | by left | done].
      * pose proof (Hnodes x Hx).
        repeat split; [lia | by left | by right | done].
    + intros (Hne & [Hx | ->] & [Hy | ->] & Hj).
      * left. apply Hedge. repeat split; try done.
        rewrite <- (justified_grow w _ _ x y Hh); [done | by apply Hnodes ..].
      * right; right. done.
      * right; left. done.
      * done.
Qed.

Lemma createAll_snoc l (N : Node T) w :
  createAll (l ++ [N]) w = (createNode (id N) (data N) (rules N) (createAll l w)).1.
Proof. unfold createAll. by rewrite foldl_app. Qed.

(** Where an id leads after the nodes of [l] were added to [w0]. *)
Lemma createAll_inv l : ∀ w0,
  allocated w0 → NoDup (id <$> l) →
  (∀ A, A ∈ l → id A ≠ "" ∧ findNode (id A) w0 = None) →
  grownFrom w0 (createAll l w0) ∧
  ∀ i, match findNode i w0 with
       | Some x => findNode i (createAll l w0) = Some x
       | None =>
           ((i ∉ id <$> l) ∧ findNode i (createAll l w0) = None) ∨
           (∃ A x, A ∈ l ∧ id A = i ∧ findNode i (createAll l w0) = Some x ∧
                   length (heap w0) ≤ x ∧ heap (createAll l w0) !! x = Some A)
       end.
Proof.
  induction l as [| N l IH] using rev_ind; intros w0 Hall Hnd Hfresh.
  { split; [by apply grownFrom_refl |]. intros i. cbn.
    destruct (findNode i w0); [done |]. left. split; [| done].
    intros H. by apply elem_of_nil in H. }
  rewrite fmap_app in Hnd. apply NoDup_app in Hnd as (Hnd & Hdisj & _).
  destruct (IH w0 Hall Hnd) as [Hgrown Hfind].
  { intros A HA. apply Hfresh. apply elem_of_app. by left. }
  destruct (Hfresh N) as [HNid HNfresh].
  { apply elem_of_app. right. by apply list_elem_of_singleton. }
  assert (HNnone : findNode (id N) (createAll l w0) = None).
  { specialize (Hfind (id N)). rewrite HNfresh in Hfind.
    destruct Hfind as [[_ H] | (A & x & HA & Hid & _)]; [done |].
    exfalso. apply (Hdisj (id N)).
    - rewrite <- Hid. by apply list_elem_of_fmap_2.
    - simpl. by left. }
  rewrite createAll_snoc. split; [by apply grownFrom_create |].
  intros i. specialize (Hfind i).
  pose proof Hgrown as (Hall' & Hlen & _).
  rewrite createNode_findNode by done.
  destruct (createNode_fresh (createAll l w0) (id N) (data N) (rules N)
              Hall' HNid HNnone) as (_ & Hh & _).
  destruct (findNode i w0) as [x |].
  { by rewrite Hfind. }
  destruct Hfind as [[Hni Hnone] | (A & x & HA & Hid & Hx & Hge & Hlook)].
  - rewrite Hnone. destruct (decide (id N = i)) as [Heq | Hneq].
    + right. exists N, (length (heap (createAll l w0))).
      split; [apply elem_of_app; right; by apply list_elem_of_singleton |].
      split; [done |]. split; [done |]. split; [done |].
      rewrite Hh, lookup_app_r by done. rewrite Nat.sub_diag. by destruct N.
    + left. split; [| done]. rewrite fmap_app, elem_of_app.
      intros [H | H]; [done |]. simpl in H.
      apply list_elem_of_singleton in H. done.
  - right. exists A, x. rewrite Hx.
    split; [apply elem_of_app; by left |]. repeat split; try done.
    rewrite Hh, lookup_app_l; [done |]. by apply lookup_lt_Some in Hlook.
Qed.

End GrowthFacts.

Section OrderFacts.
Context {T : Type}.
Implicit Types (w : World T) (i j : string) (l : list (Node T)) (x y n : nat).

Import NetworkManager.

Lemma NoDup_id_inj l (A B : Node T) :
  NoDup (id <$> l) → A ∈ l → B ∈ l → id A = id B → A = B.
Proof.
  induction l as [| C l IH]; [intros _ H; by apply elem_of_nil in H |].
  rewrite fmap_cons. intros Hnd HA HB Hid.
  apply NoDup_cons in Hnd as [Hnotin Hnd].
  apply elem_of_cons in HA as [-> | HA], HB as [-> | HB]; [done | | | by apply IH].
  - exfalso. apply Hnotin. rewrite Hid. by apply list_elem_of_fmap_2.
  - exfalso. apply Hnotin. rewrite <- Hid. by apply list_elem_of_fmap_2.
Qed.

Lemma createAll_resolved w0 l i :
  allocated w0 → NoDup (id <$> l) →
  (∀ A, A ∈ l → id A ≠ "" ∧ findNode (id A) w0 = None) →
  Resolved w0 (createAll l w0) l i.
Proof.
  intros Hall Hnd Hfresh.
  destruct (createAll_inv l w0 Hall Hnd Hfresh) as [Hgrown Hfind].
  specialize (Hfind i). destruct Hgrown as (_ & _ & Hheap & Hmem & _).
  destruct (findNode i w0) as [x |] eqn:Hi0.
  - pose proof Hi0 as Hi0'. unfold findNode in Hi0'.
    apply findNodeIn_Some in Hi0' as (Hx & X & HX & HidX).
    assert (Hlt : x < length (heap w0)) by (by apply Hall).
    apply (ResolvedOld _ _ _ _ x X); try done.
    + by rewrite Hheap.
    + by apply Hmem.
    + intros A [HA | [HA HidA]].
      * unfold lookupNode in HA. rewrite Hi0 in HA. split; [congruence |].
        intros HAl. destruct (Hfresh A HAl) as [_ Hnone].
        assert (id A = i) as Heq by congruence. rewrite Heq in Hnone. congruence.
      * destruct (Hfresh A HA) as [_ Hnone]. rewrite HidA in Hnone. congruence.
  - destruct Hfind as [[Hni Hnone] | (A & x & HA & Hid & Hx & Hge & Hlook)].
    + apply ResolvedNone; try done.
      intros A [HA | [HA HidA]].
      * unfold lookupNode in HA. by rewrite Hi0 in HA.
      * apply Hni. rewrite <- HidA. by apply list_elem_of_fmap_2.
    + apply (ResolvedNew _ _ _ _ A x); try done.
      * unfold findNode in Hx. by apply findNodeIn_Some in Hx as [? _].
      * intros A' [HA' | [HA' HidA']].
        -- unfold lookupNode in HA'. by rewrite Hi0 in HA'.
        -- apply (NoDup_id_inj l); try done. congruence.
Qed.

(** The edges after the nodes of [l] were added to [w0], by id: the edges
    of [w0], and between two ids of which one is new, the handshake of the
    records the ids stand for. *)
Lemma edgeById_createAll w0 l i j :
  allocated w0 → NoDup (id <$> l) →
  (∀ A, A ∈ l → id A ≠ "" ∧ findNode (id A) w0 = None) →
  edgeById (createAll l w0) i j = true ↔
  edgeById w0 i j = true ∨
  (i ≠ j ∧ ∃ A B, resolves w0 l i A ∧ resolves w0 l j B ∧ (A ∈ l ∨ B ∈ l) ∧
                  tryHandshake A B = true).
Proof.
  intros Hall Hnd Hfresh.
  pose proof (createAll_resolved w0 l i Hall Hnd Hfresh) as Ri.
  pose proof (createAll_resolved w0 l j Hall Hnd Hfresh) as Rj.
  destruct (createAll_inv l w0 Hall Hnd Hfresh) as [(_ & _ & _ & _ & Hedge) _].
  unfold edgeById.
  destruct Ri as [x X Hi0 Hi Hx HX0 HX Hxn HrX | A x Hi0 HA HidA Hi Hx HXA Hxn HrA
                 | Hi0 Hi Hri].
  3: { rewrite Hi0, Hi. split; [done |].
       intros [H | (_ & A & B & HA & _)]; [done | by apply Hri in HA]. }
  all: destruct Rj as [y Y Hj0 Hj Hy HY0 HY Hyn HrY | B y Hj0 HB HidB Hj Hy HYB Hyn HrB
                      | Hj0 Hj Hrj].
  all: rewrite Hi0, Hi, ?Hj0, ?Hj.
  all: try (split; [done |];
            intros [H | (_ & A' & B' & _ & HB' & _)]; [done | by apply Hrj in HB']).
  - (* both ids are of w0 *)
    rewrite Hedge. rewrite bool_decide_eq_true_2 by done. split; [by left |].
    intros [H | (_ & A' & B' & HA' & HB' & [Hl | Hl] & _)]; [done | |].
    + by apply HrX in HA' as [_ ?].
    + by apply HrY in HB' as [_ ?].
  - (* from an id of w0 to an id of l *)
    rewrite Hedge. rewrite bool_decide_eq_false_2 by lia.
    unfold justified. rewrite HX, HYB. split.
    + intros (Hne & _ & _ & Hhs). right. split.
      * intros ->. rewrite Hi in Hj. congruence.
      * exists X, B. split; [left; unfold lookupNode; by rewrite Hi0 |].
        split; [by right |]. split; [by right | done].
    + intros [H | (Hne & A' & B' & HA' & HB' & _ & Hhs)]; [done |].
      apply HrX in HA' as [-> _]. apply HrB in HB' as ->.
      split; [lia | done].
  - (* from an id of l to an id of w0 *)
    rewrite Hedge. rewrite bool_decide_eq_false_2 by lia.
    unfold justified. rewrite HXA, HY. split.
    + intros (Hne & _ & _ & Hhs). right. split.
      * intros ->. rewrite Hi in Hj. congruence.
      * exists A, Y. split; [by right |].
        split; [left; unfold lookupNode; by rewrite Hj0 |]. split; [by left | done].
    + intros [H | (Hne & A' & B' & HA' & HB' & _ & Hhs)]; [done |].
      apply HrA in HA' as ->. apply HrY in HB' as [-> _].
      split; [lia | done].
  - (* both ids are of l *)
    rewrite Hedge. rewrite bool_decide_eq_false_2 by lia.
    unfold justified. rewrite HXA, HYB. split.
    + intros (Hne & _ & _ & Hhs). right. split.
      * intros ->. rewrite Hi in Hj. congruence.
      * exists A, B. split; [by right |]. split; [by right |]. split; [by left | done].
    + intros [H | (Hne & A' & B' & HA' & HB' & _ & Hhs)]; [done |].
      apply HrA in HA' as ->. apply HrB in HB' as ->.
      split; [| done]. intros ->. rewrite HXA in HYB. congruence.
Qed.

End OrderFacts.

Section InsertionOrder.
Context {T : Type}.
Implicit Types (w : World T) (i j : string) (l : list (Node T)).

Import NetworkManager.

(** C3: let the nodes of a list, with distinct, non-empty ids not yet in
    use, be created one after the other in a network whose data is not
    touched meanwhile.  Then every one of them is found under its id with
    the data and rules it was created with, and for any two of them, [A]
    and [B], the edge [A -> B] is in the store exactly when the handshake
    from [A] to [B] succeeds.  Creating the same nodes in any other order
    gives the same edges between the same ids, the earlier nodes of the
    network included. *)
Theorem insertion_order_irrelevant w0 l l' :
  allocated w0 → NoDup (id <$> l) →
  (∀ A, A ∈ l → id A ≠ "" ∧ findNode (id A) w0 = None) →
  l ≡ₚ l' →
  (∀ A, A ∈ l →
     lookupNode (id A) (createAll l w0) = Some A ∧
     lookupNode (id A) (createAll l' w0) = Some A) ∧
  (∀ A B, A ∈ l → B ∈ l → id A ≠ id B →
     edgeById (createAll l w0) (id A) (id B) = tryHandshake A B ∧
     edgeById (createAll l' w0) (id A) (id B) = tryHandshake A B) ∧
  (∀ i j, edgeById (createAll l w0) i j = edgeById (createAll l' w0) i j).
Proof.
  intros Hall Hnd Hfresh Hperm.
  assert (Hnd' : NoDup (id <$> l')) by (by rewrite <- Hperm).
  assert (Hfresh' : ∀ A, A ∈ l' → id A ≠ "" ∧ findNode (id A) w0 = None).
  { intros A HA. apply Hfresh. by rewrite Hperm. }
  assert (Hlook : ∀ l0, NoDup (id <$> l0) →
            (∀ A, A ∈ l0 → id A ≠ "" ∧ findNode (id A) w0 = None) →
            ∀ A, A ∈ l0 → lookupNode (id A) (createAll l0 w0) = Some A).
  { intros l0 Hnd0 Hfresh0 A HA.
    destruct (createAll_resolved w0 l0 (id A) Hall Hnd0 Hfresh0)
      as [x X Hi0 _ _ _ _ _ _ | A' x _ _ _ Hi _ HX _ Hr | _ _ Hr].
    - destruct (Hfresh0 A HA) as [_ Hnone]. congruence.
    - unfold lookupNode. rewrite Hi, HX. f_equal. symmetry. apply Hr. by right.
    - exfalso. apply (Hr A). by right. }
  assert (Hpair : ∀ l0, NoDup (id <$> l0) →
            (∀ A, A ∈ l0 → id A ≠ "" ∧ findNode (id A) w0 = None) →
            ∀ A B, A ∈ l0 → B ∈ l0 → id A ≠ id B →
            edgeById (createAll l0 w0) (id A) (id B) = tryHandshake A B).
  { intros l0 Hnd0 Hfresh0 A B HA HB Hne. apply eq_true_iff_eq.
    rewrite edgeById_createAll by done.
    assert (HrA : ∀ A', resolves w0 l0 (id A) A' → A' = A).
    { intros A' [H | [H Hid]].
      - unfold lookupNode in H. destruct (Hfresh0 A HA) as [_ Hnone].
        by rewrite Hnone in H.
      - by apply (NoDup_id_inj l0). }
    assert (HrB : ∀ B', resolves w0 l0 (id B) B' → B' = B).
    { intros B' [H | [H Hid]].
      - unfold lookupNode in H. destruct (Hfresh0 B HB) as [_ Hnone].
        by rewrite Hnone in H.
      - by apply (NoDup_id_inj l0). }
    split.
    - intros [H | (_ & A' & B' & HA' & HB' & _ & Hhs)].
      + unfold edgeById in H. destruct (Hfresh0 A HA) as [_ Hnone].
        by rewrite Hnone in H.
      + apply HrA in HA' as ->. by apply HrB in HB' as ->.
    - intros Hhs. right. split; [done |]. exists A, B.
      split; [by right |]. split; [by right |]. split; [by left | done]. }
  split; [| split].
  - intros A HA. split; [by apply Hlook |].
    apply Hlook; [done | done |]. by rewrite <- Hperm.
  - intros A B HA HB Hne. split; [by apply Hpair |].
    apply Hpair; try done; by rewrite <- Hperm.
  - intros i j. apply eq_true_iff_eq. rewrite !edgeById_createAll by done.
    unfold resolves. setoid_rewrite Hperm. done.
Qed.

End InsertionOrder.

Lemma allocated_newManager : allocated Scenario.newManager.
Proof.
  split.
  - intros x Hx. by apply elem_of_nil in Hx.
  - intros x y H. apply hasEdge_true in H as (s & Hs & _).
    cbn in Hs. by rewrite lookup_empty in Hs.
Qed.

Lemma insertion_order_irrelevant_witness :
  edgeById (createAll [mkNode "a" 5 [Scenario.toZero];
                       mkNode "b" 0 [Scenario.acceptAll]] Scenario.newManager)
           "a" "b"
  = NetworkManager.tryHandshake (mkNode "a" 5 [Scenario.toZero])
                                (mkNode "b" 0 [Scenario.acceptAll]) ∧
  edgeById (createAll [mkNode "b" 0 [Scenario.acceptAll];
                       mkNode "a" 5 [Scenario.toZero]] Scenario.newManager)
           "a" "b"
  = NetworkManager.tryHandshake (mkNode "a" 5 [Scenario.toZero])
                                (mkNode "b" 0 [Scenario.acceptAll]).
Proof.
  pose (A := mkNode "a" 5 [Scenario.toZero]).
  pose (B := mkNode "b" 0 [Scenario.acceptAll]).
  destruct (insertion_order_irrelevant Scenario.newManager [A; B] [B; A])
    as (_ & Hpair & _).
  - apply allocated_newManager.
  - apply (bool_decide_unpack _). vm_compute. exact I.
  - intros N HN.
    apply elem_of_cons in HN as [-> | HN];
      [| apply list_elem_of_singleton in HN as ->]; split; done.
  - constructor.
  - apply (Hpair A B); [by left | by right; left | done].
Defined.

(** ** Traversal: one iteration, and termination *)

Section TraversalFacts.
Context {S : Type}.
Implicit Types (g : Network) (opts : BFSOptions S) (st : LoopState S)
  (n m d x : nat) (s : S).

(** What an iteration that goes on has done. *)
Lemma bfsIter_Continue g opts st st' :
  bfsIter g opts st = Continue st' →
  ∃ n d rest s1 r,
    queue st = (n, d) :: rest ∧
    callVisit opts (callbacks st) n d = (s1, r) ∧ r ≠ Some false ∧
    order st' = order st ++ [n] ∧
    ((depthReached opts d = true ∧ callbacks st' = s1 ∧
      visited st' = visited st ∧ queue st' = rest) ∨
     (depthReached opts d = false ∧
      ∃ ex, callExpand opts s1 n d = (callbacks st', ex) ∧
        (((ex = false ∨ Store.adjacent n g = None) ∧
          visited st' = visited st ∧ queue st' = rest) ∨
         (ex = true ∧ ∃ adj, Store.adjacent n g = Some adj ∧
            (visited st', queue st') = foldl (enqueue d) (visited st, rest) adj)))).
Proof.
  unfold bfsIter. destruct (queue st) as [| [n d] rest]; [done |].
  destruct (callVisit opts (callbacks st) n d) as [s1 r] eqn:Hv.
  intros H. exists n, d, rest, s1, r. split; [done |]. split; [done |].
  destruct r as [[|] |]; [| done | ].
  all: split; [done |].
  all: destruct (depthReached opts d) eqn:Hd;
    [injection H as <-; split; [done |]; left; done |].
  all: destruct (callExpand opts s1 n d) as [s2 ex] eqn:He.
  all: destruct ex; simpl in H.
  all: try (injection H as <-; split; [done |]; right; split; [done |];
            exists false; split; [done |]; left; split; [by left | done]).
  all: destruct (Store.adjacent n g) as [adj |] eqn:Ha.
  all: injection H as <-; split; [done |]; right; split; [done |];
       exists true; split; [done |].
  all: try (left; split; [by right | done]).
  all: right; split; [done |]; exists adj; split; [done |];
       by destruct (foldl (enqueue d) (visited st, rest) adj).
Qed.

(** What an iteration that leaves the function has done. *)
Lemma bfsIter_Return g opts st out s :
  bfsIter g opts st = Return out s →
  (queue st = [] ∧ out = order st ∧ s = callbacks st) ∨
  (∃ n d rest, queue st = (n, d) :: rest ∧
     callVisit opts (callbacks st) n d = (s, Some false) ∧
     out = order st ++ [n]).
Proof.
  unfold bfsIter. destruct (queue st) as [| [n d] rest].
  { intros [= <- <-]. by left. }
  destruct (callVisit opts (callbacks st) n d) as [s1 r] eqn:Hv.
  intros H. right. exists n, d, rest. split; [done |].
  destruct r as [[|] |].
  2: { injection H as <- <-. done. }
  all: destruct (depthReached opts d); [done |].
  all: destruct (callExpand opts s1 n d) as [s2 ex]; destruct ex; simpl in H;
       [destruct (Store.adjacent n g) |]; done.
Qed.

(** An invariant of the iterations holds of what the loop returns. *)
Lemma bfsLoop_invariant g opts (I : LoopState S → Prop)
    (P : list nat → S → Prop) :
  (∀ st st', I st → bfsIter g opts st = Continue st' → I st') →
  (∀ st out s, I st → bfsIter g opts st = Return out s → P out s) →
  ∀ fuel st out s, I st → bfsLoop fuel g opts st = Some (out, s) → P out s.
Proof.
  intros Hstep Hret. induction fuel as [| fuel IH]; intros st out s HI; [done |].
  simpl. destruct (bfsIter g opts st) as [st' | out' s'] eqn:Hit.
  - apply IH. by apply (Hstep st).
  - intros [= <- <-]. by apply (Hret st).
Qed.

(** The enqueueing loop does not raise the length of the queue plus the
    number of successors in the store that are not marked visited. *)
Lemma enqueue_measure g d (adj : list nat) : ∀ vq : list nat * list (nat * nat),
  (∀ y, y ∈ adj → y ∈ successors g) →
  length (foldl (enqueue d) vq adj).2
  + length (filter (λ x, x ∉ (foldl (enqueue d) vq adj).1) (successors g))
  ≤ length vq.2 + length (filter (λ x, x ∉ vq.1) (successors g)).
Proof.
  induction adj as [| y adj IH]; intros vq Hadj; simpl; [done |].
  etrans; [apply IH; intros; apply Hadj; by right |].
  unfold enqueue.
  destruct (NodeSet.has y vq.1) eqn:Hy; simpl; [done |].
  apply has_false in Hy. rewrite length_app. simpl.
  assert (Hin : y ∈ successors g) by (apply Hadj; by left).
  assert (Hlt : length (filter (λ x, x ∉ NodeSet.add y vq.1) (successors g))
                < length (filter (λ x, x ∉ vq.1) (successors g))).
  { rewrite <- (list_filter_filter_l (λ x, x ∉ NodeSet.add y vq.1) (λ x, x ∉ vq.1)).
    - apply (length_filter_lt _ _ y).
      + by apply list_elem_of_filter.
      + intros Hno. apply Hno. apply elem_of_add. by left.
    - intros x Hx Hv. apply Hx. apply elem_of_add. by right. }
  lia.
Qed.

Lemma adjacent_successors g n adj y :
  Store.adjacent n g = Some adj → y ∈ adj → y ∈ successors g.
Proof.
  unfold Store.adjacent, successors. intros Hn Hy.
  apply list_elem_of_In, in_concat. exists adj. split; [| by apply list_elem_of_In].
  apply in_map_iff. exists (n, adj). split; [done |].
  apply list_elem_of_In. by apply elem_of_map_to_list.
Qed.

Lemma bfsIter_measure g opts st st' :
  bfsIter g opts st = Continue st' →
  length (queue st') + length (filter (λ x, x ∉ visited st') (successors g))
  < length (queue st) + length (filter (λ x, x ∉ visited st) (successors g)).
Proof.
  intros H. apply bfsIter_Continue in H
    as (n & d & rest & s1 & r & Hq & _ & _ & _ & Hcase).
  rewrite Hq. simpl.
  destruct Hcase as [(_ & _ & -> & ->) | (_ & ex & _ & [(_ & -> & ->) | H])];
    [lia | lia |].
  destruct H as (_ & adj & Hadj & Hfold).
  pose proof (enqueue_measure g d adj (visited st, rest)) as Hm.
  rewrite <- Hfold in Hm. simpl in Hm.
  apply Nat.lt_succ_r, Hm. intros y. by apply (adjacent_successors g n).
Qed.

Lemma bfsLoop_enough g opts : ∀ fuel st,
  length (queue st) + length (filter (λ x, x ∉ visited st) (successors g)) < fuel →
  is_Some (bfsLoop fuel g opts st).
Proof.
  induction fuel as [| fuel IH]; intros st Hlt; [lia |].
  simpl. destruct (bfsIter g opts st) as [st' | out s] eqn:Hit; [| eauto].
  apply IH. apply bfsIter_measure in Hit. lia.
Qed.

Lemma bfsLoop_from_start g opts n s :
  is_Some (bfsLoop (bfsFuel g) g opts (mkLoop [n] [] [(n, 0)] s)).
Proof.
  apply bfsLoop_enough. simpl. unfold bfsFuel.
  pose proof (length_filter (λ x, x ∉ [n]) (successors g)). lia.
Qed.

End TraversalFacts.

(** The loop of [bfs] always comes to an end within its bound. *)
Lemma bfs_terminates {T S : Type} (w : World T) (start : Start)
    (opts : BFSOptions S) (s : S) :
  is_Some (bfs w start opts s).
Proof.
  unfold bfs. destruct (startNode w start) as [n |]; [| eauto].
  destruct (bfsLoop_from_start (network w) opts n s) as [[out s'] ->]. eauto.
Qed.

(** C10: started from a node object, [bfs] returns an order and throws
    nothing, whether or not the object is in the node set of the store;
    when the store has no adjacency entry for the object, the order is the
    start node alone. *)
Theorem bfs_from_node_object {T S : Type} (w : World T) (n : nat)
    (opts : BFSOptions S) (s : S) :
  (∃ out s', bfs w (ByNode n) opts s = Some (inr out, s')) ∧
  (Store.adjacent n (network w) = None →
   ∃ s', bfs w (ByNode n) opts s = Some (inr [n], s')).
Proof.
  split.
  - destruct (bfs_terminates w (ByNode n) opts s) as [[res s'] Hres].
    unfold bfs in *. cbn [startNode] in *.
    destruct (bfsLoop (bfsFuel (network w)) (network w) opts
                (mkLoop [n] [] [(n, 0)] s)) as [[out s''] |]; [| done].
    eauto.
  - intros Hadj. unfold bfs, bfsFuel. cbn [startNode].
    change (2 + length (successors (network w)))
      with (Datatypes.S (Datatypes.S (length (successors (network w))))).
    cbn [bfsLoop].
    destruct (bfsIter (network w) opts (mkLoop [n] [] [(n, 0)] s))
      as [st1 | out s1] eqn:Hfirst.
    + apply bfsIter_Continue in Hfirst
        as (n' & d & rest & s1 & r & [= <- <- <-] & _ & _ & Hord & Hcase).
      assert (Hq : queue st1 = []).
      { destruct Hcase as [(_ & _ & _ & Hq) | (_ & ex & _ & [(_ & _ & Hq) | H])];
          [done | done |].
        destruct H as (_ & adj & Hadj' & _). congruence. }
      unfold bfsIter. rewrite Hq, Hord. eauto.
    + apply bfsIter_Return in Hfirst
        as [(Hq & _) | (n' & d & rest & [= <- <- <-] & _ & ->)]; [done |].
      eauto.
Qed.

Lemma bfs_from_node_object_witness :
  Store.adjacent 1 (network (NetworkManager.removeNode "b" Scenario.oneWay)) = None ∧
  ∃ s', bfs (NetworkManager.removeNode "b" Scenario.oneWay) (ByNode 1)
            (Scenario.withMaxDepth 3) () = Some (inr [1], s').
Proof.
  split; [vm_compute; reflexivity |].
  apply (bfs_from_node_object (NetworkManager.removeNode "b" Scenario.oneWay) 1
           (Scenario.withMaxDepth 3) ()).
  vm_compute. reflexivity.
Defined.

(** ** Observed traversals *)

Section ObservedFacts.
Context {S : Type}.
Implicit Types (g : Network) (opts : BFSOptions S) (n m d x : nat) (s : S)
  (log : list Call).

Lemma callVisit_observed opts (sl : S * list Call) n d :
  callVisit (observed opts) sl n d
  = (((callVisit opts sl.1 n d).1,
      sl.2 ++ [CallVisit n d (callVisit opts sl.1 n d).2]),
     (callVisit opts sl.1 n d).2).
Proof.
  unfold callVisit at 1. simpl. by destruct (callVisit opts sl.1 n d).
Qed.

Lemma callExpand_observed opts (sl : S * list Call) n d :
  callExpand (observed opts) sl n d
  = (((callExpand opts sl.1 n d).1,
      sl.2 ++ [CallExpand n d (callExpand opts sl.1 n d).2]),
     (callExpand opts sl.1 n d).2).
Proof.
  unfold callExpand at 1. simpl. by destruct (callExpand opts sl.1 n d).
Qed.

Lemma depthReached_observed opts d :
  depthReached (observed opts) d = depthReached opts d.
Proof. done. Qed.

(** An observed iteration that goes on: what it has written and done. *)
Lemma observed_Continue g opts (st st' : LoopState (S * list Call)) :
  bfsIter g (observed opts) st = Continue st' →
  ∃ n d rest r evs,
    queue st = (n, d) :: rest ∧ r ≠ Some false ∧
    order st' = order st ++ [n] ∧
    logOf st' = (logOf st ++ [CallVisit n d r]) ++ evs ∧
    ((((evs = [] ∧ depthReached opts d = true) ∨
       (∃ ex, evs = [CallExpand n d ex] ∧ depthReached opts d = false ∧
              (ex = false ∨ Store.adjacent n g = None))) ∧
      visited st' = visited st ∧ queue st' = rest) ∨
     (evs = [CallExpand n d true] ∧ depthReached opts d = false ∧
      ∃ adj, Store.adjacent n g = Some adj ∧
        (visited st', queue st') = foldl (enqueue d) (visited st, rest) adj)).
Proof.
  intros H. apply bfsIter_Continue in H
    as (n & d & rest & s1 & r & Hq & Hv & Hr & Hord & Hcase).
  rewrite callVisit_observed in Hv. injection Hv as <- <-.
  exists n, d, rest, (callVisit opts (callbacks st).1 n d).2.
  rewrite depthReached_observed in Hcase. unfold logOf.
  destruct Hcase as [(Hd & Hcb & Hvis & Hq') | (Hd & ex & He & Hcase)].
  - exists []. rewrite Hcb, app_nil_r. simpl. repeat split; try done.
    left. split; [| done]. by left.
  - rewrite callExpand_observed in He. injection He as Hcb <-.
    exists [CallExpand n d (callExpand opts (callVisit opts (callbacks st).1 n d).1 n d).2].
    rewrite <- Hcb. simpl. repeat split; try done.
    destruct Hcase as [(Hex & Hvis & Hq') | (Hex & adj & Hadj & Hfold)].
    + left. split; [| done]. right. eauto.
    + right. rewrite Hex. split; [done |]. split; [done |]. eauto.
Qed.

(** An observed iteration that leaves the function. *)
Lemma observed_Return g opts (st : LoopState (S * list Call)) out sl :
  bfsIter g (observed opts) st = Return out sl →
  (queue st = [] ∧ out = order st ∧ sl.2 = logOf st) ∨
  (∃ n d rest, queue st = (n, d) :: rest ∧ out = order st ++ [n] ∧
     sl.2 = logOf st ++ [CallVisit n d (Some false)]).
Proof.
  intros H. apply bfsIter_Return in H
    as [(Hq & -> & ->) | (n & d & rest & Hq & Hv & ->)]; [by left |].
  right. exists n, d, rest. rewrite callVisit_observed in Hv.
  injection Hv as <- Hr. simpl. by rewrite Hr.
Qed.

(** Observing changes neither the order nor what the callbacks do. *)
Lemma bfsIter_observed g opts (st : LoopState S) log :
  match bfsIter g opts st with
  | Continue st' =>
      ∃ log', bfsIter g (observed opts)
                (mkLoop (visited st) (order st) (queue st) (callbacks st, log))
              = Continue (mkLoop (visited st') (order st') (queue st')
                                 (callbacks st', log'))
  | Return out s =>
      ∃ log', bfsIter g (observed opts)
                (mkLoop (visited st) (order st) (queue st) (callbacks st, log))
              = Return out (s, log')
  end.
Proof.
  unfold bfsIter. cbn [queue order visited callbacks].
  destruct (queue st) as [| [n d] rest]; [eauto |].
  rewrite callVisit_observed, depthReached_observed. cbn [fst snd].
  destruct (callVisit opts (callbacks st) n d) as [s1 r]. cbn [fst snd].
  destruct r as [[|] |]; [| eauto |].
  all: destruct (depthReached opts d); [eauto |].
  all: rewrite callExpand_observed; cbn [fst snd].
  all: destruct (callExpand opts s1 n d) as [s2 ex]; cbn [fst snd].
  all: destruct ex; simpl; [| eauto].
  all: destruct (Store.adjacent n g); eauto.
Qed.

Lemma bfsLoop_observed g opts : ∀ fuel (st : LoopState S) log,
  match bfsLoop fuel g opts st with
  | Some (out, s) =>
      ∃ log', bfsLoop fuel g (observed opts)
                (mkLoop (visited st) (order st) (queue st) (callbacks st, log))
              = Some (out, (s, log'))
  | None =>
      bfsLoop fuel g (observed opts)
        (mkLoop (visited st) (order st) (queue st) (callbacks st, log)) = None
  end.
Proof.
  induction fuel as [| fuel IH]; intros st log; [done |]. simpl.
  pose proof (bfsIter_observed g opts st log) as Hit.
  destruct (bfsIter g opts st) as [st' | out s]; destruct Hit as [log' ->].
  - apply IH.
  - eauto.
Qed.

End ObservedFacts.

Section LogFacts.
Context {S : Type}.
Implicit Types (g : Network) (opts : BFSOptions S) (n m d x k : nat)
  (log : list Call).

Lemma visitedNodes_app log log' :
  visitedNodes (log ++ log') = visitedNodes log ++ visitedNodes log'.
Proof.
  induction log as [| [n d r | n d b] log IH]; simpl; [done | |]; by rewrite IH.
Qed.

Lemma visit_in_visitedNodes log k m d r :
  log !! k = Some (CallVisit m d r) → m ∈ visitedNodes log.
Proof.
  revert k. induction log as [| e log IH]; intros k; [done |].
  destruct k as [| k]; simpl.
  - intros [= ->]. by left.
  - intros H. apply IH in H. destruct e; [by right | done].
Qed.

(** The enqueueing loop: which entries it appends and which nodes it marks. *)
Lemma enqueue_fold d (adj : list nat) : ∀ vq : list nat * list (nat * nat),
  ∃ new,
    (foldl (enqueue d) vq adj).2 = vq.2 ++ new ∧
    NoDup new.*1 ∧
    (∀ m, m ∈ new.*1 → m ∉ vq.1) ∧
    (∀ m d', (m, d') ∈ new → d' = Datatypes.S d ∧ m ∈ adj) ∧
    (∀ m, m ∈ (foldl (enqueue d) vq adj).1 ↔ m ∈ vq.1 ∨ m ∈ new.*1) ∧
    (∀ m, m ∈ adj → m ∈ (foldl (enqueue d) vq adj).1).
Proof.
  induction adj as [| y adj IH]; intros vq; simpl.
  { exists []. rewrite app_nil_r. split; [done |]. split; [apply NoDup_nil_2 |].
    split; [intros m H; by apply elem_of_nil in H |].
    split; [intros m d' H; by apply elem_of_nil in H |].
    split; [| intros m H; by apply elem_of_nil in H].
    intros m. split; [by left | intros [H | H]; [done | by apply elem_of_nil in H]]. }
  destruct (IH (enqueue d vq y)) as (new & Hq & Hnd & Hfresh & Hnew & Hv & Hadj).
  unfold enqueue in Hq, Hfresh, Hv, Hadj |- *.
  destruct (NodeSet.has y vq.1) eqn:Hy.
  - apply has_true in Hy. exists new. split; [done |]. split; [done |].
    split; [done |].
    split; [intros m d' H; apply Hnew in H as [? ?]; split; [done | by right] |].
    split; [done |].
    intros m [-> | Hm]%elem_of_cons; [apply Hv; by left | by apply Hadj].
  - apply has_false in Hy. simpl in *. exists ((y, Datatypes.S d) :: new).
    split; [by rewrite Hq, <- app_assoc |].
    assert (Hynew : y ∉ new.*1).
    { intros H. apply Hfresh in H. apply H, elem_of_add. by left. }
    split; [rewrite fmap_cons; by apply NoDup_cons |].
    split.
    { intros m. rewrite fmap_cons. intros [-> | Hm]%elem_of_cons; [done |].
      intros Hmv. apply (Hfresh m Hm), elem_of_add. by right. }
    split.
    { intros m d' [[= -> ->] | Hm]%elem_of_cons.
      - split; [done | by left].
      - apply Hnew in Hm as [? ?]. split; [done | by right]. }
    split.
    { intros m. rewrite Hv, elem_of_add, fmap_cons, elem_of_cons. simpl. tauto. }
    intros m [-> | Hm]%elem_of_cons; [| by apply Hadj].
    apply Hv. left. apply elem_of_add. by left.
Qed.

(** A log that ends in one more call. *)
Lemma lookup_snoc_cases log (e e' : Call) k :
  (log ++ [e]) !! k = Some e' →
  (k < length log ∧ log !! k = Some e') ∨ (k = length log ∧ e' = e).
Proof.
  intros H. apply lookup_snoc_Some in H as [[? ?] | [? ?]]; [by left | by right].
Qed.

Lemma lookup_snoc_old log (e e' : Call) k :
  log !! k = Some e' → (log ++ [e]) !! k = Some e'.
Proof. intros H. by apply lookup_app_l_Some. Qed.

(** A visit of a queued node, written after a well-shaped log. *)
Lemma LogShape_visit g opts start log n d r :
  LogShape g opts start log → n ∉ visitedNodes log →
  queuedFrom g start log n d →
  LogShape g opts start (log ++ [CallVisit n d r]).
Proof.
  intros [Hfirst Honce Horigin Hexpand] Hnew Hq. split.
  - right. destruct Hfirst as [-> | [r0 H0]].
    + destruct Hq as [(_ & -> & ->) | (j & p & dp & adj & Hj & _)]; [by eauto |].
      done.
    + exists r0. by apply lookup_snoc_old.
  - intros k k' m d1 d2 r1 r2 H1 H2.
    apply lookup_snoc_cases in H1 as [[Hk H1] | [Hk H1]],
                               H2 as [[Hk' H2] | [Hk' H2]].
    + by apply (Honce k k' m d1 d2 r1 r2).
    + injection H2 as -> -> ->. exfalso. apply Hnew.
      by apply (visit_in_visitedNodes log k n d1 r1).
    + injection H1 as -> -> ->. exfalso. apply Hnew.
      by apply (visit_in_visitedNodes log k' n d2 r2).
    + lia.
  - intros k m d1 r1 H1.
    apply lookup_snoc_cases in H1 as [[Hk H1] | [Hk H1]].
    + destruct (Horigin k m d1 r1 H1) as [? | (j & p & dp & adj & Hj & Hl & ?)];
        [by left |].
      right. exists j, p, dp, adj. split; [done |].
      split; [by apply lookup_snoc_old | done].
    + injection H1 as -> -> ->.
      destruct Hq as [(-> & -> & ->) | (j & p & dp & adj & Hj & ?)].
      * left. done.
      * right. exists j, p, dp, adj. split; [subst k; by apply lookup_lt_Some in Hj |].
        split; [by apply lookup_snoc_old | done].
  - intros k p d1 b H1.
    apply lookup_snoc_cases in H1 as [[Hk H1] | [Hk H1]]; [| done].
    destruct (Hexpand k p d1 b H1) as (Hd & j & r1 & -> & Hj & Hr).
    split; [done |]. exists j, r1. split; [done |].
    split; [by apply lookup_snoc_old | done].
Qed.

(** The question to [expand], written after the visit of the same node. *)
Lemma LogShape_expand g opts start log n d r ex :
  LogShape g opts start (log ++ [CallVisit n d r]) →
  r ≠ Some false → depthReached opts d = false →
  LogShape g opts start ((log ++ [CallVisit n d r]) ++ [CallExpand n d ex]).
Proof.
  intros [Hfirst Honce Horigin Hexpand] Hr Hd. split.
  - right. destruct Hfirst as [H | [r0 H0]].
    + by apply app_nil in H as [_ ?].
    + exists r0. by apply lookup_snoc_old.
  - intros k k' m d1 d2 r1 r2 H1 H2.
    apply lookup_snoc_cases in H1 as [[Hk H1] | [Hk H1]]; [| done].
    apply lookup_snoc_cases in H2 as [[Hk' H2] | [Hk' H2]]; [| done].
    by apply (Honce k k' m d1 d2 r1 r2).
  - intros k m d1 r1 H1.
    apply lookup_snoc_cases in H1 as [[Hk H1] | [Hk H1]]; [| done].
    destruct (Horigin k m d1 r1 H1) as [? | (j & p & dp & adj & Hj & Hl & ?)];
      [by left |].
    right. exists j, p, dp, adj. split; [done |].
    split; [by apply lookup_snoc_old | done].
  - intros k p d1 b H1.
    apply lookup_snoc_cases in H1 as [[Hk H1] | [Hk H1]].
    + destruct (Hexpand k p d1 b H1) as (Hd1 & j & r1 & -> & Hj & Hr1).
      split; [done |]. exists j, r1. split; [done |].
      split; [by apply lookup_snoc_old | done].
    + injection H1 as -> -> ->. split; [done |].
      exists (length log), r. split; [by rewrite Hk, length_app, Nat.add_1_r |].
      split; [| done]. apply lookup_snoc_old. apply list_lookup_middle. done.
Qed.

End LogFacts.

Section TracedFacts.
Context {S : Type}.
Implicit Types (g : Network) (opts : BFSOptions S) (n m d x k : nat)
  (log : list Call) (st : LoopState (S * list Call)).

Lemma Traced_init g opts start (s : S) :
  Traced g opts start (mkLoop [start] [] [(start, 0)] (s, [])).
Proof.
  split; simpl; try done.
  - apply NoDup_singleton.
  - intros m d [[= -> ->] | H]%elem_of_cons; [by left | by apply elem_of_nil in H].
  - split; try done. by left.
Qed.

Lemma Traced_step g opts start st st' :
  Traced g opts start st → bfsIter g (observed opts) st = Continue st' →
  Traced g opts start st'.
Proof.
  intros [Hvisits Hnd Hvisited Hbegin Hqueue Hshape Hnostop Hcomplete] Hit.
  apply observed_Continue in Hit
    as (n & d & rest & r & evs & Hq & Hr & Hord & Hlog & Hcase).
  rewrite Hq in *. rewrite fmap_cons in *. cbn [fst] in *.
  assert (Hfresh : n ∉ visitedNodes (logOf st)).
  { rewrite Hvisits. apply NoDup_app in Hnd as (_ & Hdisj & _).
    intros Hn. apply (Hdisj n Hn). by left. }
  assert (Hfrom : queuedFrom g start (logOf st) n d) by (apply Hqueue; by left).
  pose proof (LogShape_visit g opts start _ n d r Hshape Hfresh Hfrom) as Hshape1.
  assert (Hevs : evs = [] ∨
                 ∃ ex, evs = [CallExpand n d ex] ∧ depthReached opts d = false).
  { destruct Hcase as [[[[-> _] | (ex & -> & Hd & _)] _] | (-> & Hd & _)]; eauto. }
  assert (Hold : ∀ k e, logOf st !! k = Some e → logOf st' !! k = Some e).
  { intros k e He. rewrite Hlog. by do 2 apply lookup_app_l_Some. }
  assert (Hshape' : LogShape g opts start (logOf st')).
  { rewrite Hlog. destruct Hevs as [-> | (ex & -> & Hd)].
    - by rewrite app_nil_r.
    - by apply LogShape_expand. }
  assert (Hnostop' : ∀ k m d', logOf st' !! k ≠ Some (CallVisit m d' (Some false))).
  { intros k m d' H. rewrite Hlog in H.
    assert (H1 : (logOf st ++ [CallVisit n d r]) !! k
                 = Some (CallVisit m d' (Some false))).
    { destruct Hevs as [-> | (ex & -> & _)]; [by rewrite app_nil_r in H |].
      by apply lookup_snoc_cases in H as [[_ H] | [_ H]]. }
    apply lookup_snoc_cases in H1 as [[_ H1] | [_ H1]]; [by apply Hnostop in H1 |].
    congruence. }
  assert (Hvisits' : visitedNodes (logOf st') = order st').
  { rewrite Hlog, Hord, !visitedNodes_app, Hvisits. simpl.
    destruct Hevs as [-> | (ex & -> & _)]; simpl; by rewrite app_nil_r. }
  assert (Hrest : ∀ m d', (m, d') ∈ rest → queuedFrom g start (logOf st') m d').
  { intros m d' Hm.
    destruct (Hqueue m d') as [(Hnil & _) | (j & p & dp & adj & Hj & ?)];
      [by right | |].
    - apply Hbegin in Hnil. injection Hnil as _ _ ->. by apply elem_of_nil in Hm.
    - right. exists j, p, dp, adj. split; [by apply Hold | done]. }
  assert (Hbegin' : logOf st' = [] → queue st' = [(start, 0)]).
  { rewrite Hlog. intros H. apply app_nil in H as [H _].
    by apply app_nil in H as [_ ?]. }
  destruct Hcase as [[Hwhy [Hvis Hq']] | (-> & Hd & adj & Hadj & Hfold)].
  - (* nothing enqueued *)
    split; try done.
    + rewrite Hord, Hq', <- app_assoc. done.
    + intros m. rewrite Hvis, Hord, Hq', <- app_assoc. apply Hvisited.
    + by rewrite Hq'.
    + intros k p dp adj m Hk Hadj Hm. rewrite Hvis. rewrite Hlog in Hk.
      destruct Hwhy as [[-> _] | (ex & -> & _ & Hex)].
      * rewrite app_nil_r in Hk.
        apply lookup_snoc_cases in Hk as [[_ Hk] | [_ Hk]]; [| done].
        by apply (Hcomplete k p dp adj).
      * apply lookup_snoc_cases in Hk as [[_ Hk] | [_ Hk]].
        -- apply lookup_snoc_cases in Hk as [[_ Hk] | [_ Hk]]; [| done].
           by apply (Hcomplete k p dp adj).
        -- injection Hk as -> -> <-. destruct Hex; congruence.
  - (* the successors not seen before are enqueued *)
    destruct (enqueue_fold d adj (visited st, rest))
      as (new & Hq' & Hndnew & Hnewfresh & Hnew & Hv & Hall).
    rewrite <- Hfold in Hq', Hv, Hall. cbn [fst snd] in *.
    split; try done.
    + rewrite Hord, Hq'.
      replace ((order st ++ [n]) ++ (rest ++ new).*1)
        with ((order st ++ n :: rest.*1) ++ new.*1)
        by (by rewrite fmap_app, <- !app_assoc).
      apply NoDup_app. split; [done |].
      split; [| done]. intros m Hm Hm'. apply (Hnewfresh m Hm'). by apply Hvisited.
    + intros m. rewrite Hv, Hvisited, Hord, Hq', fmap_app.
      rewrite !elem_of_app, elem_of_cons, list_elem_of_singleton. tauto.
    + intros m d'. rewrite Hq', elem_of_app. intros [Hm | Hm]; [by apply Hrest |].
      apply Hnew in Hm as [-> Hm]. right. exists (Datatypes.S (length (logOf st))), n, d, adj.
      split; [| done]. rewrite Hlog. apply lookup_snoc_Some. right.
      by rewrite length_app, Nat.add_1_r.
    + intros k p dp adj' m Hk Hadj' Hm. apply Hv. rewrite Hlog in Hk.
      apply lookup_snoc_cases in Hk as [[_ Hk] | [_ Hk]].
      * apply lookup_snoc_cases in Hk as [[_ Hk] | [_ Hk]]; [| done].
        left. by apply (Hcomplete k p dp adj').
      * injection Hk as -> ->. apply Hv, Hall. congruence.
Qed.

Lemma Traced_return g opts start st out (sl : S * list Call) :
  Traced g opts start st → bfsIter g (observed opts) st = Return out sl →
  Observation g opts start out sl.2.
Proof.
  intros [Hvisits Hnd Hvisited Hbegin Hqueue Hshape Hnostop Hcomplete] Hit.
  apply observed_Return in Hit
    as [(Hq & -> & ->) | (n & d & rest & Hq & -> & ->)].
  - (* the queue is empty *)
    rewrite Hq in *. simpl in *. rewrite app_nil_r in *. split; try done.
    + intros Hnil. by apply Hbegin in Hnil.
    + intros k m d H. by apply Hnostop in H.
    + intros _ k p dp adj m Hk Hadj Hm. apply Hvisited.
      by apply (Hcomplete k p dp adj).
  - (* a visit answered false *)
    rewrite Hq in *. rewrite fmap_cons in *. cbn [fst] in *.
    assert (Hfresh : n ∉ visitedNodes (logOf st)).
    { rewrite Hvisits. apply NoDup_app in Hnd as (_ & Hdisj & _).
      intros Hn. apply (Hdisj n Hn). by left. }
    assert (Hfrom : queuedFrom g start (logOf st) n d) by (apply Hqueue; by left).
    split.
    + by rewrite visitedNodes_app, Hvisits.
    + apply NoDup_app in Hnd as (Hnd1 & Hdisj & _). apply NoDup_app.
      split; [done |]. split; [| apply NoDup_singleton].
      intros m Hm Hm'. apply list_elem_of_singleton in Hm' as ->.
      apply (Hdisj n Hm). by left.
    + intros H. by apply app_nil in H as [_ ?].
    + by apply LogShape_visit.
    + intros k m d' Hk.
      apply lookup_snoc_cases in Hk as [[_ Hk] | [-> Hk]]; [by apply Hnostop in Hk |].
      injection Hk as -> ->. split; [by rewrite length_app, Nat.add_1_r |].
      apply last_snoc.
    + intros Hno. exfalso. apply (Hno (length (logOf st)) n d).
      apply list_lookup_middle. done.
Qed.

End TracedFacts.

(** ** What a traversal does *)

Section Observing.
Context {T S : Type}.
Implicit Types (w : World T) (opts : BFSOptions S) (n m d x k : nat)
  (log : list Call).

Lemma visitedNodes_lookup log m :
  m ∈ visitedNodes log → ∃ k d r, log !! k = Some (CallVisit m d r).
Proof.
  induction log as [| [n d r | n d b] log IH]; simpl.
  - intros H. by apply elem_of_nil in H.
  - intros [-> | H]%elem_of_cons.
    + by exists 0, d, r.
    + destruct (IH H) as (k & d' & r' & Hk). by exists (Datatypes.S k), d', r'.
  - intros H. destruct (IH H) as (k & d' & r' & Hk).
    by exists (Datatypes.S k), d', r'.
Qed.

(** Every traversal from a start node that is found returns, and observing
    it returns the same order, the same caller state, and a log of the
    shape [Observation] describes. *)
Lemma bfs_observation w start n opts (s : S) :
  startNode w start = Some n →
  ∃ out s' log,
    bfs w start (observed opts) (s, []) = Some (inr out, (s', log)) ∧
    bfs w start opts s = Some (inr out, s') ∧
    Observation (network w) opts n out log.
Proof.
  intros Hstart. unfold bfs. rewrite Hstart.
  destruct (bfsLoop_from_start (network w) opts n s) as [[out s'] Hrun].
  pose proof (bfsLoop_observed (network w) opts (bfsFuel (network w))
                (mkLoop [n] [] [(n, 0)] s) []) as Hobs.
  rewrite Hrun in Hobs. destruct Hobs as [log Hobs].
  cbn [visited order queue callbacks] in Hobs.
  exists out, s', log. rewrite Hrun, Hobs. split; [done |]. split; [done |].
  apply (bfsLoop_invariant (network w) (observed opts)
           (Traced (network w) opts n)
           (λ out sl, Observation (network w) opts n out sl.2))
    with (fuel := bfsFuel (network w)) (st := mkLoop [n] [] [(n, 0)] (s, []))
         (s := (s', log)).
  - intros st st'. apply Traced_step.
  - intros st out' sl. apply Traced_return.
  - apply Traced_init.
  - done.
Qed.

(** A node whose visit answered [false] was never expanded. *)
Lemma stopped_not_expanded g opts n out log k m d :
  Observation g opts n out log →
  log !! k = Some (CallVisit m d (Some false)) →
  ∀ k' d' b, log !! k' ≠ Some (CallExpand m d' b).
Proof.
  intros Hobs Hk k' d' b Hk'.
  destruct (ls_expand _ _ _ _ (obs_shape _ _ _ _ _ Hobs) k' m d' b Hk')
    as (_ & j & r & -> & Hj & Hr).
  pose proof (ls_visit_once _ _ _ _ (obs_shape _ _ _ _ _ Hobs)
                k j m d d' (Some false) r Hk Hj) as ->.
  congruence.
Qed.

(** Every node of the order but the start node is a successor of a node of
    the order whose expansion was granted. *)
Lemma visited_has_origin g opts n out log x :
  Observation g opts n out log → x ∈ out →
  x = n ∨ ∃ j p dp adj, log !! j = Some (CallExpand p dp true) ∧ p ∈ out ∧
                        Store.adjacent p g = Some adj ∧ x ∈ adj.
Proof.
  intros Hobs Hx. rewrite <- (obs_visits _ _ _ _ _ Hobs) in Hx.
  apply visitedNodes_lookup in Hx as (k & d & r & Hk).
  destruct (ls_origin _ _ _ _ (obs_shape _ _ _ _ _ Hobs) k x d r Hk)
    as [(_ & -> & _) | (j & p & dp & adj & _ & Hj & _ & Hadj & Hin)]; [by left |].
  right. exists j, p, dp, adj. split; [done |]. split; [| done].
  destruct (ls_expand _ _ _ _ (obs_shape _ _ _ _ _ Hobs) j p dp true Hj)
    as (_ & j' & r' & _ & Hj' & _).
  rewrite <- (obs_visits _ _ _ _ _ Hobs).
  by apply (visit_in_visitedNodes log j' p dp r').
Qed.

End Observing.

Section TraversalClaims.
Context {T S : Type}.
Implicit Types (w : World T) (opts : BFSOptions S) (st : LoopState S)
  (n m d x k : nat) (log : list Call).

(** With [maxDepth] supplied: an iteration on a node at a depth of
    [maxDepth] or more appends the node to the order and enqueues nothing.  Every traversal
    from a start node that is found returns; [expand] is asked, and
    neighbours are enqueued, only for nodes at a depth below [maxDepth],
    so every visited node is at depth 0 or at a depth of at most
    [maxDepth]; and unless a visit stopped the traversal, every successor
    of an expanded node is in the order, whatever its depth. *)
Lemma maxDepth_in_general w opts M :
  maxDepth opts = Some M →
  (∀ st m d rest,
     queue st = (m, d) :: rest → (M ≤ Z.of_nat d)%Z →
     bfsIter (network w) opts st
     = match (callVisit opts (callbacks st) m d).2 with
       | Some false =>
           Return (order st ++ [m]) (callVisit opts (callbacks st) m d).1
       | _ =>
           Continue (mkLoop (visited st) (order st ++ [m]) rest
                            (callVisit opts (callbacks st) m d).1)
       end) ∧
  (∀ start n (s : S), startNode w start = Some n →
   ∃ out s' log,
     bfs w start (observed opts) (s, []) = Some (inr out, (s', log)) ∧
     bfs w start opts s = Some (inr out, s') ∧
     visitedNodes log = out ∧
     (∀ k p d b, log !! k = Some (CallExpand p d b) → (Z.of_nat d < M)%Z) ∧
     (∀ k m d r, log !! k = Some (CallVisit m d r) →
        d = 0 ∨ (Z.of_nat d ≤ M)%Z) ∧
     ((∀ k m d, log !! k ≠ Some (CallVisit m d (Some false))) →
      ∀ k p dp adj m, log !! k = Some (CallExpand p dp true) →
        Store.adjacent p (network w) = Some adj → m ∈ adj → m ∈ out)).
Proof.
  intros HM. split.
  { intros st m d rest Hq Hle. unfold bfsIter, depthReached. rewrite Hq, HM.
    destruct (callVisit opts (callbacks st) m d) as [s1 r]. simpl.
    apply Z.leb_le in Hle. rewrite Hle. by destruct r as [[|] |]. }
  intros start n s Hstart.
  destruct (bfs_observation w start n opts s Hstart)
    as (out & s' & log & Hrun & Hplain & Hobs).
  exists out, s', log. split; [done |]. split; [done |].
  pose proof (obs_shape _ _ _ _ _ Hobs) as Hshape.
  split; [apply (obs_visits _ _ _ _ _ Hobs) |].
  assert (Hbelow : ∀ k p d b, log !! k = Some (CallExpand p d b) →
                   (Z.of_nat d < M)%Z).
  { intros k p d b Hk.
    destruct (ls_expand _ _ _ _ Hshape k p d b Hk) as (Hd & _).
    unfold depthReached in Hd. rewrite HM in Hd. by apply Z.leb_gt in Hd. }
  split; [done |]. split; [| apply (obs_complete _ _ _ _ _ Hobs)].
  intros k m d r Hk.
  destruct (ls_origin _ _ _ _ Hshape k m d r Hk)
    as [(_ & _ & ->) | (j & p & dp & adj & _ & Hj & -> & _)]; [by left |].
  right. apply Hbelow in Hj. lia.
Qed.

End TraversalClaims.

(** C7: with [maxDepth] supplied, an iteration on a node at a depth of
    [maxDepth] or more appends the node to the order (or returns the order
    with it, if its visit answers [false]) and enqueues nothing; in a whole
    traversal, neighbours are enqueued only from nodes at a depth below
    [maxDepth], every visited node is at depth 0 or at most [maxDepth], and
    a node at depth [maxDepth] that is a successor of an expanded node is
    still in the order.  On the chain [a -> b -> c -> d], from [a], the
    order is [a, b] for [maxDepth = 1] and [a, b, c] for [maxDepth = 2]. *)
Theorem maxDepth_honoured :
  (∀ (T S : Type) (w : World T) (opts : BFSOptions S) (M : Z),
     maxDepth opts = Some M →
     (∀ st m d rest,
        queue st = (m, d) :: rest → (M ≤ Z.of_nat d)%Z →
        bfsIter (network w) opts st
        = match (callVisit opts (callbacks st) m d).2 with
          | Some false =>
              Return (order st ++ [m]) (callVisit opts (callbacks st) m d).1
          | _ =>
              Continue (mkLoop (visited st) (order st ++ [m]) rest
                               (callVisit opts (callbacks st) m d).1)
          end) ∧
     (∀ start n (s : S), startNode w start = Some n →
      ∃ out s' log,
        bfs w start (observed opts) (s, []) = Some (inr out, (s', log)) ∧
        bfs w start opts s = Some (inr out, s') ∧
        visitedNodes log = out ∧
        (∀ k p d b, log !! k = Some (CallExpand p d b) → (Z.of_nat d < M)%Z) ∧
        (∀ k m d r, log !! k = Some (CallVisit m d r) →
           d = 0 ∨ (Z.of_nat d ≤ M)%Z) ∧
        ((∀ k m d, log !! k ≠ Some (CallVisit m d (Some false))) →
         ∀ k p dp adj m, log !! k = Some (CallExpand p dp true) →
           Store.adjacent p (network w) = Some adj → m ∈ adj → m ∈ out))) ∧
  (Store.adjacent 0 (network Scenario.chain) = Some [1] ∧
   Store.adjacent 1 (network Scenario.chain) = Some [2] ∧
   Store.adjacent 2 (network Scenario.chain) = Some [3] ∧
   Store.adjacent 3 (network Scenario.chain) = Some []) ∧
  (∃ out, bfs Scenario.chain (ById "a") (Scenario.withMaxDepth 1) ()
          = Some (inr out, ()) ∧
          Scenario.ids Scenario.chain out = ["a"; "b"]) ∧
  (∃ out, bfs Scenario.chain (ById "a") (Scenario.withMaxDepth 2) ()
          = Some (inr out, ()) ∧
          Scenario.ids Scenario.chain out = ["a"; "b"; "c"]).
Proof.
  split; [intros T S w opts M; apply maxDepth_in_general |].
  split; [vm_compute; repeat split |].
  split; [exists [0; 1] | exists [0; 1; 2]]; vm_compute; by split.
Qed.

Lemma maxDepth_honoured_witness :
  ∃ out s' log,
    bfs Scenario.chain (ById "a") (observed (Scenario.withMaxDepth 1)) ((), [])
    = Some (inr out, (s', log)) ∧
    bfs Scenario.chain (ById "a") (Scenario.withMaxDepth 1) () = Some (inr out, s') ∧
    ∀ k m d r, log !! k = Some (CallVisit m d r) → d = 0 ∨ (Z.of_nat d ≤ 1)%Z.
Proof.
  destruct maxDepth_honoured as [H _].
  destruct (H nat unit Scenario.chain (Scenario.withMaxDepth 1) 1%Z) as [_ Hall];
    [reflexivity |].
  destruct (Hall (ById "a") 0 ()) as (out & s' & log & H1 & H2 & _ & _ & H3 & _);
    [vm_compute; reflexivity |].
  exists out, s', log. split; [exact H1 |]. split; [exact H2 | exact H3].
Defined.

(** * Further properties *)

(** ** Lookup and insertion *)

Section LookupFacts.
Context {T : Type}.
Implicit Types (w : World T) (i j : string) (h : list (Node T)) (x y n : nat).

Import NetworkManager.

Lemma findNodeIn_first h i ns :
  match findNodeIn h i ns with
  | Some x =>
      ∃ l1 l2 o, ns = l1 ++ x :: l2 ∧ h !! x = Some o ∧ id o = i ∧
                 ∀ y o', y ∈ l1 → h !! y = Some o' → id o' ≠ i
  | None => ∀ y o', y ∈ ns → h !! y = Some o' → id o' ≠ i
  end.
Proof.
  induction ns as [| m rest IH]; simpl.
  { intros y o' Hy. by apply elem_of_nil in Hy. }
  destruct (h !! m) as [o |] eqn:Hm.
  - destruct (decide (id o = i)) as [Hi | Hi].
    + exists [], rest, o. repeat split; try done.
      intros y o' Hy. by apply elem_of_nil in Hy.
    + destruct (findNodeIn h i rest) as [x |].
      * destruct IH as (l1 & l2 & o' & -> & Hx & Hid & Hbefore).
        exists (m :: l1), l2, o'. repeat split; try done.
        intros y o'' [-> | Hy]%elem_of_cons Hy'; [congruence | by eapply Hbefore].
      * intros y o' [-> | Hy]%elem_of_cons Hy'; [congruence | by eapply IH].
  - destruct (findNodeIn h i rest) as [x |].
    + destruct IH as (l1 & l2 & o' & -> & Hx & Hid & Hbefore).
      exists (m :: l1), l2, o'. repeat split; try done.
      intros y o'' [-> | Hy]%elem_of_cons Hy'; [congruence | by eapply Hbefore].
    + intros y o' [-> | Hy]%elem_of_cons Hy'; [congruence | by eapply IH].
Qed.

(** X1: [getNode] answers with the first node of the node set, in insertion
    order, whose id is the one asked for, and with nothing exactly when no
    node of the set has that id. *)
Theorem getNode_first_match w i :
  match getNode i w with
  | Some x =>
      ∃ l1 l2 o, nodes (network w) = l1 ++ x :: l2 ∧
                 heap w !! x = Some o ∧ id o = i ∧
                 ∀ y o', y ∈ l1 → heap w !! y = Some o' → id o' ≠ i
  | None =>
      ∀ y o', y ∈ nodes (network w) → heap w !! y = Some o' → id o' ≠ i
  end.
Proof. apply findNodeIn_first. Qed.

(** X2: with a non-empty id that is not in use, [createNode] returns a new
    node object, which was not in the node set and is now its last
    element; the object holds the id, data and rules given, [getNode] finds
    it under its id, and every other id leads where it led before, to an
    object that is as it was. *)
Theorem createNode_then_getNode w i (d : T) rs :
  allocated w → i ≠ "" → getNode i w = None →
  ∃ n, createNode i d rs w = ((createNode i d rs w).1, inr n) ∧
       (n ∉ nodes (network w)) ∧
       nodes (network (createNode i d rs w).1) = nodes (network w) ++ [n] ∧
       heap (createNode i d rs w).1 !! n = Some (mkNode i d rs) ∧
       getNode i (createNode i d rs w).1 = Some n ∧
       (∀ j, j ≠ i → getNode j (createNode i d rs w).1 = getNode j w) ∧
       (∀ x, x ≠ n → x ∈ nodes (network w) →
             heap (createNode i d rs w).1 !! x = heap w !! x).
Proof.
  intros Hall Hi Hnone. unfold getNode in *.
  destruct (createNode_fresh w i d rs Hall Hi Hnone) as (Hres & Hh & Hn & _).
  exists (length (heap w)). split; [done |].
  split. { intros Hin. apply Hall in Hin. lia. }
  split; [done |].
  split. { rewrite Hh, lookup_app_r by done. by rewrite Nat.sub_diag. }
  split. { rewrite createNode_findNode by done. rewrite Hnone.
           by destruct (decide (i = i)). }
  split.
  - intros j Hj. rewrite createNode_findNode by done.
    destruct (findNode j w); [done |]. by destruct (decide (i = j)).
  - intros x _ Hx. rewrite Hh, lookup_app_l; [done | by apply Hall].
Qed.

(** X3: the edges [createNode] leaves.  Between two nodes that were there
    before, nothing changes; the new node has no edge to itself; and the
    edge from, or to, the new node and an earlier node is there exactly
    when the handshake in that direction succeeds. *)
Theorem createNode_edges w i (d : T) rs :
  allocated w → i ≠ "" → getNode i w = None →
  ∃ n, createNode i d rs w = ((createNode i d rs w).1, inr n) ∧
       (∀ x y, x ≠ n → y ≠ n →
          Store.hasEdge (network (createNode i d rs w).1) x y
          = Store.hasEdge (network w) x y) ∧
       Store.hasEdge (network (createNode i d rs w).1) n n = false ∧
       (∀ y o, y ∈ nodes (network w) → heap w !! y = Some o →
          Store.hasEdge (network (createNode i d rs w).1) n y
          = tryHandshake (mkNode i d rs) o ∧
          Store.hasEdge (network (createNode i d rs w).1) y n
          = tryHandshake o (mkNode i d rs)).
Proof.
  intros Hall Hi Hnone. unfold getNode in *.
  destruct (createNode_fresh w i d rs Hall Hi Hnone) as (Hres & Hh & Hn & He).
  set (n := length (heap w)) in *. set (w' := (createNode i d rs w).1) in *.
  exists n. split; [done |].
  assert (Hnot : ∀ x y, Store.hasEdge (network w) x y = true → x ≠ n ∧ y ≠ n).
  { intros x y H. apply Hall in H. subst n. lia. }
  assert (Hfresh : n ∉ nodes (network w)).
  { intros Hin. apply Hall in Hin. subst n. lia. }
  split.
  { intros x y Hx Hy. apply eq_true_iff_eq. rewrite He. split; [| by left].
    intros [H | [(-> & _) | (-> & _)]]; done. }
  split.
  { apply not_true_is_false. rewrite He.
    intros [H | [(_ & H & _) | (_ & H & _)]]; [by apply Hnot in H as [? _] | done | done]. }
  intros y o Hy Ho.
  assert (Hyn : y ≠ n) by (by intros ->).
  assert (Hln : heap w' !! n = Some (mkNode i d rs)).
  { rewrite Hh, lookup_app_r by done. fold n. by rewrite Nat.sub_diag. }
  assert (Hly : heap w' !! y = Some o).
  { rewrite Hh, lookup_app_l by (by apply Hall). done. }
  assert (Hj1 : justified w' n y = tryHandshake (mkNode i d rs) o).
  { unfold justified. by rewrite Hln, Hly. }
  assert (Hj2 : justified w' y n = tryHandshake o (mkNode i d rs)).
  { unfold justified. by rewrite Hln, Hly. }
  split; apply eq_true_iff_eq; rewrite He.
  - rewrite <- Hj1. split.
    + intros [H | [(_ & _ & H) | (-> & _)]]; [by apply Hnot in H as [? _] | done ..].
    + intros H. right; left. done.
  - rewrite <- Hj2. split.
    + intros [H | [(-> & _) | (_ & _ & H)]]; [by apply Hnot in H as [_ ?] | done ..].
    + intros H. right; right. done.
Qed.

End LookupFacts.

(** ** Removal *)

Section RemovalFacts.
Context {T : Type}.
Implicit Types (w : World T) (i j : string) (h : list (Node T)) (x y n : nat).

Import NetworkManager.

Lemma findNodeIn_None h i ns :
  findNodeIn h i ns = None ↔ ∀ y o, y ∈ ns → h !! y = Some o → id o ≠ i.
Proof.
  pose proof (findNodeIn_first h i ns) as H.
  destruct (findNodeIn h i ns) as [x |]; [| done].
  destruct H as (l1 & l2 & o & -> & Hx & Hid & _). split; [done |].
  intros Hno. exfalso. apply (Hno x o); [| done | done].
  apply elem_of_app. right. by left.
Qed.

(** Taking a node with another id out of the scanned set changes nothing. *)
Lemma findNodeIn_delete h j ns node :
  (∀ o, h !! node = Some o → id o ≠ j) →
  findNodeIn h j (NodeSet.delete node ns) = findNodeIn h j ns.
Proof.
  intros Hother. unfold NodeSet.delete.
  induction ns as [| m rest IH]; [done |].
  rewrite filter_cons. destruct (decide (m ≠ node)) as [Hm | Hm]; simpl.
  - by rewrite IH.
  - apply dec_stable in Hm as ->. rewrite IH.
    destruct (h !! node) as [o |] eqn:Ho; [| done].
    destruct (decide (id o = j)) as [Hj | _]; [| done].
    by apply Hother in Hj.
Qed.

Lemma delete_absent x (s : list nat) : x ∉ s → NodeSet.delete x s = s.
Proof.
  unfold NodeSet.delete. induction s as [| m s IH]; [done |].
  intros Hx. apply not_elem_of_cons in Hx as [Hne Hx].
  rewrite filter_cons. destruct (decide (m ≠ x)) as [_ | Hm]; [by rewrite IH |].
  apply dec_stable in Hm. congruence.
Qed.

(** X6: once ids are unique, a removed id is not found any more, removing
    it a second time changes nothing, and every other id leads where it
    led before. *)
Theorem removeNode_then_getNode w i :
  uniqueIds w →
  getNode i (removeNode i w) = None ∧
  removeNode i (removeNode i w) = removeNode i w ∧
  (∀ j, j ≠ i → getNode j (removeNode i w) = getNode j w).
Proof.
  intros Huniq. unfold getNode.
  assert (Hgone : findNode i (removeNode i w) = None).
  { unfold removeNode. destruct (findNode i w) as [node |] eqn:Hi; [| done].
    unfold findNode in *. cbn [heap network nodes Store.removeNode].
    apply findNodeIn_Some in Hi as (Hnode & o & Ho & Hid).
    apply findNodeIn_None. intros y o' [Hy Hin]%elem_of_delete Ho' Hid'.
    apply Hy. apply (Huniq y node o' o); congruence. }
  split; [done |]. split.
  - unfold removeNode at 1. by rewrite Hgone.
  - intros j Hj. unfold removeNode.
    destruct (findNode i w) as [node |] eqn:Hi; [| done].
    unfold findNode in *. cbn [heap network nodes Store.removeNode].
    apply findNodeIn_Some in Hi as (_ & o & Ho & Hid).
    apply findNodeIn_delete. intros o' Ho'. congruence.
Qed.

(** X7: creating a node and removing it again gives back the node set and
    the edges there were, and every id leads where it led before; only the
    node object itself stays behind, outside the store. *)
Theorem createNode_then_removeNode w i (d : T) rs :
  allocated w → i ≠ "" → getNode i w = None →
  nodes (network (removeNode i (createNode i d rs w).1)) = nodes (network w) ∧
  (∀ x y, Store.hasEdge (network (removeNode i (createNode i d rs w).1)) x y
          = Store.hasEdge (network w) x y) ∧
  (∀ j, getNode j (removeNode i (createNode i d rs w).1) = getNode j w) ∧
  heap (removeNode i (createNode i d rs w).1) = heap w ++ [mkNode i d rs].
Proof.
  intros Hall Hi Hnone. unfold getNode in *.
  destruct (createNode_fresh w i d rs Hall Hi Hnone) as (_ & Hh & Hn & He).
  pose proof (createNode_findNode w i d rs i Hall Hi Hnone) as Hfound.
  rewrite Hnone in Hfound. destruct (decide (i = i)) as [_ |]; [| done].
  set (n := length (heap w)) in *. set (w' := (createNode i d rs w).1) in *.
  assert (Hfresh : n ∉ nodes (network w)).
  { intros Hin. apply Hall in Hin. subst n. lia. }
  assert (Hnodes : nodes (network (removeNode i w')) = nodes (network w)).
  { unfold removeNode. rewrite Hfound. cbn [network nodes Store.removeNode].
    rewrite Hn. unfold NodeSet.delete. rewrite filter_app, filter_cons.
    destruct (decide (n ≠ n)) as [| _]; [done |]. rewrite filter_nil, app_nil_r.
    by apply delete_absent. }
  split; [done |]. split; [| split].
  - intros x y. unfold removeNode. rewrite Hfound. cbn [network].
    rewrite hasEdge_removeNode. apply eq_true_iff_eq.
    rewrite !andb_true_iff, !negb_true_iff, !bool_decide_eq_false, He. split.
    + intros [[Hx Hy] [H | [(-> & _) | (-> & _)]]]; done.
    + intros H. apply Hall in H as Hlt. fold n in Hlt.
      split; [split; lia | by left].
  - intros j. unfold findNode. rewrite Hnodes.
    unfold removeNode. rewrite Hfound. cbn [heap]. rewrite Hh.
    apply findNodeIn_grow. apply Hall.
  - unfold removeNode. by rewrite Hfound.
Qed.

End RemovalFacts.

(** ** Recalculation, as it is done *)

Section UpdateFacts.
Context {T : Type}.
Implicit Types (w : World T) (i j : string) (h : list (Node T)) (x y n : nat)
  (g : Network).

Import NetworkManager.

Lemma setData_lookup_eq node (d : T) h :
  setData node d h !! node = (λ o, mkNode (id o) d (rules o)) <$> h !! node.
Proof. unfold setData. apply list_lookup_alter_eq. Qed.

Lemma setData_lookup_ne node (d : T) h x :
  x ≠ node → setData node d h !! x = h !! x.
Proof. intros Hx. unfold setData. by apply list_lookup_alter_ne. Qed.

(** Replacing data does not change what an id leads to. *)
Lemma findNodeIn_setData node (d : T) h i ns :
  findNodeIn (setData node d h) i ns = findNodeIn h i ns.
Proof.
  induction ns as [| m rest IH]; simpl; [done |]. rewrite IH.
  destruct (decide (m = node)) as [-> | Hm].
  - rewrite setData_lookup_eq. by destruct (h !! node).
  - by rewrite setData_lookup_ne.
Qed.

(** Replacing data by the data that is there changes nothing. *)
Lemma setData_same node (d : T) h o :
  h !! node = Some o → data o = d → setData node d h = h.
Proof.
  intros Ho Hd. apply list_eq. intros x. destruct (decide (x = node)) as [-> | Hx].
  - rewrite setData_lookup_eq, Ho. simpl. rewrite <- Hd. by destruct o.
  - by rewrite setData_lookup_ne.
Qed.

(** The loop over the copied adjacency set: which edges it drops. *)
Lemma dropPair_fold node (l : list nat) : ∀ g,
  nodes (foldl (dropPair node) g l) = nodes g ∧
  ∀ x y, Store.hasEdge (foldl (dropPair node) g l) x y = true ↔
         Store.hasEdge g x y = true ∧
         ¬ (x = node ∧ y ∈ l) ∧ ¬ (y = node ∧ x ∈ l).
Proof.
  induction l as [| a l IH]; intros g; simpl.
  { split; [done |]. intros x y. split; [| tauto]. intros H. split; [done |].
    split; intros [_ Hin]; by apply elem_of_nil in Hin. }
  destruct (IH (dropPair node g a)) as [Hn He]. split; [by rewrite Hn |].
  intros x y. rewrite He. unfold dropPair. rewrite !hasEdge_removeEdge.
  rewrite !andb_true_iff, !negb_true_iff, !bool_decide_eq_false, !elem_of_cons.
  split.
  - intros ((H1 & H2 & H3) & H4 & H5). split; [done |]. split.
    + intros [-> [-> | Hin]]; [by apply H2 | by apply H4].
    + intros [-> [-> | Hin]]; [by apply H1 | by apply H5].
  - intros (H & H1 & H2). repeat split; try done.
    + intros [-> ->]. apply H2. split; [done | by left].
    + intros [-> ->]. apply H1. split; [done | by left].
    + intros [-> Hin]. apply H1. split; [done | by right].
    + intros [-> Hin]. apply H2. split; [done | by right].
Qed.

(** What [updateNodeData] does to a node that is found. *)
Lemma updateNodeData_effect w i (d : T) node :
  findNode i w = Some node →
  updateNodeData i d w = ((updateNodeData i d w).1, inr ()) ∧
  nodes (network (updateNodeData i d w).1) = nodes (network w) ∧
  heap (updateNodeData i d w).1 = setData node d (heap w) ∧
  (∀ j, findNode j (updateNodeData i d w).1 = findNode j w) ∧
  (∀ y, Store.hasEdge (network (updateNodeData i d w).1) node y = true ↔
        y ∈ nodes (network w) ∧ y ≠ node ∧
        justified (updateNodeData i d w).1 node y = true) ∧
  (∀ x, x ≠ node →
     Store.hasEdge (network (updateNodeData i d w).1) x node = true ↔
     (x ∈ nodes (network w) ∧ justified (updateNodeData i d w).1 x node = true) ∨
     (Store.hasEdge (network w) x node = true ∧
      Store.hasEdge (network w) node x = false)) ∧
  (∀ x y, x ≠ node → y ≠ node →
     Store.hasEdge (network (updateNodeData i d w).1) x y
     = Store.hasEdge (network w) x y).
Proof.
  intros Hi. unfold updateNodeData. rewrite Hi. cbn [fst].
  set (adj := default [] (Store.adjacent node (network w))).
  destruct (dropPair_fold node adj (network w)) as [Hdn Hde].
  set (g1 := foldl (dropPair node) (network w) adj) in *.
  set (w1 := mkWorld (setData node d (heap w)) g1).
  assert (Hnode : node ∈ nodes (network w)).
  { unfold findNode in Hi. by apply findNodeIn_Some in Hi as [? _]. }
  destruct (sweep_fold node (nodes (network w1)) w1) as (Hh & Hns & He).
  { cbn. by rewrite Hdn. }
  { done. }
  unfold handshakeSweep.
  set (w' := foldl (handshakeStep node) w1 (nodes (network w1))) in *.
  assert (Hadj : ∀ y, y ∈ adj ↔ Store.hasEdge (network w) node y = true).
  { intros y. rewrite hasEdge_true. unfold adj, Store.adjacent.
    destruct (edges (network w) !! node) as [s |]; simpl.
    - split; [eauto | by intros (? & [= <-] & ?)].
    - split; [intros H; by apply elem_of_nil in H | by intros (? & [=] & _)]. }
  assert (Hj : ∀ x y, justified w1 x y = justified w' x y).
  { intros x y. symmetry. by apply justified_heap. }
  split; [done |]. split; [by rewrite Hns |]. split; [done |].
  split.
  { intros j. unfold findNode. rewrite Hns, Hh. cbn [network w1 heap].
    rewrite Hdn. apply findNodeIn_setData. }
  cbn [network w1] in He. rewrite Hdn in He.
  split; [| split].
  - intros y. rewrite He, Hde, !Hj. split.
    + intros [(H & Hno & _) | [(_ & ? & ? & ?) | (-> & _ & Hne & _)]];
        [| done | done].
      exfalso. apply Hno. split; [done |]. by apply Hadj.
    + intros (? & ? & ?). right; left. done.
  - intros x Hx. rewrite He, Hde, !Hj. split.
    + intros [(H & _ & Hno) | [(-> & _) | (_ & ? & _ & ?)]]; [| done | by left].
      right. split; [done |]. apply not_true_is_false. intros Hout.
      apply Hno. split; [done |]. by apply Hadj.
    + intros [[? ?] | [H Hout]]; [right; right; done |].
      left. split; [done |]. split; [by intros [? _] |].
      intros [_ Hin]. apply Hadj in Hin. congruence.
  - intros x y Hx Hy. apply eq_true_iff_eq. rewrite He, Hde. split.
    + intros [(H & _) | [(-> & _) | (-> & _)]]; done.
    + intros H. left. split; [done |]. split; by intros [? _].
Qed.

(** X8: for an id that is found, [updateNodeData] returns; the node set
    and what every id leads to stay the same, the node object holds the
    new data with its id and rules, and every other object is as it was.
    The edges from the node are afterwards exactly the justified ones; an
    edge to the node from another node is there exactly if it is justified
    or if it was there before without the edge back; no edge between two
    other nodes changes. *)
Theorem updateNodeData_edges w i (d : T) node :
  getNode i w = Some node →
  updateNodeData i d w = ((updateNodeData i d w).1, inr ()) ∧
  nodes (network (updateNodeData i d w).1) = nodes (network w) ∧
  (∀ j, getNode j (updateNodeData i d w).1 = getNode j w) ∧
  heap (updateNodeData i d w).1 !! node
    = (λ o, mkNode (id o) d (rules o)) <$> heap w !! node ∧
  (∀ x, x ≠ node → heap (updateNodeData i d w).1 !! x = heap w !! x) ∧
  (∀ y, Store.hasEdge (network (updateNodeData i d w).1) node y = true ↔
        y ∈ nodes (network w) ∧ y ≠ node ∧
        justified (updateNodeData i d w).1 node y = true) ∧
  (∀ x, x ≠ node →
     Store.hasEdge (network (updateNodeData i d w).1) x node = true ↔
     (x ∈ nodes (network w) ∧ justified (updateNodeData i d w).1 x node = true) ∨
     (Store.hasEdge (network w) x node = true ∧
      Store.hasEdge (network w) node x = false)) ∧
  (∀ x y, x ≠ node → y ≠ node →
     Store.hasEdge (network (updateNodeData i d w).1) x y
     = Store.hasEdge (network w) x y).
Proof.
  intros Hi.
  destruct (updateNodeData_effect w i d node Hi)
    as (Hres & Hn & Hh & Hf & Hout & Hin & Hrest).
  split; [done |]. split; [done |]. split; [done |].
  split; [by rewrite Hh, setData_lookup_eq |].
  split; [intros x Hx; by rewrite Hh, setData_lookup_ne |].
  done.
Qed.

End UpdateFacts.

Section UpdateAgain.
Context {T : Type}.
Implicit Types (w : World T) (i j : string) (x y n : nat).

Import NetworkManager.

(** X9: if every node with an edge to the node also has the edge back from
    it, [updateNodeData] leaves at the node exactly the justified edges,
    in both directions. *)
Theorem updateNodeData_exact_when_mutual w i (d : T) node :
  getNode i w = Some node →
  (∀ x, Store.hasEdge (network w) x node = true →
        Store.hasEdge (network w) node x = true) →
  ∀ x, x ∈ nodes (network w) → x ≠ node →
    Store.hasEdge (network (updateNodeData i d w).1) node x
    = justified (updateNodeData i d w).1 node x ∧
    Store.hasEdge (network (updateNodeData i d w).1) x node
    = justified (updateNodeData i d w).1 x node.
Proof.
  intros Hi Hmutual x Hx Hne.
  destruct (updateNodeData_effect w i d node Hi) as (_ & _ & _ & _ & Hout & Hin & _).
  split; apply eq_true_iff_eq.
  - rewrite Hout. tauto.
  - rewrite (Hin x Hne). split; [| by left].
    intros [[_ ?] | [H Hback]]; [done |]. apply Hmutual in H. congruence.
Qed.

(** X10: calling [updateNodeData] with the same data a third time changes
    nothing any more: the objects, the node set and the edges after three
    calls are those after two. *)
Theorem updateNodeData_settles w i (d : T) node :
  getNode i w = Some node →
  let w1 := (updateNodeData i d w).1 in
  let w2 := (updateNodeData i d w1).1 in
  let w3 := (updateNodeData i d w2).1 in
  heap w3 = heap w2 ∧ nodes (network w3) = nodes (network w2) ∧
  ∀ x y, Store.hasEdge (network w3) x y = Store.hasEdge (network w2) x y.
Proof.
  intros Hi w1 w2 w3. unfold getNode in Hi.
  destruct (updateNodeData_effect w i d node Hi)
    as (_ & Hn1 & Hh1 & Hf1 & Hout1 & Hin1 & _).
  fold w1 in Hn1, Hh1, Hf1, Hout1, Hin1.
  assert (Hi1 : findNode i w1 = Some node) by (by rewrite Hf1).
  destruct (updateNodeData_effect w1 i d node Hi1)
    as (_ & Hn2 & Hh2 & Hf2 & Hout2 & Hin2 & _).
  fold w2 in Hn2, Hh2, Hf2, Hout2, Hin2.
  assert (Hi2 : findNode i w2 = Some node) by (by rewrite Hf2).
  destruct (updateNodeData_effect w2 i d node Hi2)
    as (_ & Hn3 & Hh3 & _ & Hout3 & Hin3 & Hrest3).
  fold w3 in Hn3, Hh3, Hout3, Hin3, Hrest3.
  pose proof Hi as Hi'. unfold findNode in Hi'.
  apply findNodeIn_Some in Hi' as (_ & o & Ho & _).
  assert (Ho1 : heap w1 !! node = Some (mkNode (id o) d (rules o))).
  { by rewrite Hh1, setData_lookup_eq, Ho. }
  assert (Hh21 : heap w2 = heap w1).
  { rewrite Hh2. by apply (setData_same node d _ _ Ho1). }
  assert (Hh32 : heap w3 = heap w2).
  { rewrite Hh3. apply (setData_same node d _ (mkNode (id o) d (rules o)));
      [by rewrite Hh21 | done]. }
  split; [done |]. split; [done |].
  intros x y. destruct (decide (x = node)) as [-> | Hx].
  { apply eq_true_iff_eq. rewrite Hout3, Hout2, Hn2.
    by rewrite (justified_heap w2 w3). }
  destruct (decide (y = node)) as [-> | Hy]; [| by apply Hrest3].
  apply eq_true_iff_eq.
  rewrite (Hin3 x Hx), (justified_heap w2 w3 x node Hh32). split.
  - intros [[Hxin Hj] | [H _]]; [| done]. apply (Hin2 x Hx). left.
    split; [by rewrite <- Hn2 | done].
  - intros H. destruct (proj1 (Hin2 x Hx) H) as [[Hxin Hj] | [Hold Hback1]].
    + left. split; [by rewrite Hn2 | done].
    + right. split; [done |]. apply not_true_is_false. intros Hb.
      apply Hout2 in Hb as (Hxin & _ & Hj).
      assert (Hb1 : Store.hasEdge (network w1) node x = true); [| congruence].
      apply Hout1. split; [by rewrite <- Hn1 |]. split; [done |].
      by rewrite <- (justified_heap w1 w2 node x Hh21).
Qed.

End UpdateAgain.

(** ** What the manager keeps *)

Section InvariantFacts.
Context {T : Type}.
Implicit Types (w : World T) (i j : string) (x y n : nat) (o : Op T).

Import NetworkManager.

Lemma wellFormed_newWorld : wellFormed (@newWorld T).
Proof.
  assert (Hno : ∀ x y, Store.hasEdge (network (@newWorld T)) x y = true → False).
  { intros x y H. apply hasEdge_true in H as (s & Hs & _). cbn in Hs.
    by rewrite lookup_empty in Hs. }
  split; [split |].
  - intros x Hx. by apply elem_of_nil in Hx.
  - intros x y H. by apply Hno in H.
  - split; [| split].
    + intros x y a b Hx. by apply elem_of_nil in Hx.
    + apply NoDup_nil_2.
    + intros x y H. by apply Hno in H.
Qed.

Lemma wellFormed_createNode w i (d : T) rs :
  wellFormed w → wellFormed (createNode i d rs w).1.
Proof.
  intros Hwf. destruct (decide (i = "")) as [-> | Hi]; [done |].
  destruct (findNode i w) as [node |] eqn:Hfind.
  { unfold createNode. destruct (decide (i = "")); [done |]. by rewrite Hfind. }
  destruct Hwf as (Hall & Huniq & Hnd & Hedge).
  pose proof (createNode_allocated w i d rs Hall Hi Hfind) as Hall'.
  destruct (createNode_fresh w i d rs Hall Hi Hfind) as (_ & Hh & Hn & He).
  set (n := length (heap w)) in *. set (w' := (createNode i d rs w).1) in *.
  assert (Hfresh : n ∉ nodes (network w)).
  { intros Hin. apply Hall in Hin. subst n. lia. }
  assert (Hold : ∀ x, x ∈ nodes (network w) → heap w' !! x = heap w !! x).
  { intros x Hx. rewrite Hh. apply lookup_app_l. by apply Hall. }
  assert (Hnew : heap w' !! n = Some (mkNode i d rs)).
  { rewrite Hh, lookup_app_r by done. fold n. by rewrite Nat.sub_diag. }
  assert (Hnone : ∀ x a, x ∈ nodes (network w) → heap w !! x = Some a → id a ≠ i).
  { intros x a. unfold findNode in Hfind. by apply (findNodeIn_None _ _ _). }
  split; [done |]. split; [| split].
  - intros x y a b. rewrite Hn, !elem_of_app, !list_elem_of_singleton.
    intros [Hx | ->] [Hy | ->] Ha Hb Hid.
    + rewrite Hold in Ha, Hb by done. by apply (Huniq x y a b).
    + rewrite Hold in Ha by done. rewrite Hnew in Hb. injection Hb as <-.
      by apply Hnone in Ha.
    + rewrite Hold in Hb by done. rewrite Hnew in Ha. injection Ha as <-.
      symmetry in Hid. by apply Hnone in Hb.
    + done.
  - rewrite Hn. apply NoDup_app. split; [done |]. split; [| apply NoDup_singleton].
    intros x Hx Hx'. apply list_elem_of_singleton in Hx' as ->. done.
  - intros x y. rewrite He, Hn, !elem_of_app, !list_elem_of_singleton.
    intros [H | [(-> & Hy & _) | (-> & Hx & _)]].
    + apply Hedge in H as (? & ? & ?). tauto.
    + split; [by right |]. split; [by left |]. by intros <-.
    + split; [by left |]. split; [by right |]. by intros ->.
Qed.

Lemma wellFormed_removeNode w i : wellFormed w → wellFormed (removeNode i w).
Proof.
  intros Hwf. unfold removeNode. destruct (findNode i w) as [node |]; [| done].
  destruct Hwf as ([Hnodes Hedges] & Huniq & Hnd & Hedge).
  split; [split |]; cbn [network heap nodes Store.removeNode].
  - intros x [_ Hx]%elem_of_delete. by apply Hnodes.
  - intros x y. rewrite hasEdge_removeNode, !andb_true_iff.
    intros [_ H]. by apply Hedges.
  - split; [| split].
    + intros x y a b [_ Hx]%elem_of_delete [_ Hy]%elem_of_delete.
      by apply Huniq.
    + by apply NoDup_filter.
    + intros x y. rewrite hasEdge_removeNode, !andb_true_iff, !negb_true_iff,
        !bool_decide_eq_false, !elem_of_delete.
      intros [[Hx Hy] H]. apply Hedge in H as (? & ? & ?). tauto.
Qed.

Lemma wellFormed_updateNodeData w i (d : T) :
  wellFormed w → wellFormed (updateNodeData i d w).1.
Proof.
  intros Hwf. destruct (findNode i w) as [node |] eqn:Hfind.
  2: { unfold updateNodeData. by rewrite Hfind. }
  destruct (updateNodeData_effect w i d node Hfind)
    as (_ & Hn & Hh & _ & Hout & Hin & Hrest).
  set (w' := (updateNodeData i d w).1) in *.
  destruct Hwf as ([Hnodes Hedges] & Huniq & Hnd & Hedge).
  assert (Hnode : node ∈ nodes (network w)).
  { unfold findNode in Hfind. by apply findNodeIn_Some in Hfind as [? _]. }
  assert (Hlen : length (heap w') = length (heap w)).
  { rewrite Hh. apply length_alter. }
  assert (Hid : ∀ x a, heap w' !! x = Some a →
                ∃ a0, heap w !! x = Some a0 ∧ id a0 = id a).
  { intros x a. rewrite Hh. destruct (decide (x = node)) as [-> | Hx].
    - rewrite setData_lookup_eq. destruct (heap w !! node) as [a0 |]; [| done].
      intros [= <-]. eauto.
    - rewrite setData_lookup_ne by done. eauto. }
  assert (Hwithin : ∀ x y, Store.hasEdge (network w') x y = true →
                    x ∈ nodes (network w) ∧ y ∈ nodes (network w) ∧ x ≠ y).
  { intros x y H. destruct (decide (x = node)) as [-> | Hx].
    - apply Hout in H as (? & ? & _). split; [done |]. split; [done |]. congruence.
    - destruct (decide (y = node)) as [-> | Hy].
      + apply (Hin x Hx) in H as [[? _] | [H _]]; [done |]. by apply Hedge in H.
      + rewrite Hrest in H by done. by apply Hedge in H. }
  split; [split |].
  - intros x. rewrite Hn, Hlen. apply Hnodes.
  - intros x y H. apply Hwithin in H as (Hx & Hy & _). rewrite Hlen.
    split; by apply Hnodes.
  - split; [| split].
    + intros x y a b. rewrite Hn. intros Hx Hy Ha Hb Hab.
      apply Hid in Ha as (a0 & Ha & Ha0). apply Hid in Hb as (b0 & Hb & Hb0).
      apply (Huniq x y a0 b0); congruence.
    + by rewrite Hn.
    + intros x y H. rewrite Hn. by apply Hwithin.
Qed.

Lemma wellFormed_runOp w o : wellFormed w → wellFormed (runOp w o).
Proof.
  destruct o as [i d rs | i | i d]; simpl.
  - apply wellFormed_createNode.
  - apply wellFormed_removeNode.
  - apply wellFormed_updateNodeData.
Qed.

Lemma manager_keeps_wellFormed_aux (ops : list (Op T)) :
  wellFormed (runOps ops newWorld).
Proof.
  unfold runOps. generalize (@wellFormed_newWorld).
  generalize (@newWorld T). induction ops as [| o ops IH]; intros w Hw; [done |].
  simpl. apply IH. by apply wellFormed_runOp.
Qed.

(** X4: whatever methods are called on a new manager, with whatever
    arguments and whether they throw or not, the store only mentions node
    objects that exist, no two nodes have the same id, the node set has no
    node twice, and every edge joins two different nodes of the node set. *)
Theorem manager_keeps_wellFormed (ops : list (Op T)) :
  wellFormed (runOps ops newWorld).
Proof. apply manager_keeps_wellFormed_aux. Qed.

Lemma consistent_createNode w i (d : T) rs :
  wellFormed w → consistent w → consistent (createNode i d rs w).1.
Proof.
  intros Hwf Hcon. destruct (decide (i = "")) as [-> | Hi]; [done |].
  destruct (findNode i w) as [node |] eqn:Hfind.
  { unfold createNode. destruct (decide (i = "")); [done |]. by rewrite Hfind. }
  destruct Hwf as (Hall & _ & _ & Hedge).
  destruct (createNode_fresh w i d rs Hall Hi Hfind) as (_ & Hh & Hn & He).
  set (n := length (heap w)) in *. set (w' := (createNode i d rs w).1) in *.
  assert (Hfresh : n ∉ nodes (network w)).
  { intros Hin. apply Hall in Hin. subst n. lia. }
  intros x y. rewrite Hn, !elem_of_app, !list_elem_of_singleton.
  intros Hx Hy Hne. apply eq_true_iff_eq. rewrite He.
  destruct Hx as [Hx | ->], Hy as [Hy | ->].
  - rewrite (justified_grow w w' _ x y Hh) by (by apply Hall).
    rewrite <- (Hcon x y Hx Hy Hne). split; [| by left].
    intros [H | [(-> & _) | (-> & _)]]; done.
  - split; [| intros H; right; right; done].
    intros [H | [(-> & _) | (_ & _ & H)]]; [| done | done].
    apply Hedge in H as (_ & ? & _). done.
  - split; [| intros H; right; left; done].
    intros [H | [(_ & _ & H) | (-> & _)]]; [| done | done].
    apply Hedge in H as (? & _). done.
  - done.
Qed.

Lemma consistent_removeNode w i : consistent w → consistent (removeNode i w).
Proof.
  intros Hcon. unfold removeNode. destruct (findNode i w) as [node |]; [| done].
  intros x y. cbn [network heap nodes Store.removeNode].
  intros [Hx Hxin]%elem_of_delete [Hy Hyin]%elem_of_delete Hne.
  rewrite hasEdge_removeNode, !bool_decide_eq_false_2 by done. simpl.
  by apply Hcon.
Qed.

(** X5: as long as only [createNode] and [removeNode] are called on a new
    manager, in any sequence and with any arguments, the edges of the store
    are exactly the pairs of different nodes whose handshake succeeds. *)
Theorem create_remove_keep_edges_justified (ops : list (Op T)) :
  forallb (λ o, negb (isUpdate o)) ops = true →
  ∀ x y, Store.hasEdge (network (runOps ops newWorld)) x y = true ↔
         x ∈ nodes (network (runOps ops newWorld)) ∧
         y ∈ nodes (network (runOps ops newWorld)) ∧ x ≠ y ∧
         justified (runOps ops newWorld) x y = true.
Proof.
  intros Hops.
  assert (Hcon : consistent (runOps ops newWorld)).
  { unfold runOps. revert Hops.
    assert (Hnew : consistent (@newWorld T)).
    { intros x y Hx. by apply elem_of_nil in Hx. }
    generalize (@wellFormed_newWorld). revert Hnew.
    generalize (@newWorld T).
    induction ops as [| o ops IH]; intros w Hc Hw Hops; [done |].
    simpl in Hops. apply andb_true_iff in Hops as [Ho Hops]. simpl.
    apply IH; [| by apply wellFormed_runOp | done].
    destruct o as [i d rs | i | i d]; simpl; [| | done].
    - by apply consistent_createNode.
    - by apply consistent_removeNode. }
  pose proof (manager_keeps_wellFormed_aux ops) as (_ & _ & _ & Hedge).
  intros x y. split.
  - intros H. destruct (Hedge x y H) as (Hx & Hy & Hne).
    repeat split; try done. by rewrite <- (Hcon x y).
  - intros (Hx & Hy & Hne & Hj). by rewrite (Hcon x y).
Qed.

End InvariantFacts.

(** ** More on the handshake *)

Section HandshakeMore.
Context {T : Type}.
Implicit Types (A B : Node T) (r : Rule T).

Import NetworkManager.

(** X11: the handshake depends on the data and on which rules the two
    nodes have, not on their ids, nor on the order or repetition of the
    rules: with more rules on either side a handshake that succeeded still
    succeeds, and with the same rules in any order the outcome is the
    same. *)
Theorem tryHandshake_rule_sets A B A' B' :
  data A = data A' → data B = data B' →
  ((∀ r, r ∈ rules A → r ∈ rules A') → (∀ r, r ∈ rules B → r ∈ rules B') →
   tryHandshake A B = true → tryHandshake A' B' = true) ∧
  ((∀ r, r ∈ rules A ↔ r ∈ rules A') → (∀ r, r ∈ rules B ↔ r ∈ rules B') →
   tryHandshake A B = tryHandshake A' B').
Proof.
  intros HdA HdB.
  assert (Hmono : ∀ A B A' B', data A = data A' → data B = data B' →
            (∀ r, r ∈ rules A → r ∈ rules A') →
            (∀ r, r ∈ rules B → r ∈ rules B') →
            tryHandshake A B = true → tryHandshake A' B' = true).
  { clear. intros A B A' B' HdA HdB HA HB. unfold tryHandshake.
    rewrite !initiateLoop_true. unfold canInitiate, canAccept.
    rewrite <- HdA, <- HdB.
    intros [(r & Hr & Hi) (r' & Hr' & Ha)]. split; eauto. }
  split; [by apply Hmono |].
  intros HA HB. apply eq_true_iff_eq. split.
  - apply Hmono; try done; intros r; [apply HA | apply HB].
  - apply Hmono; try done; intros r; [apply HA | apply HB].
Qed.

(** X12: no edge without both roles.  If the source has no rules, or only
    rules of direction incoming, or the target has no rules, or only rules
    of direction outgoing, the handshake fails, whatever the rules
    match. *)
Theorem tryHandshake_needs_both_roles A B :
  (∀ r, r ∈ rules A → direction r = Some Incoming) ∨
  (∀ r, r ∈ rules B → direction r = Some Outgoing) →
  tryHandshake A B = false.
Proof.
  intros Hroles. apply not_true_is_false. unfold tryHandshake.
  rewrite initiateLoop_true.
  intros [(r & Hr & Hdir & _) (r' & Hr' & Hdir' & _)].
  destruct Hroles as [H | H].
  - rewrite (H r Hr) in Hdir. simpl in Hdir.
    repeat (apply elem_of_cons in Hdir as [Hdir | Hdir]; [done |]).
    by apply elem_of_nil in Hdir.
  - rewrite (H r' Hr') in Hdir'. simpl in Hdir'.
    repeat (apply elem_of_cons in Hdir' as [Hdir' | Hdir']; [done |]).
    by apply elem_of_nil in Hdir'.
Qed.

End HandshakeMore.

(** ** Where a traversal gets, and how far *)

Section WalkFacts.
Context {T S : Type}.
Implicit Types (w : World T) (g : Network) (opts : BFSOptions S)
  (n m d x k : nat) (log : list Call).

Lemma adjacent_hasEdge g p adj m :
  Store.adjacent p g = Some adj → m ∈ adj → Store.hasEdge g p m = true.
Proof. intros Hadj Hm. apply hasEdge_true. eauto. Qed.

Lemma hasEdge_adjacent g p m :
  Store.hasEdge g p m = true → ∃ adj, Store.adjacent p g = Some adj ∧ m ∈ adj.
Proof. intros H. by apply hasEdge_true in H. Qed.

Lemma walk_reachable g k x y : walk g k x y → reachable g x y.
Proof.
  induction 1 as [x | k x y z _ IH Hedge]; [apply rtc_refl |].
  by apply (rtc_r _ y).
Qed.

Lemma reachable_walk g x y : reachable g x y → ∃ k, walk g k x y.
Proof.
  revert y. apply rtc_ind_r.
  - exists 0. constructor.
  - intros y z _ Hedge [k IH]. exists (Datatypes.S k).
    by apply (walk_step g k x y z).
Qed.

(** The depth of a visit is the length of a walk from the start node. *)
Lemma observed_walks g opts n out log :
  Observation g opts n out log →
  ∀ k m d r, log !! k = Some (CallVisit m d r) → walk g d n m.
Proof.
  intros Hobs k. induction (lt_wf k) as [k _ IH]. intros m d r Hk.
  pose proof (obs_shape _ _ _ _ _ Hobs) as Hshape.
  destruct (ls_origin _ _ _ _ Hshape k m d r Hk)
    as [(_ & -> & ->) | (j & p & dp & adj & Hjk & Hj & -> & Hadj & Hin)].
  { constructor. }
  destruct (ls_expand _ _ _ _ Hshape j p dp true Hj) as (_ & j' & r' & -> & Hj' & _).
  apply (walk_step g dp n p m).
  - apply (IH j' ltac:(lia) p dp r' Hj').
  - by apply (adjacent_hasEdge g p adj).
Qed.

(** X13: every traversal from a start node that is found returns, and every
    node of the order it returns can be reached from the start node along
    edges of the store; more precisely, the depth [visit] is called with
    for a node is the number of edges of a walk from the start node to
    it. *)
Theorem bfs_stays_within_reach w opts start n (s : S) :
  startNode w start = Some n →
  ∃ out s' log,
    bfs w start (observed opts) (s, []) = Some (inr out, (s', log)) ∧
    bfs w start opts s = Some (inr out, s') ∧
    (∀ m, m ∈ out → reachable (network w) n m) ∧
    (∀ k m d r, log !! k = Some (CallVisit m d r) →
       m ∈ out ∧ walk (network w) d n m).
Proof.
  intros Hstart.
  destruct (bfs_observation w start n opts s Hstart)
    as (out & s' & log & Hrun & Hplain & Hobs).
  exists out, s', log. split; [done |]. split; [done |].
  pose proof (observed_walks _ _ _ _ _ Hobs) as Hwalk. split.
  - intros m Hm. rewrite <- (obs_visits _ _ _ _ _ Hobs) in Hm.
    apply visitedNodes_lookup in Hm as (k & d & r & Hk).
    apply (walk_reachable _ d). by apply (Hwalk k m d r).
  - intros k m d r Hk. split; [| by apply (Hwalk k m d r)].
    rewrite <- (obs_visits _ _ _ _ _ Hobs).
    by apply (visit_in_visitedNodes log k m d r).
Qed.

End WalkFacts.

Lemma bfs_stays_within_reach_witness :
  ∃ out s',
    bfs Scenario.chain (ById "b") (Scenario.withMaxDepth 1) () = Some (inr out, s') ∧
    ∀ m, m ∈ out → reachable (network Scenario.chain) 1 m.
Proof.
  destruct (bfs_stays_within_reach Scenario.chain (Scenario.withMaxDepth 1)
              (ById "b") 1 ()) as (out & s' & log & _ & H & Hreach & _).
  - vm_compute. reflexivity.
  - exists out, s'. split; [exact H | exact Hreach].
Defined.

(** ** Levels *)

Section LevelFacts.
Context {S : Type}.
Implicit Types (g : Network) (opts : BFSOptions S) (n m d x k : nat)
  (log : list Call) (st : LoopState (S * list Call)).

Lemma visitDepths_app log log' :
  visitDepths (log ++ log') = visitDepths log ++ visitDepths log'.
Proof.
  induction log as [| [n d r | n d b] log IH]; simpl; [done | |]; by rewrite IH.
Qed.

Lemma visit_in_visitDepths log k m d r :
  log !! k = Some (CallVisit m d r) → d ∈ visitDepths log.
Proof.
  revert k. induction log as [| e log IH]; intros k; [done |].
  destruct k as [| k]; simpl.
  - intros [= ->]. by left.
  - intros H. apply IH in H. destruct e; [by right | done].
Qed.

(** An observed iteration that goes on, with the answers it got. *)
Lemma observed_Continue_answers g opts st st' :
  bfsIter g (observed opts) st = Continue st' →
  ∃ n d rest r evs,
    queue st = (n, d) :: rest ∧ r ≠ Some false ∧
    order st' = order st ++ [n] ∧
    logOf st' = (logOf st ++ [CallVisit n d r]) ++ evs ∧
    (∃ s, r = (callVisit opts s n d).2) ∧
    ((evs = [] ∧ depthReached opts d = true ∧
      visited st' = visited st ∧ queue st' = rest) ∨
     (∃ s ex, ex = (callExpand opts s n d).2 ∧ evs = [CallExpand n d ex] ∧
        depthReached opts d = false ∧
        (((ex = false ∨ Store.adjacent n g = None) ∧
          visited st' = visited st ∧ queue st' = rest) ∨
         (ex = true ∧ ∃ adj, Store.adjacent n g = Some adj ∧
            (visited st', queue st')
            = foldl (enqueue d) (visited st, rest) adj)))).
Proof.
  intros H. apply bfsIter_Continue in H
    as (n & d & rest & s1 & r & Hq & Hv & Hr & Hord & Hcase).
  rewrite callVisit_observed in Hv. injection Hv as <- <-.
  exists n, d, rest, (callVisit opts (callbacks st).1 n d).2.
  rewrite depthReached_observed in Hcase. unfold logOf.
  destruct Hcase as [(Hd & Hcb & Hvis & Hq') | (Hd & ex & He & Hcase)].
  - exists []. rewrite Hcb, app_nil_r. simpl.
    split; [done |]. split; [done |]. split; [done |]. split; [done |].
    split; [eauto |]. by left.
  - rewrite callExpand_observed in He. injection He as Hcb <-.
    exists [CallExpand n d (callExpand opts (callVisit opts (callbacks st).1 n d).1 n d).2].
    rewrite <- Hcb. simpl.
    split; [done |]. split; [done |]. split; [done |]. split; [done |].
    split; [eauto |]. right.
    exists (callVisit opts (callbacks st).1 n d).1,
           (callExpand opts (callVisit opts (callbacks st).1 n d).1 n d).2.
    split; [done |]. split; [done |]. split; [done |].
    destruct Hcase as [(Hex & Hvis & Hq') | (Hex & adj & Hadj & Hfold)].
    + by left.
    + right. eauto.
Qed.

Lemma observed_Return_answers g opts st out (sl : S * list Call) :
  bfsIter g (observed opts) st = Return out sl →
  (queue st = [] ∧ sl.2 = logOf st) ∨
  (∃ n d rest s, queue st = (n, d) :: rest ∧
     (callVisit opts s n d).2 = Some false ∧
     sl.2 = logOf st ++ [CallVisit n d (Some false)]).
Proof.
  intros H. apply bfsIter_Return in H
    as [(Hq & -> & ->) | (n & d & rest & Hq & Hv & ->)]; [by left |].
  right. exists n, d, rest, (callbacks st).1. rewrite callVisit_observed in Hv.
  injection Hv as <- Hr. simpl. by rewrite Hr.
Qed.

Lemma Leveled_init g start (s : S) :
  Leveled g (mkLoop [start] [] [(start, 0)] (s, [])).
Proof.
  split; simpl.
  - repeat constructor.
  - intros d0 d' [= <-] [-> | H]%elem_of_cons; [lia | by apply elem_of_nil in H].
  - done.
Qed.

Lemma Answered_nil opts : Answered opts [].
Proof. intros k m d r H. done. Qed.

(** The depths met in the queue are at most one more than that of its
    head, and at least that of its head. *)
Lemma Leveled_queue g st n d rest :
  Leveled g st → queue st = (n, d) :: rest →
  (∀ d', d' ∈ visitDepths (logOf st) → d' ≤ d) ∧
  (∀ d', d' ∈ rest.*2 → d ≤ d' ∧ d' ≤ Datatypes.S d).
Proof.
  intros [Hsorted Hbound _] Hq. rewrite Hq in *. rewrite fmap_cons in *.
  cbn [snd] in *.
  apply StronglySorted_app in Hsorted as (Hcross & _ & Hq').
  apply StronglySorted_cons in Hq' as [Hle _].
  split.
  - intros d' Hd'. apply (Hcross d' d Hd'). by left.
  - intros d' Hd'. split.
    + rewrite Forall_forall in Hle. by apply Hle.
    + apply (Hbound d d'); [done | by right].
Qed.

Lemma StronglySorted_all_equal (c : nat) (l : list nat) :
  (∀ x, x ∈ l → x = c) → StronglySorted le l.
Proof.
  induction l as [| a l IH]; intros Hall; [constructor |].
  apply StronglySorted_cons. split.
  - apply Forall_forall. intros x Hx.
    rewrite (Hall a) by (by left). rewrite (Hall x) by (by right). done.
  - apply IH. intros x Hx. apply Hall. by right.
Qed.

End LevelFacts.

Section LevelSteps.
Context {S : Type}.
Implicit Types (g : Network) (opts : BFSOptions S) (n m d x k : nat)
  (log : list Call) (st : LoopState (S * list Call)).

Lemma Leveled_step g opts start st st' :
  Traced g opts start st → Leveled g st → Answered opts (logOf st) →
  bfsIter g (observed opts) st = Continue st' →
  Leveled g st' ∧ Answered opts (logOf st').
Proof.
  intros Htr Hlv Hans Hit.
  apply observed_Continue_answers in Hit
    as (n & d & rest & r & evs & Hq & Hr & Hord & Hlog & [s0 Hansr] & Hcase).
  destruct (Leveled_queue g st n d rest Hlv Hq) as [Hvd Hrest].
  pose proof (tr_visits _ _ _ _ Htr) as Hvisits.
  pose proof (tr_visited _ _ _ _ Htr) as Hvisited.
  destruct Hlv as [Hsorted Hbound Hnear].
  rewrite Hq in Hsorted, Hbound, Hnear, Hvisited.
  rewrite fmap_cons in Hsorted, Hvisited. cbn [fst snd] in Hsorted, Hvisited.
  assert (Hevs : evs = [] ∨ ∃ ex, evs = [CallExpand n d ex]).
  { destruct Hcase as [(-> & _) | (s & ex & _ & -> & _)]; eauto. }
  assert (Hvd' : visitDepths (logOf st') = visitDepths (logOf st) ++ [d]).
  { rewrite Hlog, !visitDepths_app. simpl.
    destruct Hevs as [-> | [ex ->]]; simpl; by rewrite app_nil_r. }
  assert (Hold : ∀ k e, logOf st !! k = Some e → logOf st' !! k = Some e).
  { intros k e He. rewrite Hlog. by do 2 apply lookup_app_l_Some. }
  assert (Hvisit : logOf st' !! length (logOf st) = Some (CallVisit n d r)).
  { rewrite Hlog. apply lookup_app_l_Some. by apply list_lookup_middle. }
  assert (Hlook : ∀ k e, logOf st' !! k = Some e →
            logOf st !! k = Some e ∨
            (k = length (logOf st) ∧ e = CallVisit n d r) ∨
            (k = Datatypes.S (length (logOf st)) ∧ evs = [e])).
  { intros k e. rewrite Hlog. destruct Hevs as [-> | [ex ->]].
    - rewrite app_nil_r. intros [[_ H] | [? ?]]%lookup_snoc_cases; eauto.
    - intros [[_ H] | [Hk ->]]%lookup_snoc_cases.
      + apply lookup_snoc_cases in H as [[_ H] | [? ?]]; eauto.
      + right; right. by rewrite Hk, length_app, Nat.add_1_r. }
  assert (Hnear_old : ∀ k p dp adj m,
            logOf st !! k = Some (CallExpand p dp true) →
            Store.adjacent p g = Some adj → m ∈ adj →
            (∀ e, e ∈ rest → e ∈ queue st') →
            (∃ k' d r, logOf st' !! k' = Some (CallVisit m d r) ∧
                       d ≤ Datatypes.S dp) ∨
            (∃ d, (m, d) ∈ queue st' ∧ d ≤ Datatypes.S dp)).
  { intros k p dp adj m Hk Hadj Hm Hsub.
    destruct (Hnear k p dp adj m Hk Hadj Hm)
      as [(k' & dm & rm & Hk' & Hle) | (dm & Hin & Hle)].
    - left. exists k', dm, rm. split; [by apply Hold | done].
    - apply elem_of_cons in Hin as [[= -> ->] | Hin].
      + left. by exists (length (logOf st)), d, r.
      + right. exists dm. split; [by apply Hsub | done]. }
  split.
  2: { (* the answers *)
    intros k m d1 r1 Hk. apply Hlook in Hk as [Hk | [[-> Heq] | [-> Heq]]].
    - destruct (Hans k m d1 r1 Hk) as [H1 H2]. split; [done |].
      intros Hr1 Hd1. destruct (H2 Hr1 Hd1) as [s Hs]. exists s. by apply Hold.
    - injection Heq as -> -> ->. split; [eauto |]. intros _ Hd.
      destruct Hcase as [(_ & Hd' & _) | (s & ex & -> & -> & _)]; [congruence |].
      exists s. rewrite Hlog. apply lookup_snoc_Some. right.
      by rewrite length_app, Nat.add_1_r.
    - destruct Hevs as [-> | [ex ->]]; [done |]. done. }
  assert (Hcases :
    (queue st' = rest ∧
     ∀ k p dp adj, logOf st' !! k = Some (CallExpand p dp true) →
       Store.adjacent p g = Some adj → logOf st !! k = Some (CallExpand p dp true)) ∨
    (∃ adj0 new, Store.adjacent n g = Some adj0 ∧ evs = [CallExpand n d true] ∧
       queue st' = rest ++ new ∧
       (∀ m d', (m, d') ∈ new → d' = Datatypes.S d ∧ m ∈ adj0) ∧
       (∀ m, m ∈ adj0 → m ∈ visited st ∨ m ∈ new.*1))).
  { destruct Hcase as [(-> & _ & _ & Hq') |
                       (s & ex & _ & -> & _ & [(Hwhy & _ & Hq') | (-> & adj0 & Hadj0 & Hfold)])].
    - left. split; [done |]. intros k p dp adj Hk _.
      apply Hlook in Hk as [Hk | [[_ ?] | [_ ?]]]; done.
    - left. split; [done |]. intros k p dp adj Hk Hadj.
      apply Hlook in Hk as [Hk | [[_ ?] | [_ Heq]]]; [done | done |].
      injection Heq as -> -> ->. destruct Hwhy; congruence.
    - right. destruct (enqueue_fold d adj0 (visited st, rest))
        as (new & Hq' & _ & _ & Hnew & Hv & Hall).
      rewrite <- Hfold in Hq', Hv, Hall. cbn [fst snd] in *.
      exists adj0, new. split; [done |]. split; [done |]. split; [done |].
      split; [exact Hnew |]. intros m Hm. apply Hv. by apply Hall. }
  destruct Hcases as [[Hq' Hexp] | (adj0 & new & Hadj0 & -> & Hq' & Hnew & Hall)].
  - (* nothing enqueued *)
    split.
    + rewrite Hvd', Hq', <- app_assoc. done.
    + rewrite Hq'. intros d0 d' Hhead Hd'.
      apply head_Some_elem_of in Hhead. apply Hrest in Hhead, Hd'. lia.
    + intros k p dp adj m Hk Hadj Hm.
      apply (Hnear_old k p dp adj m); [by apply (Hexp k p dp adj) | done | done |].
      intros e He. by rewrite Hq'.
  - (* the successors not seen before are enqueued, one level deeper *)
    assert (Hnewd : ∀ x, x ∈ new.*2 → x = Datatypes.S d).
    { intros x [[m d'] [-> He]]%list_elem_of_fmap. by apply Hnew in He as [-> _]. }
    split.
    + rewrite Hvd', Hq', fmap_app.
      replace ((visitDepths (logOf st) ++ [d]) ++ rest.*2 ++ new.*2)
        with ((visitDepths (logOf st) ++ d :: rest.*2) ++ new.*2)
        by (by rewrite <- !app_assoc).
      apply StronglySorted_app_2; [| done | by apply (StronglySorted_all_equal (Datatypes.S d))].
      intros x1 x2 Hx1 Hx2. apply Hnewd in Hx2 as ->.
      apply elem_of_app in Hx1 as [Hx1 | [-> | Hx1]%elem_of_cons].
      * apply Hvd in Hx1. lia.
      * lia.
      * apply Hrest in Hx1. lia.
    + rewrite Hq', fmap_app. intros d0 d' Hhead Hd'.
      apply head_Some_elem_of in Hhead.
      assert (Hboth : ∀ x, x ∈ rest.*2 ++ new.*2 → d ≤ x ∧ x ≤ Datatypes.S d).
      { intros x [Hx | Hx]%elem_of_app; [by apply Hrest |].
        apply Hnewd in Hx. lia. }
      apply Hboth in Hhead, Hd'. lia.
    + intros k p dp adj m Hk Hadj Hm.
      apply Hlook in Hk as [Hk | [[_ ?] | [_ Heq]]]; [| done |].
      { apply (Hnear_old k p dp adj m); try done.
        intros e He. rewrite Hq'. apply elem_of_app. by left. }
      injection Heq as <- <-. assert (adj = adj0) as -> by congruence.
      destruct (Hall m Hm) as [Hseen | Hnewm].
      * apply Hvisited in Hseen.
        apply elem_of_app in Hseen as [Hseen | [-> | Hseen]%elem_of_cons].
        -- rewrite <- Hvisits in Hseen.
           apply visitedNodes_lookup in Hseen as (k' & dm & rm & Hk').
           left. exists k', dm, rm. split; [by apply Hold |].
           apply visit_in_visitDepths in Hk'. apply Hvd in Hk'. lia.
        -- left. exists (length (logOf st)), d, r. split; [done | lia].
        -- apply list_elem_of_fmap in Hseen as ([m' dm] & -> & He).
           right. exists dm. split; [rewrite Hq'; apply elem_of_app; by left |].
           assert (dm ∈ rest.*2) as Hdm.
           { apply list_elem_of_fmap. by exists (m', dm). }
           apply Hrest in Hdm. lia.
      * apply list_elem_of_fmap in Hnewm as ([m' dm] & -> & He).
        right. exists dm. split; [rewrite Hq'; apply elem_of_app; by right |].
        apply Hnew in He as [-> _]. lia.
Qed.

Lemma Leveled_return g opts st out (sl : S * list Call) :
  Leveled g st → Answered opts (logOf st) →
  bfsIter g (observed opts) st = Return out sl →
  Levels g sl.2 ∧ Answered opts sl.2.
Proof.
  intros [Hsorted Hbound Hnear] Hans Hit.
  apply observed_Return_answers in Hit
    as [(Hq & ->) | (n & d & rest & s & Hq & Hfalse & ->)].
  - rewrite Hq in *. simpl in Hsorted. rewrite app_nil_r in Hsorted.
    split; [| done]. split; [done |].
    intros _ k p dp adj m Hk Hadj Hm.
    destruct (Hnear k p dp adj m Hk Hadj Hm) as [? | (dm & Hin & _)]; [done |].
    by apply elem_of_nil in Hin.
  - rewrite Hq in *. rewrite fmap_cons in Hsorted. cbn [snd] in Hsorted.
    split; [split |].
    + rewrite visitDepths_app. simpl.
      replace (visitDepths (logOf st) ++ d :: rest.*2)
        with ((visitDepths (logOf st) ++ [d]) ++ rest.*2) in Hsorted
        by (by rewrite <- app_assoc).
      by apply StronglySorted_app in Hsorted as (_ & ? & _).
    + intros Hno. exfalso. apply (Hno (length (logOf st)) n d).
      by apply list_lookup_middle.
    + intros k m d1 r1 Hk.
      apply lookup_snoc_cases in Hk as [[_ Hk] | [_ Heq]].
      * destruct (Hans k m d1 r1 Hk) as [H1 H2]. split; [done |].
        intros Hr1 Hd1. destruct (H2 Hr1 Hd1) as [s1 Hs]. exists s1.
        by apply lookup_snoc_old.
      * injection Heq as -> -> ->. split; [by exists s |]. done.
Qed.

End LevelSteps.

Section LevelClaims.
Context {T S : Type}.
Implicit Types (w : World T) (g : Network) (opts : BFSOptions S)
  (n m d x k : nat) (log : list Call).

(** Every traversal from a start node that is found returns, and its log
    has the shape, the levels and the answers described above. *)
Lemma bfs_levels w start n opts (s : S) :
  startNode w start = Some n →
  ∃ out s' log,
    bfs w start (observed opts) (s, []) = Some (inr out, (s', log)) ∧
    bfs w start opts s = Some (inr out, s') ∧
    Observation (network w) opts n out log ∧
    Levels (network w) log ∧ Answered opts log.
Proof.
  intros Hstart. unfold bfs. rewrite Hstart.
  destruct (bfsLoop_from_start (network w) opts n s) as [[out s'] Hrun].
  pose proof (bfsLoop_observed (network w) opts (bfsFuel (network w))
                (mkLoop [n] [] [(n, 0)] s) []) as Hobs.
  rewrite Hrun in Hobs. destruct Hobs as [log Hobs].
  cbn [visited order queue callbacks] in Hobs.
  exists out, s', log. rewrite Hrun, Hobs. split; [done |]. split; [done |].
  apply (bfsLoop_invariant (network w) (observed opts)
           (λ st, Traced (network w) opts n st ∧ Leveled (network w) st ∧
                  Answered opts (logOf st))
           (λ out sl, Observation (network w) opts n out sl.2 ∧
                      Levels (network w) sl.2 ∧ Answered opts sl.2))
    with (fuel := bfsFuel (network w)) (st := mkLoop [n] [] [(n, 0)] (s, []))
         (s := (s', log)).
  - intros st st' (Htr & Hlv & Hans) Hit. split; [by apply (Traced_step _ _ _ st) |].
    by apply (Leveled_step _ _ n st).
  - intros st out' sl (Htr & Hlv & Hans) Hit.
    split; [by apply (Traced_return _ _ _ st) |].
    by apply (Leveled_return _ _ st out').
  - split; [apply Traced_init |]. split; [apply Leveled_init | apply Answered_nil].
  - done.
Qed.

(** The nodes of the order and the depths of their visits, side by side. *)
Lemma visits_side_by_side log : ∀ i m,
  visitedNodes log !! i = Some m →
  ∃ d, visitDepths log !! i = Some d ∧
       ∃ k r, log !! k = Some (CallVisit m d r).
Proof.
  induction log as [| [n d r | n d b] log IH]; intros i m; simpl; [done | |].
  - destruct i as [| i]; simpl.
    + intros [= ->]. exists d. split; [done |]. by exists 0, r.
    + intros H. destruct (IH i m H) as (d' & Hd' & k & r' & Hk).
      exists d'. split; [done |]. by exists (Datatypes.S k), r'.
  - intros H. destruct (IH i m H) as (d' & Hd' & k & r' & Hk).
    exists d'. split; [done |]. by exists (Datatypes.S k), r'.
Qed.

(** X14: the order is a level order.  The depths of the visits, taken in
    the order of the returned nodes, never decrease: no node is visited
    after a node of greater depth. *)
Theorem bfs_level_order w opts start n (s : S) :
  startNode w start = Some n →
  ∃ out s' log,
    bfs w start (observed opts) (s, []) = Some (inr out, (s', log)) ∧
    bfs w start opts s = Some (inr out, s') ∧
    StronglySorted le (visitDepths log) ∧
    ∀ i m, out !! i = Some m →
      ∃ d, visitDepths log !! i = Some d ∧
           ∃ k r, log !! k = Some (CallVisit m d r).
Proof.
  intros Hstart.
  destruct (bfs_levels w start n opts s Hstart)
    as (out & s' & log & Hrun & Hplain & Hobs & Hlv & _).
  exists out, s', log. split; [done |]. split; [done |].
  split; [apply (lvl_sorted _ _ Hlv) |].
  rewrite <- (obs_visits _ _ _ _ _ Hobs). apply visits_side_by_side.
Qed.

(** In a traversal that nothing restricts, the end of a walk of [j] edges
    from the start node is visited, at a depth of at most [j]. *)
Lemma unrestricted_within g opts n out log :
  maxDepth opts = None →
  (∀ s m d, (callVisit opts s m d).2 ≠ Some false) →
  (∀ s m d, (callExpand opts s m d).2 = true) →
  Observation g opts n out log → Levels g log → Answered opts log →
  ∀ j m, walk g j n m →
    ∃ k d r, log !! k = Some (CallVisit m d r) ∧ d ≤ j.
Proof.
  intros Hmax Hgo Hgrant Hobs Hlv Hans.
  assert (Hnostop : ∀ k m d, log !! k ≠ Some (CallVisit m d (Some false))).
  { intros k m d Hk. destruct (Hans k m d _ Hk) as [[s Hs] _].
    symmetry in Hs. by apply Hgo in Hs. }
  assert (Hgen : ∀ j x m, walk g j x m → x = n →
            ∃ k d r, log !! k = Some (CallVisit m d r) ∧ d ≤ j);
    [| intros j m Hwalk; by apply (Hgen j n m)].
  induction 1 as [x | j x y z Hwalk IH Hedge]; intros ->.
  - destruct (ls_first _ _ _ _ (obs_shape _ _ _ _ _ Hobs)) as [Hnil | [r H0]].
    + by apply (obs_nonempty _ _ _ _ _ Hobs) in Hnil.
    + by exists 0, 0, r.
  - destruct (IH eq_refl) as (k & d & r & Hk & Hle).
    destruct (Hans k y d r Hk) as [_ Hnext].
    assert (Hr : r ≠ Some false) by (intros ->; by apply (Hnostop k y d)).
    assert (Hd : depthReached opts d = false).
    { unfold depthReached. by rewrite Hmax. }
    destruct (Hnext Hr Hd) as [s Hs]. rewrite Hgrant in Hs.
    apply hasEdge_adjacent in Hedge as (adj & Hadj & Hin).
    destruct (lvl_near _ _ Hlv Hnostop (Datatypes.S k) y d adj z Hs Hadj Hin)
      as (k' & d' & r' & Hk' & Hle').
    exists k', d', r'. split; [done | lia].
Qed.

(** X15: a traversal that nothing restricts (no [maxDepth], a [visit]
    that never answers [false], an [expand] that always grants, or no
    callbacks at all) returns exactly the nodes that can be reached from
    the start node along edges of the store, each once. *)
Theorem bfs_unrestricted_reaches_all w opts start n (s : S) :
  maxDepth opts = None →
  (∀ s m d, (callVisit opts s m d).2 ≠ Some false) →
  (∀ s m d, (callExpand opts s m d).2 = true) →
  startNode w start = Some n →
  ∃ out s',
    bfs w start opts s = Some (inr out, s') ∧ NoDup out ∧
    ∀ m, m ∈ out ↔ reachable (network w) n m.
Proof.
  intros Hmax Hgo Hgrant Hstart.
  destruct (bfs_levels w start n opts s Hstart)
    as (out & s' & log & Hrun & Hplain & Hobs & Hlv & Hans).
  exists out, s'. split; [done |]. split; [apply (obs_NoDup _ _ _ _ _ Hobs) |].
  intros m. rewrite <- (obs_visits _ _ _ _ _ Hobs). split.
  - intros Hm. apply visitedNodes_lookup in Hm as (k & d & r & Hk).
    apply (walk_reachable _ d). by apply (observed_walks _ _ _ _ _ Hobs k m d r).
  - intros Hm. apply reachable_walk in Hm as [j Hwalk].
    destruct (unrestricted_within _ _ _ _ _ Hmax Hgo Hgrant Hobs Hlv Hans j m Hwalk)
      as (k & d & r & Hk & _).
    by apply (visit_in_visitedNodes log k m d r).
Qed.

(** X16: in a traversal that nothing restricts, the depth [visit] is called
    with for a node is its distance from the start node: there is a walk of
    that many edges from the start node to it, and none with fewer. *)
Theorem bfs_unrestricted_depth_is_distance w opts start n (s : S) :
  maxDepth opts = None →
  (∀ s m d, (callVisit opts s m d).2 ≠ Some false) →
  (∀ s m d, (callExpand opts s m d).2 = true) →
  startNode w start = Some n →
  ∃ out s' log,
    bfs w start (observed opts) (s, []) = Some (inr out, (s', log)) ∧
    bfs w start opts s = Some (inr out, s') ∧
    ∀ k m d r, log !! k = Some (CallVisit m d r) →
      walk (network w) d n m ∧ ∀ j, walk (network w) j n m → d ≤ j.
Proof.
  intros Hmax Hgo Hgrant Hstart.
  destruct (bfs_levels w start n opts s Hstart)
    as (out & s' & log & Hrun & Hplain & Hobs & Hlv & Hans).
  exists out, s', log. split; [done |]. split; [done |].
  intros k m d r Hk. split; [by apply (observed_walks _ _ _ _ _ Hobs k m d r) |].
  intros j Hwalk.
  destruct (unrestricted_within _ _ _ _ _ Hmax Hgo Hgrant Hobs Hlv Hans j m Hwalk)
    as (k' & d' & r' & Hk' & Hle).
  pose proof (ls_visit_once _ _ _ _ (obs_shape _ _ _ _ _ Hobs)
                k k' m d d' r r' Hk Hk') as ->.
  assert (d = d') as -> by congruence. done.
Qed.

(** X17: with a [maxDepth] of zero or less the order is the start node
    alone, whatever the store and the callbacks. *)
Theorem bfs_maxDepth_zero w opts start n (s : S) (M : Z) :
  maxDepth opts = Some M → (M ≤ 0)%Z → startNode w start = Some n →
  ∃ s', bfs w start opts s = Some (inr [n], s').
Proof.
  intros HM Hle Hstart. unfold bfs, bfsFuel. rewrite Hstart.
  change (2 + length (successors (network w)))
    with (Datatypes.S (Datatypes.S (length (successors (network w))))).
  cbn [bfsLoop].
  assert (Hd : depthReached opts 0 = true).
  { unfold depthReached. rewrite HM. by apply Z.leb_le. }
  destruct (bfsIter (network w) opts (mkLoop [n] [] [(n, 0)] s))
    as [st1 | out s1] eqn:Hfirst.
  - apply bfsIter_Continue in Hfirst
      as (n' & d & rest & s1 & r & [= <- <- <-] & _ & _ & Hord & Hcase).
    assert (Hq : queue st1 = []).
    { destruct Hcase as [(_ & _ & _ & Hq) | (Hd' & _)]; [done | congruence]. }
    unfold bfsIter. rewrite Hq, Hord. eauto.
  - apply bfsIter_Return in Hfirst
      as [(Hq & _) | (n' & d & rest & [= <- <- <-] & _ & ->)]; [done |].
    eauto.
Qed.

End LevelClaims.

(** ** Stops and barriers *)

Section StopFacts.
Context {S : Type}.
Implicit Types (g : Network) (opts : BFSOptions S) (st : LoopState S)
  (n m d x k : nat) (s : S).

Lemma callVisit_withoutStop opts s n d :
  callVisit (withoutStop opts) s n d
  = ((callVisit opts s n d).1,
     match (callVisit opts s n d).2 with
     | Some true => Some true
     | _ => None
     end).
Proof.
  unfold callVisit at 1. simpl.
  by destruct (callVisit opts s n d) as [s1 [[|] |]].
Qed.

(** An iteration without the stop signal does what the iteration with it
    does, except that it goes on where that one returns on a stop. *)
Lemma bfsIter_withoutStop g opts st :
  match bfsIter g opts st with
  | Continue st' => bfsIter g (withoutStop opts) st = Continue st'
  | Return out s =>
      (queue st = [] ∧ bfsIter g (withoutStop opts) st = Return out s) ∨
      (∃ st' m d rest, queue st = (m, d) :: rest ∧
         callVisit opts (callbacks st) m d = (s, Some false) ∧
         out = order st ++ [m] ∧
         bfsIter g (withoutStop opts) st = Continue st' ∧ order st' = out)
  end.
Proof.
  unfold bfsIter. destruct (queue st) as [| [n d] rest]; [by left |].
  rewrite callVisit_withoutStop.
  change (depthReached (withoutStop opts) d) with (depthReached opts d).
  change (callExpand (withoutStop opts)) with (callExpand opts).
  destruct (callVisit opts (callbacks st) n d) as [s1 r] eqn:Hv. cbn [fst snd].
  destruct r as [[|] |].
  2: { right. destruct (depthReached opts d).
       { eexists _, n, d, rest. repeat split; done. }
       destruct (callExpand opts s1 n d) as [s2 ex]. destruct ex; simpl.
       - destruct (Store.adjacent n g);
           eexists _, n, d, rest; repeat split; done.
       - eexists _, n, d, rest. repeat split; done. }
  all: destruct (depthReached opts d); [done |].
  all: destruct (callExpand opts s1 n d) as [s2 ex]; destruct ex; simpl;
       [destruct (Store.adjacent n g) |]; done.
Qed.

(** The order only grows. *)
Lemma bfsLoop_order_grows g opts : ∀ fuel st out s,
  bfsLoop fuel g opts st = Some (out, s) → order st `prefix_of` out.
Proof.
  induction fuel as [| fuel IH]; intros st out s; [done |]. simpl.
  destruct (bfsIter g opts st) as [st' | out' s'] eqn:Hit.
  - intros H. apply IH in H.
    apply bfsIter_Continue in Hit as (n & d & rest & s1 & r & _ & _ & _ & Hord & _).
    rewrite Hord in H. etrans; [| exact H]. by apply prefix_app_r.
  - intros [= <- <-].
    apply bfsIter_Return in Hit as [(_ & -> & _) | (n & d & rest & _ & _ & ->)];
      [done | by apply prefix_app_r].
Qed.

(** What a traversal returns is the beginning of what it returns without
    the stop signal; the two differ only if a visit gave the signal, for
    the last node of the order. *)
Lemma bfsLoop_withoutStop g opts : ∀ fuel st out s,
  bfsLoop fuel g opts st = Some (out, s) →
  ∀ fuel2 full s2, bfsLoop fuel2 g (withoutStop opts) st = Some (full, s2) →
  out `prefix_of` full ∧
  ((out = full ∧ s = s2) ∨
   ∃ m s0 d, last out = Some m ∧ (callVisit opts s0 m d).2 = Some false).
Proof.
  induction fuel as [| fuel IH]; intros st out s; [done |]. simpl.
  pose proof (bfsIter_withoutStop g opts st) as Hsim.
  destruct (bfsIter g opts st) as [st' | out' s'] eqn:Hit.
  - intros Hrun [| fuel2] full s2; [done |]. simpl. rewrite Hsim. by apply IH.
  - intros [= <- <-] [| fuel2] full s2; [done |]. simpl.
    destruct Hsim as [[_ ->] | (st' & m & d & rest & Hq & Hv & Hout & -> & Hord)].
    + intros [= <- <-]. split; [done |]. by left.
    + intros Hrun. apply bfsLoop_order_grows in Hrun. rewrite Hord in Hrun.
      split; [done |]. right. exists m, (callbacks st), d. rewrite Hv.
      split; [| done]. rewrite Hout. apply last_snoc.
Qed.

End StopFacts.

Section ThroughFacts.
Context {S : Type}.
Implicit Types (g : Network) (opts : BFSOptions S) (n m d x k : nat)
  (log : list Call).

Lemma reachedThrough_mono g (P Q : nat → Prop) x y :
  (∀ a, P a → Q a) → reachedThrough g P x y → reachedThrough g Q x y.
Proof.
  intros HPQ. unfold reachedThrough. apply rtc_subrel.
  intros a b [Ha Hab]. split; [by apply HPQ | done].
Qed.

Lemma observed_start_first g opts n out log :
  Observation g opts n out log →
  ∃ out' r, out = n :: out' ∧ log !! 0 = Some (CallVisit n 0 r).
Proof.
  intros Hobs.
  destruct (ls_first _ _ _ _ (obs_shape _ _ _ _ _ Hobs)) as [Hnil | [r H0]].
  - by apply (obs_nonempty _ _ _ _ _ Hobs) in Hnil.
  - destruct log as [| e log'] eqn:Hlog; [done |]. injection H0 as ->.
    exists (visitedNodes log'), r. by rewrite <- (obs_visits _ _ _ _ _ Hobs).
Qed.

(** A visited node is reached from the start node through nodes whose
    expansion was granted. *)
Lemma observed_through g opts n out log :
  Observation g opts n out log →
  ∀ k m d r, log !! k = Some (CallVisit m d r) →
    reachedThrough g (granted log) n m.
Proof.
  intros Hobs k. induction (lt_wf k) as [k _ IH]. intros m d r Hk.
  pose proof (obs_shape _ _ _ _ _ Hobs) as Hshape.
  destruct (ls_origin _ _ _ _ Hshape k m d r Hk)
    as [(_ & -> & ->) | (j & p & dp & adj & Hjk & Hj & -> & Hadj & Hin)].
  { apply rtc_refl. }
  destruct (ls_expand _ _ _ _ Hshape j p dp true Hj) as (_ & j' & r' & -> & Hj' & _).
  apply (rtc_r _ p).
  - apply (IH j' ltac:(lia) p dp r' Hj').
  - split; [by exists (Datatypes.S j'), dp |]. by apply (adjacent_hasEdge g p adj).
Qed.

(** A granted expansion was granted by [expand]. *)
Lemma granted_answer g opts n out log p :
  Observation g opts n out log → Answered opts log → granted log p →
  ∃ s d, (callExpand opts s p d).2 = true.
Proof.
  intros Hobs Hans (j & d & Hj).
  destruct (ls_expand _ _ _ _ (obs_shape _ _ _ _ _ Hobs) j p d true Hj)
    as (Hd & j' & r & -> & Hj' & Hr).
  destruct (Hans j' p d r Hj') as [_ Hnext].
  destruct (Hnext Hr Hd) as [s Hs]. exists s, d. congruence.
Qed.

(** Unless a visit stopped the traversal, what is reached through granted
    nodes is in the order. *)
Lemma through_complete g opts n out log :
  Observation g opts n out log →
  (∀ k m d, log !! k ≠ Some (CallVisit m d (Some false))) →
  ∀ x, reachedThrough g (granted log) n x → x ∈ out.
Proof.
  intros Hobs Hnostop. apply rtc_ind_r.
  - destruct (observed_start_first _ _ _ _ _ Hobs) as (out' & r & -> & _). by left.
  - intros a b _ [(j & d & Hj) Hedge] _.
    apply hasEdge_adjacent in Hedge as (adj & Hadj & Hin).
    by apply (obs_complete _ _ _ _ _ Hobs Hnostop j a d adj b).
Qed.

(** Without stops and without a depth limit, what is reached through nodes
    that [expand] always grants is in the order. *)
Lemma always_granted_complete g opts n out log :
  Observation g opts n out log → Answered opts log →
  maxDepth opts = None →
  (∀ s m d, (callVisit opts s m d).2 ≠ Some false) →
  ∀ x, reachedThrough g (λ a, ∀ s d, (callExpand opts s a d).2 = true) n x →
       x ∈ out.
Proof.
  intros Hobs Hans Hmax Hgo.
  assert (Hnostop : ∀ k m d, log !! k ≠ Some (CallVisit m d (Some false))).
  { intros k m d Hk. destruct (Hans k m d _ Hk) as [[s Hs] _].
    symmetry in Hs. by apply Hgo in Hs. }
  apply rtc_ind_r.
  - destruct (observed_start_first _ _ _ _ _ Hobs) as (out' & r & -> & _). by left.
  - intros a b _ [Hgr Hedge] Ha.
    rewrite <- (obs_visits _ _ _ _ _ Hobs) in Ha.
    apply visitedNodes_lookup in Ha as (k & d & r & Hk).
    destruct (Hans k a d r Hk) as [_ Hnext].
    assert (Hr : r ≠ Some false) by (intros ->; by apply (Hnostop k a d)).
    assert (Hd : depthReached opts d = false).
    { unfold depthReached. by rewrite Hmax. }
    destruct (Hnext Hr Hd) as [s Hs]. rewrite Hgr in Hs.
    apply hasEdge_adjacent in Hedge as (adj & Hadj & Hin).
    by apply (obs_complete _ _ _ _ _ Hobs Hnostop (Datatypes.S k) a d adj b).
Qed.

End ThroughFacts.

Section StopClaims.
Context {T S : Type}.
Implicit Types (w : World T) (opts : BFSOptions S) (st : LoopState S)
  (n m d x k : nat) (log : list Call).

(** C8: an iteration whose visit answers [false] leaves [bfs] at once, with
    the order so far and the visited node at its end.  Every traversal
    from a start node that is found returns, and so does the traversal
    without the stop signal.  Observed, it returns the same order and
    caller state; the first call is the visit of the start node, and
    [visit] was called once for each node of the order, in that order, with
    the answers the log holds; [expand], which opens the way to a node's
    neighbours, is asked right after the visit of that node, unless that
    visit answered [false] or the depth limit is reached, and every other
    visit comes after a granted expansion of a node the visited node is a
    successor of.  A visit that answered [false] is the last call: its node
    is the last of the order and was never expanded, and every node of the
    order is reached from the start node through expanded nodes other than
    it.  If no visit answered [false], every node reached through expanded
    nodes is in the order.  In all cases the order is the beginning of the
    order of the traversal without the stop signal, and is all of it unless
    a visit answered [false] for the last node of the order. *)
Theorem visit_once_then_stop w opts :
  (∀ st m d rest s1,
     queue st = (m, d) :: rest →
     callVisit opts (callbacks st) m d = (s1, Some false) →
     bfsIter (network w) opts st = Return (order st ++ [m]) s1) ∧
  (∀ start n (s : S), startNode w start = Some n →
   ∃ out s' log full s'',
     bfs w start (observed opts) (s, []) = Some (inr out, (s', log)) ∧
     bfs w start opts s = Some (inr out, s') ∧
     bfs w start (withoutStop opts) s = Some (inr full, s'') ∧
     visitedNodes log = out ∧ NoDup out ∧
     (∃ out' r, out = n :: out' ∧ log !! 0 = Some (CallVisit n 0 r)) ∧
     Answered opts log ∧
     (∀ k p d b, log !! k = Some (CallExpand p d b) →
        ∃ j r, k = Datatypes.S j ∧ log !! j = Some (CallVisit p d r) ∧
               r ≠ Some false) ∧
     (∀ k x d r, log !! k = Some (CallVisit x d r) →
        (k = 0 ∧ x = n ∧ d = 0) ∨
        (∃ j p dp adj, j < k ∧ log !! j = Some (CallExpand p dp true) ∧
           d = Datatypes.S dp ∧
           Store.adjacent p (network w) = Some adj ∧ x ∈ adj)) ∧
     (∀ k m d, log !! k = Some (CallVisit m d (Some false)) →
        Datatypes.S k = length log ∧ last out = Some m ∧ ¬ granted log m ∧
        ∀ x, x ∈ out →
          reachedThrough (network w) (λ a, a ≠ m ∧ granted log a) n x) ∧
     ((∀ k m d, log !! k ≠ Some (CallVisit m d (Some false))) →
      ∀ x, reachedThrough (network w) (granted log) n x → x ∈ out) ∧
     out `prefix_of` full ∧
     ((out = full ∧ s' = s'') ∨
      ∃ m s0 d, last out = Some m ∧ (callVisit opts s0 m d).2 = Some false)).
Proof.
  split.
  { intros st m d rest s1 Hq Hv. unfold bfsIter. by rewrite Hq, Hv. }
  intros start n s Hstart.
  destruct (bfs_levels w start n opts s Hstart)
    as (out & s' & log & Hrun & Hplain & Hobs & _ & Hans).
  assert (Hfull : ∃ full s'', bfs w start (withoutStop opts) s
                              = Some (inr full, s'')).
  { destruct (bfs_levels w start n (withoutStop opts) s Hstart)
      as (full & s'' & _ & _ & Hfull & _). eauto. }
  destruct Hfull as (full & s'' & Hfull).
  exists out, s', log, full, s''.
  pose proof (obs_shape _ _ _ _ _ Hobs) as Hshape.
  pose proof (obs_visits _ _ _ _ _ Hobs) as Hvisits.
  split; [done |]. split; [done |]. split; [done |]. split; [done |].
  split; [apply (obs_NoDup _ _ _ _ _ Hobs) |].
  split; [apply (observed_start_first _ _ _ _ _ Hobs) |].
  split; [done |].
  split.
  { intros k p d b Hk.
    by destruct (ls_expand _ _ _ _ Hshape k p d b Hk) as [_ ?]. }
  split; [apply (ls_origin _ _ _ _ Hshape) |].
  split.
  { intros k m d Hk.
    destruct (obs_stop _ _ _ _ _ Hobs k m d Hk) as [Hlast Hout].
    pose proof (stopped_not_expanded _ _ _ _ _ k m d Hobs Hk) as Hnever.
    assert (Hno : ¬ granted log m).
    { intros (j & d' & Hj). by apply (Hnever j d' true). }
    split; [done |]. split; [done |]. split; [done |].
    intros x Hx. rewrite <- Hvisits in Hx.
    apply visitedNodes_lookup in Hx as (k' & d' & r' & Hk').
    apply (reachedThrough_mono _ (granted log)).
    - intros a Ha. split; [| done]. by intros ->.
    - by apply (observed_through _ _ _ _ _ Hobs k' x d' r'). }
  split; [apply (through_complete _ _ _ _ _ Hobs) |].
  unfold bfs in Hplain, Hfull. rewrite Hstart in Hplain, Hfull.
  destruct (bfsLoop (bfsFuel (network w)) (network w) opts
              (mkLoop [n] [] [(n, 0)] s)) as [[out1 s1] |] eqn:H1; [| done].
  destruct (bfsLoop (bfsFuel (network w)) (network w) (withoutStop opts)
              (mkLoop [n] [] [(n, 0)] s)) as [[out2 s2] |] eqn:H2; [| done].
  injection Hplain as <- <-. injection Hfull as <- <-.
  apply (bfsLoop_withoutStop _ _ _ _ _ _ H1 _ _ _ H2).
Qed.

(** C9: an iteration whose node [expand] refuses appends the node to the
    order and enqueues nothing.  Every traversal from a start node that is
    found returns; its order begins with the start node, visited at depth
    0, and has no node twice; the answers in the log are those of the
    callbacks.  A node that [expand] refused is in the order, was asked
    about that once only and so was never expanded.  Every node of the
    order is reached from the start node through expanded nodes, hence
    through nodes that [expand] grants for some state and depth: a node
    that can only be reached through refused nodes is not in the order.
    Unless a visit stopped the traversal, every node reached through
    expanded nodes is in the order, refused or not; and without stop and
    depth limit, every node reached through nodes that [expand] always
    grants is in the order. *)
Theorem start_first_barriers_block w opts :
  (∀ st m d rest s1 r s2,
     queue st = (m, d) :: rest →
     callVisit opts (callbacks st) m d = (s1, r) → r ≠ Some false →
     depthReached opts d = false →
     callExpand opts s1 m d = (s2, false) →
     bfsIter (network w) opts st
     = Continue (mkLoop (visited st) (order st ++ [m]) rest s2)) ∧
  (∀ start n (s : S), startNode w start = Some n →
   ∃ out s' log,
     bfs w start (observed opts) (s, []) = Some (inr out, (s', log)) ∧
     bfs w start opts s = Some (inr out, s') ∧
     (∃ out' r, out = n :: out' ∧ log !! 0 = Some (CallVisit n 0 r)) ∧
     visitedNodes log = out ∧ NoDup out ∧
     Answered opts log ∧
     (∀ k p d, log !! k = Some (CallExpand p d false) →
        p ∈ out ∧ ¬ granted log p ∧
        ∀ k' d' b, log !! k' = Some (CallExpand p d' b) → k' = k) ∧
     (∀ x, x ∈ out → reachedThrough (network w) (granted log) n x) ∧
     ((∀ k m d, log !! k ≠ Some (CallVisit m d (Some false))) →
      ∀ x, reachedThrough (network w) (granted log) n x → x ∈ out) ∧
     (∀ x, x ∈ out →
        reachedThrough (network w)
          (λ a, ∃ s0 d, (callExpand opts s0 a d).2 = true) n x) ∧
     (maxDepth opts = None →
      (∀ s0 m d, (callVisit opts s0 m d).2 ≠ Some false) →
      ∀ x, reachedThrough (network w)
             (λ a, ∀ s0 d, (callExpand opts s0 a d).2 = true) n x →
           x ∈ out)).
Proof.
  split.
  { intros st m d rest s1 r s2 Hq Hv Hr Hd He. unfold bfsIter.
    rewrite Hq, Hv, Hd, He. by destruct r as [[|] |]. }
  intros start n s Hstart.
  destruct (bfs_levels w start n opts s Hstart)
    as (out & s' & log & Hrun & Hplain & Hobs & _ & Hans).
  exists out, s', log. split; [done |]. split; [done |].
  pose proof (obs_shape _ _ _ _ _ Hobs) as Hshape.
  pose proof (obs_visits _ _ _ _ _ Hobs) as Hvisits.
  split; [apply (observed_start_first _ _ _ _ _ Hobs) |].
  split; [done |]. split; [apply (obs_NoDup _ _ _ _ _ Hobs) |].
  split; [done |].
  assert (Hthrough : ∀ x, x ∈ out → reachedThrough (network w) (granted log) n x).
  { intros x Hx. rewrite <- Hvisits in Hx.
    apply visitedNodes_lookup in Hx as (k & d & r & Hk).
    by apply (observed_through _ _ _ _ _ Hobs k x d r). }
  split.
  { intros k p d Hk.
    destruct (ls_expand _ _ _ _ Hshape k p d false Hk) as (_ & j & r & -> & Hj & _).
    assert (Honce : ∀ k' d' b, log !! k' = Some (CallExpand p d' b) →
                      k' = Datatypes.S j).
    { intros k' d' b Hk'.
      destruct (ls_expand _ _ _ _ Hshape k' p d' b Hk')
        as (_ & j' & r' & -> & Hj' & _).
      f_equal. by apply (ls_visit_once _ _ _ _ Hshape j' j p d' d r' r). }
    split; [| split; [| done]].
    - rewrite <- Hvisits. by apply (visit_in_visitedNodes log j p d r).
    - intros (k' & d' & Hk'). pose proof (Honce k' d' true Hk') as ->. congruence. }
  split; [done |].
  split; [apply (through_complete _ _ _ _ _ Hobs) |].
  split.
  { intros x Hx. apply (reachedThrough_mono _ (granted log)); [| by apply Hthrough].
    intros a. by apply (granted_answer _ _ _ _ _ _ Hobs Hans). }
  intros Hmax Hgo. by apply (always_granted_complete _ _ _ _ _ Hobs Hans).
Qed.

End StopClaims.

Lemma chainBack_from_a b :
  Store.hasEdge (network Scenario.chainBack) 0 b = true → b = 1.
Proof.
  intros H. apply hasEdge_true in H as (l & Hl & Hb). vm_compute in Hl.
  injection Hl as <-. apply list_elem_of_singleton in Hb. exact Hb.
Qed.

(** On the chain with the edge back, only [a] and [b] are reached from
    [a] without passing through [b]. *)
Lemma chainBack_closed (P : nat → Prop) x :
  ¬ P 1 → reachedThrough (network Scenario.chainBack) P 0 x → x = 0 ∨ x = 1.
Proof.
  intros HP. revert x. apply rtc_ind_r; [left; reflexivity |].
  intros a b _ [Ha Hedge] [-> | ->].
  - right. exact (chainBack_from_a b Hedge).
  - exfalso. exact (HP Ha).
Qed.

Lemma visit_once_then_stop_witness :
  ∃ out s' full s'',
    bfs Scenario.chainBack (ById "a")
        (Scenario.stopAt Scenario.chainBack "b") () = Some (inr out, s') ∧
    bfs Scenario.chainBack (ById "a")
        (withoutStop (Scenario.stopAt Scenario.chainBack "b")) ()
    = Some (inr full, s'') ∧
    last out = Some 1 ∧ (2 ∉ out) ∧ (3 ∉ out) ∧ out `prefix_of` full.
Proof.
  destruct (visit_once_then_stop Scenario.chainBack
              (Scenario.stopAt Scenario.chainBack "b")) as [_ Hall].
  destruct (Hall (ById "a") 0 ())
    as (out & s' & log & full & s'' & Hrun & Hplain & Hfull & _ & _ & _ & _ & _ & _
        & Hstop & _ & Hpre & _);
    [vm_compute; reflexivity |].
  exists out, s', full, s''. split; [exact Hplain |]. split; [exact Hfull |].
  assert (Hlog : log !! 2 = Some (CallVisit 1 1 (Some false))).
  { vm_compute in Hrun. injection Hrun as _ _ <-. reflexivity. }
  destruct (Hstop 2 1 1 Hlog) as (_ & Hlast & _ & Hthrough).
  split; [exact Hlast |].
  assert (Hin : ∀ x, x ∈ out → x = 0 ∨ x = 1).
  { intros x Hx.
    apply (chainBack_closed (λ a, a ≠ 1 ∧ granted log a)).
    - intros [Hne _]. apply Hne. reflexivity.
    - apply Hthrough. exact Hx. }
  clear Hall Hrun Hplain Hfull Hstop Hlog Hlast Hthrough.
  split; [| split; [| exact Hpre]].
  - intros H. apply Hin in H as [H | H]; lia.
  - intros H. apply Hin in H as [H | H]; lia.
Defined.

Lemma start_first_barriers_block_witness :
  ∃ out s',
    bfs Scenario.chainBack (ById "a")
        (Scenario.barrierAt Scenario.chainBack "b") () = Some (inr out, s') ∧
    head out = Some 0 ∧ 1 ∈ out ∧ (2 ∉ out) ∧ (3 ∉ out).
Proof.
  destruct (start_first_barriers_block Scenario.chainBack
              (Scenario.barrierAt Scenario.chainBack "b")) as [_ Hall].
  destruct (Hall (ById "a") 0 ())
    as (out & s' & log & _ & Hplain & (out' & r & Hout & _) & _ & _ & _ & _ & _ & _
        & Hsound & Hcompl);
    [vm_compute; reflexivity |].
  exists out, s'. split; [exact Hplain |].
  split; [rewrite Hout; reflexivity |].
  assert (Hin : ∀ x, x ∈ out → x = 0 ∨ x = 1).
  { intros x Hx.
    apply (chainBack_closed
             (λ a, ∃ s0 d, (callExpand (Scenario.barrierAt Scenario.chainBack "b")
                                       s0 a d).2 = true)).
    - intros (s0 & d & H). vm_compute in H. congruence.
    - apply Hsound. exact Hx. }
  split.
  - apply Hcompl.
    + reflexivity.
    + intros s0 m d H. vm_compute in H. congruence.
    + apply rtc_once. split; [| vm_compute; reflexivity].
      intros s0 d. vm_compute. reflexivity.
  - clear Hall Hplain Hsound Hcompl.
    split; intros H; apply Hin in H as [H | H]; lia.
Defined.

(** ** Removal and traversal together *)

Section RemovedNeverTraversed.
Context {T S : Type}.
Implicit Types (w : World T) (opts : BFSOptions S) (n m d x k : nat).

(** X18: after [removeNode], a traversal of the network that starts from
    another node never returns the removed node, whatever the options. *)
Theorem removed_node_never_traversed w i node opts start n (s : S) :
  NetworkManager.getNode i w = Some node →
  startNode (NetworkManager.removeNode i w) start = Some n → n ≠ node →
  ∃ out s',
    bfs (NetworkManager.removeNode i w) start opts s = Some (inr out, s') ∧
    node ∉ out.
Proof.
  intros Hi Hstart Hne.
  destruct (bfs_observation (NetworkManager.removeNode i w) start n opts s Hstart)
    as (out & s' & log & _ & Hplain & Hobs).
  exists out, s'. split; [done |]. intros Hin.
  rewrite <- (obs_visits _ _ _ _ _ Hobs) in Hin.
  apply visitedNodes_lookup in Hin as (k & d & r & Hk).
  pose proof (observed_walks _ _ _ _ _ Hobs k node d r Hk) as Hwalk.
  unfold NetworkManager.getNode in Hi.
  inversion Hwalk as [x | j x y z _ Hedge]; subst; [done |].
  unfold NetworkManager.removeNode in Hedge. rewrite Hi in Hedge.
  cbn [network] in Hedge. rewrite hasEdge_removeNode in Hedge.
  rewrite (bool_decide_eq_true_2 (node = node)) in Hedge by done.
  by rewrite andb_false_r in Hedge.
Qed.

End RemovedNeverTraversed.

(** ** Instances *)

Lemma wellFormed_oneWay : wellFormed Scenario.oneWay.
Proof.
  apply (manager_keeps_wellFormed_aux
           [OpCreate "a" 5 [Scenario.toZero]; OpCreate "b" 0 [Scenario.acceptAll]]).
Qed.

Lemma createNode_then_getNode_witness :
  ∃ n, NetworkManager.getNode "c" (Scenario.createNode' "c" 3 [] Scenario.oneWay)
       = Some n ∧
       heap (Scenario.createNode' "c" 3 [] Scenario.oneWay) !! n
       = Some (mkNode "c" 3 []).
Proof.
  destruct (createNode_then_getNode Scenario.oneWay "c" 3 [])
    as (n & _ & _ & _ & Hheap & Hget & _).
  - apply wellFormed_oneWay.
  - discriminate.
  - vm_compute. reflexivity.
  - exists n. split; [exact Hget | exact Hheap].
Defined.

Lemma createNode_edges_witness :
  ∃ n, Store.hasEdge
         (network (NetworkManager.createNode "c" 0 [Scenario.universal]
                     Scenario.oneWay).1) n n = false.
Proof.
  destruct (createNode_edges Scenario.oneWay "c" 0 [Scenario.universal])
    as (n & _ & _ & Hself & _).
  - apply wellFormed_oneWay.
  - discriminate.
  - vm_compute. reflexivity.
  - exists n. exact Hself.
Defined.

Lemma create_remove_keep_edges_justified_witness :
  Store.hasEdge
    (network (runOps [OpCreate "a" 5 [Scenario.toZero];
                      OpCreate "b" 0 [Scenario.acceptAll];
                      OpRemove "a";
                      OpCreate "c" 1 [Scenario.universal]] newWorld)) 2 1 = true ↔
  2 ∈ nodes (network (runOps [OpCreate "a" 5 [Scenario.toZero];
                              OpCreate "b" 0 [Scenario.acceptAll];
                              OpRemove "a";
                              OpCreate "c" 1 [Scenario.universal]] newWorld)) ∧
  1 ∈ nodes (network (runOps [OpCreate "a" 5 [Scenario.toZero];
                              OpCreate "b" 0 [Scenario.acceptAll];
                              OpRemove "a";
                              OpCreate "c" 1 [Scenario.universal]] newWorld)) ∧
  2 ≠ 1 ∧
  justified (runOps [OpCreate "a" 5 [Scenario.toZero];
                     OpCreate "b" 0 [Scenario.acceptAll];
                     OpRemove "a";
                     OpCreate "c" 1 [Scenario.universal]] newWorld) 2 1 = true.
Proof.
  apply (create_remove_keep_edges_justified
           [OpCreate "a" 5 [Scenario.toZero]; OpCreate "b" 0 [Scenario.acceptAll];
            OpRemove "a"; OpCreate "c" 1 [Scenario.universal]]).
  reflexivity.
Defined.

Lemma removeNode_then_getNode_witness :
  NetworkManager.getNode "a" (NetworkManager.removeNode "a" Scenario.oneWay) = None.
Proof.
  apply (removeNode_then_getNode Scenario.oneWay "a"). apply wellFormed_oneWay.
Defined.

Lemma createNode_then_removeNode_witness :
  nodes (network (NetworkManager.removeNode "c"
                    (NetworkManager.createNode "c" 0 [Scenario.universal]
                       Scenario.oneWay).1))
  = nodes (network Scenario.oneWay).
Proof.
  apply (createNode_then_removeNode Scenario.oneWay "c" 0 [Scenario.universal]).
  - apply wellFormed_oneWay.
  - discriminate.
  - vm_compute. reflexivity.
Defined.

Lemma updateNodeData_edges_witness :
  nodes (network (NetworkManager.updateNodeData "n" 1 Scenario.turning).1)
  = nodes (network Scenario.turning).
Proof.
  apply (updateNodeData_edges Scenario.turning "n" 1 1). vm_compute. reflexivity.
Defined.

Lemma updateNodeData_settles_witness :
  Store.hasEdge
    (network (Scenario.updateNodeData' "n" 1
                (Scenario.updateNodeData' "n" 1
                   (Scenario.updateNodeData' "n" 1 Scenario.turning)))) 0 1
  = Store.hasEdge
      (network (Scenario.updateNodeData' "n" 1
                  (Scenario.updateNodeData' "n" 1 Scenario.turning))) 0 1.
Proof.
  apply (updateNodeData_settles Scenario.turning "n" 1 1). vm_compute. reflexivity.
Defined.

Lemma tryHandshake_rule_sets_witness :
  NetworkManager.tryHandshake
    (mkNode "a" 5 [Scenario.toZero; Scenario.universal]) (mkNode "b" 0 [Scenario.acceptAll])
  = NetworkManager.tryHandshake
      (mkNode "z" 5 [Scenario.universal; Scenario.toZero; Scenario.universal])
      (mkNode "b" 0 [Scenario.acceptAll; Scenario.acceptAll]).
Proof.
  apply (tryHandshake_rule_sets
           (mkNode "a" 5 [Scenario.toZero; Scenario.universal])
           (mkNode "b" 0 [Scenario.acceptAll])
           (mkNode "z" 5 [Scenario.universal; Scenario.toZero; Scenario.universal])
           (mkNode "b" 0 [Scenario.acceptAll; Scenario.acceptAll]));
    [reflexivity | reflexivity | |]; intros r; cbn [rules];
    rewrite !elem_of_cons; tauto.
Defined.

Lemma tryHandshake_needs_both_roles_witness :
  NetworkManager.tryHandshake (mkNode "a" 5 [Scenario.universal]) (mkNode "b" 0 [])
  = false.
Proof.
  apply (tryHandshake_needs_both_roles (mkNode "a" 5 [Scenario.universal])
           (mkNode "b" 0 [])).
  right. intros r Hr. cbn [rules] in Hr. by apply elem_of_nil in Hr.
Defined.

Lemma bfs_level_order_witness :
  ∃ out s' log,
    bfs Scenario.chain (ById "a") (observed noOptions) ((), [])
    = Some (inr out, (s', log)) ∧
    StronglySorted le (visitDepths log).
Proof.
  destruct (bfs_level_order Scenario.chain noOptions (ById "a") 0 ())
    as (out & s' & log & H1 & _ & H2 & _).
  - vm_compute. reflexivity.
  - exists out, s', log. split; [exact H1 | exact H2].
Defined.

Lemma bfs_unrestricted_reaches_all_witness :
  ∃ out s',
    bfs Scenario.chain (ById "b") noOptions () = Some (inr out, s') ∧
    ∀ m, m ∈ out ↔ reachable (network Scenario.chain) 1 m.
Proof.
  destruct (bfs_unrestricted_reaches_all Scenario.chain noOptions (ById "b") 1 ())
    as (out & s' & H1 & _ & H2).
  - reflexivity.
  - intros s m d. discriminate.
  - intros s m d. reflexivity.
  - vm_compute. reflexivity.
  - exists out, s'. split; [exact H1 | exact H2].
Defined.

Lemma bfs_unrestricted_depth_is_distance_witness :
  ∃ out s' log,
    bfs Scenario.chain (ById "b") (observed noOptions) ((), [])
    = Some (inr out, (s', log)) ∧
    ∀ k m d r, log !! k = Some (CallVisit m d r) →
      walk (network Scenario.chain) d 1 m ∧
      ∀ j, walk (network Scenario.chain) j 1 m → d ≤ j.
Proof.
  destruct (bfs_unrestricted_depth_is_distance Scenario.chain noOptions
              (ById "b") 1 ()) as (out & s' & log & H1 & _ & H2).
  - reflexivity.
  - intros s m d. discriminate.
  - intros s m d. reflexivity.
  - vm_compute. reflexivity.
  - exists out, s', log. split; [exact H1 | exact H2].
Defined.

Lemma bfs_maxDepth_zero_witness :
  ∃ s', bfs Scenario.chain (ById "a") (Scenario.withMaxDepth (-3)) ()
        = Some (inr [0], s').
Proof.
  apply (bfs_maxDepth_zero Scenario.chain (Scenario.withMaxDepth (-3))
           (ById "a") 0 () (-3)%Z).
  - reflexivity.
  - lia.
  - vm_compute. reflexivity.
Defined.

Lemma removed_node_never_traversed_witness :
  ∃ out s',
    bfs (NetworkManager.removeNode "c" Scenario.chain) (ById "a") noOptions ()
    = Some (inr out, s') ∧ 2 ∉ out.
Proof.
  apply (removed_node_never_traversed Scenario.chain "c" 2 noOptions (ById "a") 0 ()).
  - vm_compute. reflexivity.
  - vm_compute. reflexivity.
  - lia.
Defined.

Lemma updateNodeData_exact_when_mutual_witness :
  Store.hasEdge
    (network (NetworkManager.updateNodeData "q" 9
                (Scenario.createNode' "q" 2 [Scenario.universal]
                   (Scenario.createNode' "p" 1 [Scenario.universal]
                      Scenario.newManager))).1) 0 1
  = justified
      (NetworkManager.updateNodeData "q" 9
         (Scenario.createNode' "q" 2 [Scenario.universal]
            (Scenario.createNode' "p" 1 [Scenario.universal]
               Scenario.newManager))).1 0 1.
Proof.
  apply (updateNodeData_exact_when_mutual
           (Scenario.createNode' "q" 2 [Scenario.universal]
              (Scenario.createNode' "p" 1 [Scenario.universal] Scenario.newManager))
           "q" 9 1).
  - vm_compute. reflexivity.
  - intros x Hx.
    destruct (manager_keeps_wellFormed_aux
                [OpCreate "p" 1 [Scenario.universal];
                 OpCreate "q" 2 [Scenario.universal]]) as (_ & _ & _ & Hedge).
    apply Hedge in Hx as (Hin & _ & Hne).
    apply elem_of_cons in Hin as [-> | Hin]; [vm_compute; reflexivity |].
    apply list_elem_of_singleton in Hin. vm_compute in Hin. congruence.
  - vm_compute. apply elem_of_cons. by left.
  - lia.
Defined.

(** ** The first version of the manager *)

Section LegacyFacts.
Context {T : Type}.
Implicit Types (w : Legacy.World T) (i j : string) (x y n s t : nat)
  (r : Legacy.Rule T) (g : Network).

Import Legacy.

Lemma legacy_apply_unfold s t w r a b :
  heap w !! s = Some a → heap w !! t = Some b →
  tryApplyRuleEdge s t w r
  = if applies r a b
    then mkWorld (heap w)
           (if default false (bidirectional r)
            then Store.addEdge t s (Store.addEdge s t (network w))
            else Store.addEdge s t (network w))
    else w.
Proof.
  intros Ha Hb. unfold tryApplyRuleEdge, applies. rewrite Ha, Hb.
  destruct (targetFilter r) as [f |]; [destruct (f (data b)) |];
    destruct (rmatch r (data a) (data b)); done.
Qed.

Lemma legacy_apply_effect s t w r a b :
  heap w !! s = Some a → heap w !! t = Some b →
  s ∈ nodes (network w) → t ∈ nodes (network w) →
  heap (tryApplyRuleEdge s t w r) = heap w ∧
  nodes (network (tryApplyRuleEdge s t w r)) = nodes (network w) ∧
  ∀ x y, Store.hasEdge (network (tryApplyRuleEdge s t w r)) x y = true ↔
    Store.hasEdge (network w) x y = true ∨
    (applies r a b = true ∧ x = s ∧ y = t) ∨
    ((applies r a b && default false (bidirectional r)) = true ∧ x = t ∧ y = s).
Proof.
  intros Ha Hb Hs Ht. rewrite (legacy_apply_unfold s t w r a b Ha Hb).
  destruct (applies r a b); cbn [andb].
  2: { split; [done |]. split; [done |]. intros x y. split; [by left |].
       intros [H | [[H _] | [H _]]]; done. }
  split; [done |].
  destruct (default false (bidirectional r)); cbn [heap network].
  - split.
    { rewrite !nodes_addEdge.
      rewrite (add_present s (nodes (network w))) by done.
      rewrite (add_present t (nodes (network w))) by done.
      rewrite (add_present t (nodes (network w))) by done.
      by rewrite (add_present s (nodes (network w))) by done. }
    intros x y. rewrite !hasEdge_addEdge, !orb_true_iff, !bool_decide_eq_true.
    tauto.
  - split.
    { rewrite !nodes_addEdge.
      rewrite (add_present s (nodes (network w))) by done.
      by rewrite (add_present t (nodes (network w))) by done. }
    intros x y. rewrite !hasEdge_addEdge, !orb_true_iff, !bool_decide_eq_true.
    split; [tauto |]. intros [H | [H | [H _]]]; [tauto | tauto | done].
Qed.

Lemma legacy_apply_fold s t a b (rs : list (Rule T)) : ∀ w,
  heap w !! s = Some a → heap w !! t = Some b →
  s ∈ nodes (network w) → t ∈ nodes (network w) →
  heap (foldl (tryApplyRuleEdge s t) w rs) = heap w ∧
  nodes (network (foldl (tryApplyRuleEdge s t) w rs)) = nodes (network w) ∧
  ∀ x y, Store.hasEdge (network (foldl (tryApplyRuleEdge s t) w rs)) x y = true ↔
    Store.hasEdge (network w) x y = true ∨
    (existsb (λ r, applies r a b) rs = true ∧ x = s ∧ y = t) ∨
    (existsb (λ r, applies r a b && default false (bidirectional r)) rs = true ∧
     x = t ∧ y = s).
Proof.
  induction rs as [| r rs IH]; intros w Ha Hb Hs Ht; simpl.
  - split; [done |]. split; [done |]. intros x y. split; [by left |].
    intros [H | [[H _] | [H _]]]; done.
  - destruct (legacy_apply_effect s t w r a b Ha Hb Hs Ht) as (Hh & Hn & He).
    destruct (IH (tryApplyRuleEdge s t w r)) as (IHh & IHn & IHe).
    { by rewrite Hh. } { by rewrite Hh. } { by rewrite Hn. } { by rewrite Hn. }
    split; [by rewrite IHh |]. split; [by rewrite IHn |].
    intros x y. rewrite IHe, He, !orb_true_iff. tauto.
Qed.

Lemma legacy_ruleStep_effect n w o :
  n ∈ nodes (network w) → o ∈ nodes (network w) →
  heap (ruleStep n w o) = heap w ∧
  nodes (network (ruleStep n w o)) = nodes (network w) ∧
  ∀ x y, Store.hasEdge (network (ruleStep n w o)) x y = true ↔
    Store.hasEdge (network w) x y = true ∨
    (o ≠ n ∧ x = n ∧ y = o ∧ links w n o = true) ∨
    (o ≠ n ∧ x = o ∧ y = n ∧ links w o n = true).
Proof.
  intros Hn Ho. unfold ruleStep, links.
  destruct (decide (o = n)) as [-> | Hne].
  { split; [done |]. split; [done |]. intros x y. split; [by left |].
    intros [H | [[H _] | [H _]]]; done. }
  destruct (heap w !! n) as [a |] eqn:Ha, (heap w !! o) as [b |] eqn:Hb;
    try (split; [done |]; split; [done |]; intros x y; split; [by left |];
         intros [H | [(_ & _ & _ & H) | (_ & _ & _ & H)]]; done).
  destruct (legacy_apply_fold n o a b (rules a) w Ha Hb Hn Ho) as (Hh1 & Hn1 & He1).
  set (w1 := foldl (tryApplyRuleEdge n o) w (rules a)) in *.
  destruct (legacy_apply_fold o n b a (rules b) w1) as (Hh2 & Hn2 & He2).
  { by rewrite Hh1. } { by rewrite Hh1. } { by rewrite Hn1. } { by rewrite Hn1. }
  split; [by rewrite Hh2 |]. split; [by rewrite Hn2 |].
  intros x y. rewrite He2, He1, !orb_true_iff. tauto.
Qed.

Lemma legacy_links_heap w w' x y : heap w' = heap w → links w' x y = links w x y.
Proof. unfold links. by intros ->. Qed.

Lemma legacy_sweep_fold n (l : list nat) : ∀ w,
  n ∈ nodes (network w) → (∀ o, o ∈ l → o ∈ nodes (network w)) →
  heap (foldl (ruleStep n) w l) = heap w ∧
  nodes (network (foldl (ruleStep n) w l)) = nodes (network w) ∧
  ∀ x y, Store.hasEdge (network (foldl (ruleStep n) w l)) x y = true ↔
    Store.hasEdge (network w) x y = true ∨
    (x = n ∧ y ∈ l ∧ y ≠ n ∧ links w n y = true) ∨
    (y = n ∧ x ∈ l ∧ x ≠ n ∧ links w x n = true).
Proof.
  induction l as [| o rest IH]; intros w Hn Hl; simpl.
  - split; [done |]. split; [done |]. intros x y. split; [by left |].
    intros [H | [H | H]]; [done | |].
    + destruct H as (_ & H & _). by apply elem_of_nil in H.
    + destruct H as (_ & H & _). by apply elem_of_nil in H.
  - assert (Ho : o ∈ nodes (network w)) by (apply Hl; by left).
    destruct (legacy_ruleStep_effect n w o Hn Ho) as (Hh & Hns & He).
    destruct (IH (ruleStep n w o)) as (IHh & IHn & IHe).
    { by rewrite Hns. }
    { intros o' Ho'. rewrite Hns. apply Hl. by right. }
    split; [by rewrite IHh |]. split; [by rewrite IHn |].
    intros x y. rewrite IHe, He.
    rewrite !(legacy_links_heap w (ruleStep n w o)) by done.
    rewrite !elem_of_cons. split.
    + intros [[H | [H | H]] | [H | H]]; [by left | right; left | right; right | |].
      * destruct H as (? & -> & -> & ?). tauto.
      * destruct H as (? & -> & -> & ?). tauto.
      * right; left. tauto.
      * right; right. tauto.
    + intros [H | [H | H]]; [by left; left | |].
      * destruct H as (-> & [-> | Hy] & Hne & Hj).
        -- left; right; left. done.
        -- right; left. done.
      * destruct H as (-> & [-> | Hx] & Hne & Hj).
        -- left; right; right. done.
        -- right; right. done.
Qed.

Lemma legacy_createNode_fresh w i (d : T) rs :
  allocated w → i ≠ "" → findNode i w = None →
  createNode i d rs w = ((createNode i d rs w).1, inr (length (heap w))) ∧
  heap (createNode i d rs w).1 = heap w ++ [mkNode i d rs] ∧
  nodes (network (createNode i d rs w).1)
    = nodes (network w) ++ [length (heap w)] ∧
  ∀ x y, Store.hasEdge (network (createNode i d rs w).1) x y = true ↔
    Store.hasEdge (network w) x y = true ∨
    (x = length (heap w) ∧ y ∈ nodes (network w) ∧
     links (createNode i d rs w).1 (length (heap w)) y = true) ∨
    (y = length (heap w) ∧ x ∈ nodes (network w) ∧
     links (createNode i d rs w).1 x (length (heap w)) = true).
Proof.
  intros [Hnodes Hedges] Hi Hnone. unfold createNode.
  destruct (decide (i = "")) as [| _]; [done |]. rewrite Hnone. cbn [fst].
  set (n := length (heap w)) in *.
  set (w1 := mkWorld (heap w ++ [mkNode i d rs]) (Store.addNode n (network w))).
  assert (Hfresh : n ∉ nodes (network w)).
  { intros Hn. apply Hnodes in Hn. subst n. lia. }
  assert (Hn1 : nodes (network w1) = nodes (network w) ++ [n]).
  { cbn. unfold NodeSet.add. apply has_false in Hfresh. by rewrite Hfresh. }
  destruct (legacy_sweep_fold n (nodes (network w1)) w1) as (Hh & Hns & He).
  { rewrite Hn1, elem_of_app, list_elem_of_singleton. by right. }
  { done. }
  unfold ruleSweep. split; [done |]. split; [by rewrite Hh |].
  split; [by rewrite Hns |].
  intros x y. rewrite He. cbn [network w1]. rewrite hasEdge_addNode.
  rewrite !(legacy_links_heap w1 (foldl (ruleStep n) w1 (nodes (network w1)))) by done.
  change (nodes (Store.addNode n (network w))) with (nodes (network w1)).
  rewrite Hn1. rewrite !elem_of_app, !list_elem_of_singleton.
  split.
  - intros [H | [H | H]]; [by left | right; left | right; right]; tauto.
  - intros [H | [H | H]]; [by left | right; left | right; right].
    + destruct H as (-> & Hy & Hj). repeat split; [by left | | done].
      intros ->. done.
    + destruct H as (-> & Hx & Hj). repeat split; [by left | | done].
      intros ->. done.
Qed.

Lemma delete_twice n (l : list nat) :
  NodeSet.delete n (NodeSet.delete n l) = NodeSet.delete n l.
Proof.
  unfold NodeSet.delete. induction l as [| a l IH]; [done |].
  rewrite filter_cons. destruct (decide (a ≠ n)) as [Ha | Ha]; [| done].
  rewrite filter_cons, decide_True by done. by rewrite IH.
Qed.

Lemma legacy_unlink_fold node (l : list nat) : ∀ g,
  nodes (foldl (unlinkStep node) g l) = nodes g ∧
  ∀ k, k ≠ node →
    NodeSet.delete node <$> edges (foldl (unlinkStep node) g l) !! k
    = NodeSet.delete node <$> edges g !! k.
Proof.
  induction l as [| a l IH]; intros g; simpl; [done |].
  destruct (IH (unlinkStep node g a)) as [IHn IHe].
  assert (Hstep : nodes (unlinkStep node g a) = nodes g ∧
            ∀ k, k ≠ node →
              NodeSet.delete node <$> edges (unlinkStep node g a) !! k
              = NodeSet.delete node <$> edges g !! k).
  { unfold unlinkStep. destruct (decide (a = node)) as [| Ha]; [done |].
    split; [done |]. intros k Hk. unfold Store.removeEdge; cbn [edges].
    destruct (decide (k = a)) as [-> | Hka].
    - rewrite lookup_alter_eq, lookup_alter_ne by done.
      destruct (edges g !! a) as [e |]; simpl; [| done].
      by rewrite delete_twice.
    - rewrite !lookup_alter_ne by done. done. }
  destruct Hstep as [Hsn Hse]. split; [by rewrite IHn |].
  intros k Hk. rewrite IHe by done. by apply Hse.
Qed.

Lemma legacy_removeNode_store w i :
  removeNode i w
  = match findNode i w with
    | None => w
    | Some node => mkWorld (heap w) (Store.removeNode node (network w))
    end.
Proof.
  unfold removeNode. destruct (findNode i w) as [node |]; [| done].
  f_equal. unfold Store.removeNode.
  destruct (legacy_unlink_fold node (nodes (network w)) (network w)) as [Hn He].
  rewrite Hn. f_equal. apply map_eq. intros k. rewrite !lookup_fmap.
  destruct (decide (k = node)) as [-> | Hk].
  - by rewrite !lookup_delete_eq.
  - rewrite !lookup_delete_ne by done. by apply He.
Qed.

(** X19: the loop of the first version's [removeNode], which removes the
    edges between the node and every other node one by one, changes nothing
    of the outcome: the call leaves exactly the world that removing the
    node from the store alone leaves, and an absent id leaves the world as
    it is. *)
Theorem legacy_removeNode_unlinking_redundant w i :
  removeNode i w
  = match findNode i w with
    | None => w
    | Some node => mkWorld (heap w) (Store.removeNode node (network w))
    end.
Proof. apply legacy_removeNode_store. Qed.

Lemma legacy_allocated_newWorld : allocated (@newWorld T).
Proof.
  split.
  - intros x Hx. by apply elem_of_nil in Hx.
  - intros x y H. apply hasEdge_true in H as (e & He & _). cbn in He.
    by rewrite lookup_empty in He.
Qed.

Lemma legacy_allocated_createNode w i (d : T) rs :
  allocated w → allocated (createNode i d rs w).1.
Proof.
  intros Hall. destruct (decide (i = "")) as [-> | Hi]; [done |].
  destruct (findNode i w) as [node |] eqn:Hfind.
  { unfold createNode. destruct (decide (i = "")); [done |]. by rewrite Hfind. }
  destruct (legacy_createNode_fresh w i d rs Hall Hi Hfind) as (_ & Hh & Hn & He).
  destruct Hall as [Hnodes Hedges]. split.
  - intros x. rewrite Hn, Hh, length_app, elem_of_app, list_elem_of_singleton.
    simpl. intros [Hx | ->]; [apply Hnodes in Hx |]; lia.
  - intros x y. rewrite He, Hh, length_app. simpl.
    intros [H | [(-> & Hy & _) | (-> & Hx & _)]].
    + apply Hedges in H. lia.
    + apply Hnodes in Hy. lia.
    + apply Hnodes in Hx. lia.
Qed.

Lemma legacy_allocated_removeNode w i : allocated w → allocated (removeNode i w).
Proof.
  intros [Hnodes Hedges]. rewrite legacy_removeNode_store.
  destruct (findNode i w) as [node |]; [| done].
  split; cbn [network heap nodes Store.removeNode].
  - intros x [_ Hx]%elem_of_delete. by apply Hnodes.
  - intros x y. rewrite hasEdge_removeNode, !andb_true_iff.
    intros [_ H]. by apply Hedges.
Qed.

Lemma legacy_allocated_updateNodeData w i (d : T) :
  allocated w → allocated (updateNodeData i d w).1.
Proof.
  intros [Hnodes Hedges]. unfold updateNodeData.
  destruct (findNode i w) as [node |]; [| done].
  split; cbn [fst network heap]; rewrite length_alter; done.
Qed.

Lemma legacy_allocated_runOps (ops : list (Op T)) : ∀ w,
  allocated w → allocated (runOps ops w).
Proof.
  unfold runOps. induction ops as [| o ops IH]; intros w Hw; [done |].
  simpl. apply IH. destruct o as [i d rs | i | i d]; simpl.
  - by apply legacy_allocated_createNode.
  - by apply legacy_allocated_removeNode.
  - by apply legacy_allocated_updateNodeData.
Qed.

Lemma legacy_links_grow w w' h' x y :
  heap w' = heap w ++ h' → x < length (heap w) → y < length (heap w) →
  links w' x y = links w x y.
Proof.
  intros Hh Hx Hy. unfold links. by rewrite Hh, !lookup_app_l by done.
Qed.

(** X20: in the first version, creating a node under a fresh non-empty id
    returns a new node object that is appended to the node set, changes no
    edge between two earlier nodes, and puts the edge from the new node to
    an earlier node (or back) in the store exactly when a rule of the edge's
    source applies to its target, or a bidirectional rule of its target
    applies to its source. *)
Theorem legacy_createNode_edges w i (d : T) rs :
  allocated w → i ≠ "" → findNode i w = None →
  ∃ n, createNode i d rs w = ((createNode i d rs w).1, inr n) ∧
    heap (createNode i d rs w).1 = heap w ++ [mkNode i d rs] ∧
    nodes (network (createNode i d rs w).1) = nodes (network w) ++ [n] ∧
    (∀ x y, x ≠ n → y ≠ n →
       Store.hasEdge (network (createNode i d rs w).1) x y
       = Store.hasEdge (network w) x y) ∧
    (∀ y, Store.hasEdge (network (createNode i d rs w).1) n y = true ↔
          y ∈ nodes (network w) ∧ links (createNode i d rs w).1 n y = true) ∧
    (∀ x, Store.hasEdge (network (createNode i d rs w).1) x n = true ↔
          x ∈ nodes (network w) ∧ links (createNode i d rs w).1 x n = true).
Proof.
  intros Hall Hi Hnone.
  destruct (legacy_createNode_fresh w i d rs Hall Hi Hnone) as (Hret & Hh & Hn & He).
  destruct Hall as [Hnodes Hedges].
  exists (length (heap w)). set (n := length (heap w)) in *.
  assert (Hfresh : n ∉ nodes (network w)).
  { intros Hin. apply Hnodes in Hin. subst n. lia. }
  split; [done |]. split; [done |]. split; [done |]. split; [| split].
  - intros x y Hx Hy. apply eq_true_iff_eq. rewrite He. split; [| by left].
    intros [H | [[H _] | [H _]]]; done.
  - intros y. rewrite He. split.
    + intros [H | [(_ & Hy & Hl) | (-> & Hx & _)]]; [| done | done].
      apply Hedges in H as [H _]. subst n. lia.
    + intros [Hy Hl]. right; left. done.
  - intros x. rewrite He. split.
    + intros [H | [(-> & Hy & _) | (_ & Hx & Hl)]]; [| done | done].
      apply Hedges in H as [_ H]. subst n. lia.
    + intros [Hx Hl]. right; right. done.
Qed.

Lemma legacy_linked_createNode w i (d : T) rs :
  allocated w → linked w → linked (createNode i d rs w).1.
Proof.
  intros Hall Hlk. destruct (decide (i = "")) as [-> | Hi]; [done |].
  destruct (findNode i w) as [node |] eqn:Hfind.
  { unfold createNode. destruct (decide (i = "")); [done |]. by rewrite Hfind. }
  destruct (legacy_createNode_fresh w i d rs Hall Hi Hfind) as (_ & Hh & Hn & He).
  set (n := length (heap w)) in *. set (w' := (createNode i d rs w).1) in *.
  assert (Hfresh : n ∉ nodes (network w)).
  { intros Hin. apply Hall in Hin. subst n. lia. }
  intros x y. rewrite He, Hn, !elem_of_app, !list_elem_of_singleton. split.
  - intros [H | [(-> & Hy & Hl) | (-> & Hx & Hl)]].
    + apply Hlk in H as (Hx & Hy & Hne & Hl).
      rewrite (legacy_links_grow w w' _ x y Hh) by (by apply Hall). tauto.
    + split; [by right |]. split; [by left |]. split; [| done]. by intros <-.
    + split; [by left |]. split; [by right |]. split; [| done]. by intros ->.
  - intros ([Hx | ->] & [Hy | ->] & Hne & Hl).
    + left. apply Hlk.
      rewrite (legacy_links_grow w w' _ x y Hh) in Hl by (by apply Hall). tauto.
    + right; right. done.
    + right; left. done.
    + done.
Qed.

Lemma legacy_linked_removeNode w i : linked w → linked (removeNode i w).
Proof.
  intros Hlk. rewrite legacy_removeNode_store.
  destruct (findNode i w) as [node |]; [| done].
  intros x y. cbn [network heap nodes Store.removeNode].
  rewrite hasEdge_removeNode, !andb_true_iff, !negb_true_iff,
    !bool_decide_eq_false, !elem_of_delete, (Hlk x y).
  unfold links. cbn [heap]. tauto.
Qed.

Lemma legacy_linked_newWorld : linked (@newWorld T).
Proof.
  intros x y. split.
  - intros H. apply (proj2 legacy_allocated_newWorld) in H. cbn in H. lia.
  - intros (Hx & _). by apply elem_of_nil in Hx.
Qed.

(** X21: as long as only [createNode] and [removeNode] of the first version
    are called on a new manager, in any sequence and with any arguments,
    the edges of the store are exactly the ordered pairs of different nodes
    of the node set such that a rule of the first applies to the second or
    a bidirectional rule of the second applies to the first. *)
Theorem legacy_create_remove_keep_edges_linked (ops : list (Op T)) :
  forallb (λ o, negb (isUpdate o)) ops = true →
  ∀ x y, Store.hasEdge (network (runOps ops newWorld)) x y = true ↔
         x ∈ nodes (network (runOps ops newWorld)) ∧
         y ∈ nodes (network (runOps ops newWorld)) ∧ x ≠ y ∧
         links (runOps ops newWorld) x y = true.
Proof.
  intros Hops. change (linked (runOps ops (@newWorld T))).
  unfold runOps. revert Hops.
  generalize legacy_allocated_newWorld legacy_linked_newWorld.
  generalize (@newWorld T).
  induction ops as [| o ops IH]; intros w Hw Hlk Hops; [done |].
  simpl in Hops. apply andb_true_iff in Hops as [Ho Hops]. simpl.
  apply IH; [| | done].
  - apply (legacy_allocated_runOps [o] w Hw).
  - destruct o as [i d rs | i | i d]; simpl; [| | done].
    + by apply legacy_linked_createNode.
    + by apply legacy_linked_removeNode.
Qed.

Lemma existsb_allBidirectional (f : Rule T → bool) (rs : list (Rule T)) :
  allBidirectional rs = true →
  existsb (λ r, f r && default false (bidirectional r)) rs = existsb f rs.
Proof.
  unfold allBidirectional. induction rs as [| r rs IH]; simpl; [done |].
  intros [Hr Hrs]%andb_true_iff. rewrite Hr, andb_true_r. by rewrite IH.
Qed.

Lemma legacy_links_sym w x y :
  (∀ z o, heap w !! z = Some o → allBidirectional (rules o) = true) →
  links w x y = links w y x.
Proof.
  intros Hall. unfold links.
  destruct (heap w !! x) as [a |] eqn:Ha, (heap w !! y) as [b |] eqn:Hb; try done.
  rewrite !existsb_allBidirectional by eauto. apply orb_comm.
Qed.

Lemma legacy_symmetric_runOp w (o : Op T) :
  mutualOp o = true →
  allocated w ∧
  (∀ z a, heap w !! z = Some a → allBidirectional (rules a) = true) ∧
  (∀ x y, Store.hasEdge (network w) x y = Store.hasEdge (network w) y x) →
  (∀ z a, heap (runOp w o) !! z = Some a → allBidirectional (rules a) = true) ∧
  (∀ x y, Store.hasEdge (network (runOp w o)) x y
          = Store.hasEdge (network (runOp w o)) y x).
Proof.
  intros Ho (Hall & Hbi & Hsym). destruct o as [i d rs | i | i d]; simpl in *.
  - destruct (decide (i = "")) as [-> | Hi]; [done |].
    destruct (findNode i w) as [node |] eqn:Hfind.
    { unfold createNode. destruct (decide (i = "")); [done |]. by rewrite Hfind. }
    destruct (legacy_createNode_fresh w i d rs Hall Hi Hfind) as (_ & Hh & Hn & He).
    assert (Hbi' : ∀ z a, heap (createNode i d rs w).1 !! z = Some a →
                     allBidirectional (rules a) = true).
    { intros z a. rewrite Hh. intros Hz. apply lookup_app_Some in Hz as [Hz | [_ Hz]].
      - by apply (Hbi z).
      - apply list_lookup_singleton_Some in Hz as [_ <-]. done. }
    split; [done |]. intros x y. apply eq_true_iff_eq. rewrite !He.
    rewrite (Hsym x y).
    rewrite (legacy_links_sym _ (length (heap w)) y Hbi').
    rewrite (legacy_links_sym _ x (length (heap w)) Hbi'). tauto.
  - rewrite legacy_removeNode_store. destruct (findNode i w) as [node |]; [| done].
    split; [done |]. intros x y. cbn [network]. rewrite !hasEdge_removeNode.
    rewrite (Hsym x y). by rewrite (andb_comm (negb (bool_decide (x = node)))).
  - unfold updateNodeData. destruct (findNode i w) as [node |]; [| done].
    split; [| done]. intros z a. cbn [fst heap].
    destruct (decide (z = node)) as [-> | Hz].
    + rewrite list_lookup_alter_eq.
      destruct (heap w !! node) as [a0 |] eqn:Ha0; [| done].
      intros [= <-]. by apply (Hbi node a0).
    + rewrite list_lookup_alter_ne by done. apply Hbi.
Qed.

(** X22: if every rule ever given to [createNode] of the first version is
    bidirectional, then after any sequence of [createNode], [removeNode]
    and [updateNodeData] calls on a new manager the store holds an edge
    exactly when it holds the reverse edge. *)
Theorem legacy_bidirectional_edges_symmetric (ops : list (Op T)) :
  forallb mutualOp ops = true →
  ∀ x y, Store.hasEdge (network (runOps ops newWorld)) x y
         = Store.hasEdge (network (runOps ops newWorld)) y x.
Proof.
  intros Hops. unfold runOps. revert Hops.
  assert (Hbi : ∀ z a, heap (@newWorld T) !! z = Some a →
                  allBidirectional (rules a) = true) by done.
  assert (Hsym : ∀ x y, Store.hasEdge (network (@newWorld T)) x y
                        = Store.hasEdge (network (@newWorld T)) y x) by done.
  revert Hbi Hsym. generalize legacy_allocated_newWorld. generalize (@newWorld T).
  induction ops as [| o ops IH]; intros w Hw Hbi Hsym Hops; [done |].
  simpl in Hops. apply andb_true_iff in Hops as [Ho Hops]. simpl.
  destruct (legacy_symmetric_runOp w o Ho) as [Hbi' Hsym']; [done |].
  apply IH; [| done | done | done].
  apply (legacy_allocated_runOps [o] w Hw).
Qed.

End LegacyFacts.

Lemma legacy_allocated_pair : Legacy.allocated Legacy.pair.
Proof.
  apply (legacy_allocated_runOps
           [Legacy.OpCreate "a" 5 [Legacy.toZero]; Legacy.OpCreate "b" 0 []]
           Legacy.newWorld).
  apply legacy_allocated_newWorld.
Qed.

Lemma legacy_createNode_edges_witness :
  ∃ n, nodes (Legacy.network
                (Legacy.createNode "c" 1 [Legacy.mutual] Legacy.pair).1)
       = nodes (Legacy.network Legacy.pair) ++ [n].
Proof.
  destruct (legacy_createNode_edges Legacy.pair "c" 1 [Legacy.mutual])
    as (n & _ & _ & Hn & _).
  - apply legacy_allocated_pair.
  - discriminate.
  - vm_compute. reflexivity.
  - exists n. exact Hn.
Defined.

Lemma legacy_create_remove_keep_edges_linked_witness :
  Store.hasEdge
    (Legacy.network
       (Legacy.runOps [Legacy.OpCreate "a" 5 [Legacy.toZero];
                       Legacy.OpCreate "b" 0 [];
                       Legacy.OpRemove "a";
                       Legacy.OpCreate "c" 1 [Legacy.mutual]] Legacy.newWorld))
    1 2 = true ↔
  1 ∈ nodes (Legacy.network
               (Legacy.runOps [Legacy.OpCreate "a" 5 [Legacy.toZero];
                               Legacy.OpCreate "b" 0 [];
                               Legacy.OpRemove "a";
                               Legacy.OpCreate "c" 1 [Legacy.mutual]]
                  Legacy.newWorld)) ∧
  2 ∈ nodes (Legacy.network
               (Legacy.runOps [Legacy.OpCreate "a" 5 [Legacy.toZero];
                               Legacy.OpCreate "b" 0 [];
                               Legacy.OpRemove "a";
                               Legacy.OpCreate "c" 1 [Legacy.mutual]]
                  Legacy.newWorld)) ∧
  1 ≠ 2 ∧
  Legacy.links
    (Legacy.runOps [Legacy.OpCreate "a" 5 [Legacy.toZero];
                    Legacy.OpCreate "b" 0 [];
                    Legacy.OpRemove "a";
                    Legacy.OpCreate "c" 1 [Legacy.mutual]] Legacy.newWorld)
    1 2 = true.
Proof.
  apply (legacy_create_remove_keep_edges_linked
           [Legacy.OpCreate "a" 5 [Legacy.toZero]; Legacy.OpCreate "b" 0 [];
            Legacy.OpRemove "a"; Legacy.OpCreate "c" 1 [Legacy.mutual]]).
  reflexivity.
Defined.

Lemma legacy_bidirectional_edges_symmetric_witness :
  Store.hasEdge
    (Legacy.network
       (Legacy.runOps [Legacy.OpCreate "a" 5 [Legacy.mutual];
                       Legacy.OpCreate "b" 0 [];
                       Legacy.OpUpdate "a" 3;
                       Legacy.OpCreate "c" 1 [Legacy.mutual];
                       Legacy.OpRemove "a"] Legacy.newWorld)) 1 2
  = Store.hasEdge
      (Legacy.network
         (Legacy.runOps [Legacy.OpCreate "a" 5 [Legacy.mutual];
                         Legacy.OpCreate "b" 0 [];
                         Legacy.OpUpdate "a" 3;
                         Legacy.OpCreate "c" 1 [Legacy.mutual];
                         Legacy.OpRemove "a"] Legacy.newWorld)) 2 1.
Proof.
  apply (legacy_bidirectional_edges_symmetric
           [Legacy.OpCreate "a" 5 [Legacy.mutual]; Legacy.OpCreate "b" 0 [];
            Legacy.OpUpdate "a" 3; Legacy.OpCreate "c" 1 [Legacy.mutual];
            Legacy.OpRemove "a"]).
  reflexivity.
Defined.
